(** * hsd-auction-notify: the auction index and the block classifier

    A shallow embedding of [lib/auctiondb.js], [lib/layout.js] and
    [lib/http.js].  The key-value store (bdb), the key compiler
    ([bdb.key]), big numbers ([bcrypto/lib/bn]) and the socket server
    (bweb) are libraries the plugin calls; the part of their behaviour
    the plugin relies on is written out below next to the plugin's own
    functions. *)

From Stdlib Require Import ZArith NArith Lia.
From Stdlib Require Import Strings.Byte.
From stdpp Require Import gmap strings list fin_maps sorting.

Open Scope Z_scope.

(** ** Buffers *)

Abbreviation byte := Byte.byte.
Abbreviation Buffer := (list Byte.byte).

#[global] Instance byte_eq_dec : EqDecision byte := Byte.byte_eq_dec.

#[global] Program Instance byte_countable : Countable byte :=
  inj_countable Byte.to_N Byte.of_N _.
Next Obligation. intros x. apply Byte.of_to_N. Qed.

(** The byte holding [n mod 256]. *)
Definition byte_of_N (n : N) : byte :=
  match Byte.of_N (n mod 256)%N with
  | Some b => b
  | None => Byte.x00
  end.

(** [Buffer.compare(a, b) <= 0]: bytewise lexicographic order, the order
    in which the store keeps and iterates its keys. *)
Fixpoint key_leb (a b : Buffer) : bool :=
  match a, b with
  | [], _ => true
  | _ :: _, [] => false
  | x :: a', y :: b' =>
      (Byte.to_N x <? Byte.to_N y)%N
      || ((Byte.to_N x =? Byte.to_N y)%N && key_leb a' b')
  end.

Definition key_le (a b : Buffer) : Prop := key_leb a b = true.

#[global] Instance key_le_dec a b : Decision (key_le a b).
Proof. unfold key_le. apply _. Defined.

(** ** Results and faults *)

Inductive error : Type :=
  | AssertionError
  | KeyError                       (* the key compiler's assertType / assertLen *)
  | TypeError
  | ReferenceError (id : string).

Inductive outcome (A : Type) : Type :=
  | Ret (a : A)
  | Throw (e : error).
Arguments Ret {A} a.
Arguments Throw {A} e.

(** A computation over a state [S] that may throw; the state reached so
    far survives a throw. *)
Definition M (S A : Type) : Type := S -> outcome A * S.

Definition ret {S A} (a : A) : M S A := fun s => (Ret a, s).
Definition throw {S A} (e : error) : M S A := fun s => (Throw e, s).
Definition bind {S A B} (m : M S A) (f : A -> M S B) : M S B :=
  fun s => match m s with
           | (Ret a, s') => f a s'
           | (Throw e, s') => (Throw e, s')
           end.
Definition gets {S A} (f : S -> A) : M S A := fun s => (Ret (f s), s).
Definition modify {S} (f : S -> S) : M S unit := fun s => (Ret tt, f s).
Definition lift {S A} (f : S -> outcome A) : M S A := fun s => (f s, s).
Definition assert {S} (b : bool) : M S unit :=
  if b then ret tt else throw AssertionError.

#[global] Instance M_ret {S} : MRet (M S) := fun A => @ret S A.
#[global] Instance M_bind {S} : MBind (M S) := fun A B f m => bind m f.

(** [for (const x of l) body(x)]; a throw leaves the loop. *)
Fixpoint forM_ {S A} (body : A -> M S unit) (l : list A) : M S unit :=
  match l with
  | [] => ret tt
  | x :: l' => body x ≫= λ _, forM_ body l'
  end.

(** What the caller of add/remove gets back: [true], [false] or [null]. *)
Inductive result : Type := r_true | r_false | r_null.

(** ** Big numbers: bcrypto's BN, as far as the index uses it *)

Module BN.

(** Big-endian base-256 digits of [n], most significant first. *)
Fixpoint digits (fuel : nat) (n : N) (acc : Buffer) : Buffer :=
  match fuel with
  | O => acc
  | S fuel' =>
      if (n =? 0)%N then acc
      else digits fuel' (n / 256)%N (byte_of_N n :: acc)
  end.

(** [bn.encode()]: big-endian, [Math.max(1, byteLength)] bytes of the
    magnitude; the sign is not written. *)
Definition encode (z : Z) : Buffer :=
  let n := Z.abs_N z in
  match digits (S (N.to_nat (N.log2 n))) n [] with
  | [] => [Byte.x00]
  | l => l
  end.

(** [BN.decode(raw)]: the unsigned big-endian value of [raw]. *)
Definition decodeN (raw : Buffer) : N :=
  fold_left (fun acc b => (acc * 256 + Byte.to_N b)%N) raw 0%N.

Definition decode (raw : Buffer) : Z := Z.of_N (decodeN raw).

End BN.

(** ** Keys: [bdb.key] and [lib/layout.js] *)

Record Outpoint : Type := mkOutpoint { hash : Buffer; index : Z }.

#[global] Instance Outpoint_eq_dec : EqDecision Outpoint.
Proof. solve_decision. Defined.

Module key.

(** Field writers of the key compiler.  A string field is written as
    one length byte followed by its bytes ([writeString]); every writer
    checks its argument and fails otherwise. *)
Definition write_ascii (s : string) : option Buffer :=
  let bs := String.list_byte_of_string s in
  if decide (length bs <= 255)%nat
  then Some (byte_of_N (N.of_nat (length bs)) :: bs)
  else None.

Definition write_hash256 (h : Buffer) : option Buffer :=
  if decide (length h = 32%nat) then Some h else None.

Definition writeU32BE (i : Z) : Buffer :=
  let n := Z.to_N i in
  [byte_of_N (n / 16777216); byte_of_N (n / 65536);
   byte_of_N (n / 256); byte_of_N n].

Definition write_uint32 (i : Z) : option Buffer :=
  if decide (0 <= i < 4294967296) then Some (writeU32BE i) else None.

(** Field readers ([readString], [k.slice], [readU32BE]); each returns
    the field and what follows it. *)
Definition read_ascii (k : Buffer) : option (string * Buffer) :=
  match k with
  | [] => None
  | len :: rest =>
      let n := N.to_nat (Byte.to_N len) in
      if decide (n <= length rest)%nat
      then Some (String.string_of_list_byte (take n rest), drop n rest)
      else None
  end.

Definition read_hash256 (k : Buffer) : option (Buffer * Buffer) :=
  if decide (32 <= length k)%nat then Some (take 32 k, drop 32 k) else None.

Definition read_uint32 (k : Buffer) : option (Z * Buffer) :=
  match k with
  | a :: b :: c :: d :: rest =>
      Some (Z.of_N (((Byte.to_N a * 256 + Byte.to_N b) * 256
                     + Byte.to_N c) * 256 + Byte.to_N d), rest)
  | _ => None
  end.

(** Bounds used by [min] and [max] for the fields left out. *)
Definition hash256_min : Buffer := repeat Byte.x00 32.
Definition hash256_max : Buffer := repeat Byte.xff 32.
Definition uint32_min : Z := 0.
Definition uint32_max : Z := 4294967295.

(** [bdb.key(id)]: a key with no fields is its tag byte. *)
Definition encode0 (id : byte) : Buffer := [id].

(** [bdb.key(id, ['ascii']).encode(name)] *)
Definition encode1 (id : byte) (name : string) : option Buffer :=
  n ← write_ascii name; Some (id :: n).

(** [bdb.key(id, ['ascii', 'hash256', 'uint32']).encode(name, hash, index)] *)
Definition encode3 (id : byte) (name : string) (h : Buffer) (i : Z)
  : option Buffer :=
  n ← write_ascii name;
  hb ← write_hash256 h;
  ib ← write_uint32 i;
  Some (id :: n ++ hb ++ ib).

(** [.min(name)] and [.max(name)]: the missing fields are filled with
    their smallest and largest values. *)
Definition min3 (id : byte) (name : string) : option Buffer :=
  encode3 id name hash256_min uint32_min.
Definition max3 (id : byte) (name : string) : option Buffer :=
  encode3 id name hash256_max uint32_max.

(** [.decode(key)]: checks the tag, then reads the fields in order. *)
Definition decode3 (id : byte) (k : Buffer) : option (string * Buffer * Z) :=
  match k with
  | [] => None
  | t :: k1 =>
      if decide (t = id) then
        '(name, k2) ← read_ascii k1;
        '(h, k3) ← read_hash256 k2;
        '(i, _) ← read_uint32 k3;
        Some (name, h, i)
      else None
  end.

End key.

(** The two indexes kept per name. *)
Inductive kind : Type := BID | REVEAL.

#[global] Instance kind_eq_dec : EqDecision kind.
Proof. solve_decision. Defined.

Module layout.

(** [T: bdb.key('T')] *)
Definition T_id : byte := Byte.x54.
(** [B: bdb.key('B', ['ascii', 'hash256', 'uint32'])] *)
Definition B_id : byte := Byte.x42.
(** [b: bdb.key('b', ['ascii'])] *)
Definition b_id : byte := Byte.x62.
(** [R: bdb.key('R', ['ascii', 'hash256', 'uint32'])] *)
Definition R_id : byte := Byte.x52.
(** [r: bdb.key('r', ['ascii'])] *)
Definition r_id : byte := Byte.x72.

(** The tag of the membership keys ([B] or [R]) and of the counter
    ([b] or [r]) of an index. *)
Definition member_id (k : kind) : byte :=
  match k with BID => B_id | REVEAL => R_id end.
Definition count_id (k : kind) : byte :=
  match k with BID => b_id | REVEAL => r_id end.

Definition T : Buffer := key.encode0 T_id.
Definition count (k : kind) (name : string) : option Buffer :=
  key.encode1 (count_id k) name.
Definition member (k : kind) (name : string) (o : Outpoint) : option Buffer :=
  key.encode3 (member_id k) name (hash o) (index o).
Definition member_min (k : kind) (name : string) : option Buffer :=
  key.min3 (member_id k) name.
Definition member_max (k : kind) (name : string) : option Buffer :=
  key.max3 (member_id k) name.
Definition member_decode (k : kind) (raw : Buffer)
  : option (string * Buffer * Z) :=
  key.decode3 (member_id k) raw.

End layout.

(** ** The store: bdb, as far as the index uses it *)

Abbreviation Store := (gmap (list Byte.byte) (list Byte.byte)).

Inductive batch_op : Type :=
  | Put (k v : Buffer)
  | Del (k : Buffer).

Definition apply_op (s : Store) (o : batch_op) : Store :=
  match o with
  | Put k v => <[k := v]> s
  | Del k => delete k s
  end.

(** [batch.write()] that succeeds: every buffered operation, in order. *)
Definition apply_batch (ops : list batch_op) (s : Store) : Store :=
  fold_left apply_op ops s.

Definition in_range (gte lte k : Buffer) : Prop := key_le gte k /\ key_le k lte.

#[global] Instance in_range_dec gte lte k : Decision (in_range gte lte k).
Proof. unfold in_range. apply _. Defined.

(** [db.keys({gte, lte})]: the stored keys between the bounds, in key
    order. *)
Definition keys (gte lte : Buffer) (s : Store) : list Buffer :=
  merge_sort key_le (filter (in_range gte lte) (elements (dom s))).

(** A write that reached the store: a single [db.put] or a whole batch. *)
Inductive write : Type :=
  | WPut (k v : Buffer)
  | WBatch (ops : list batch_op).

(** ** [class AuctionDB] *)

(** [db] is the store, [batch] is [this.batch]; [journal] is a history of
    the writes that reached the store, oldest first.  No function reads
    the journal. *)
Record AuctionDB : Type := mkAuctionDB {
  db : Store;
  batch : option (list batch_op);
  journal : list write
}.

(** [new AuctionDB({memory: true})] after [open()]. *)
Definition fresh : AuctionDB :=
  {| db := ∅; batch := None; journal := [] |}.

(** A key the compiler refuses is a fault of the calling function. *)
Definition encoded {S} (k : option Buffer) : M S Buffer :=
  match k with
  | Some b => ret b
  | None => throw KeyError
  end.

Definition start : M AuctionDB unit := fun st =>
  match batch st with
  | None => (Ret tt, {| db := db st; batch := Some []; journal := journal st |})
  | Some _ => (Throw AssertionError, st)
  end.

Definition put (k v : Buffer) : M AuctionDB unit := fun st =>
  match batch st with
  | Some ops =>
      (Ret tt, {| db := db st; batch := Some (ops ++ [Put k v]);
                  journal := journal st |})
  | None => (Throw TypeError, st)
  end.

Definition del (k : Buffer) : M AuctionDB unit := fun st =>
  match batch st with
  | Some ops =>
      (Ret tt, {| db := db st; batch := Some (ops ++ [Del k]);
                  journal := journal st |})
  | None => (Throw TypeError, st)
  end.

(** [commit()]: [io] tells whether the store accepts the write.  A write
    that fails changes nothing in the store; the fault is caught and
    [null] returned.  With no batch open, [this.batch.write()] faults
    inside the [try] as well. *)
Definition commit (io : bool) : M AuctionDB result := fun st =>
  match batch st with
  | Some ops =>
      if io
      then (Ret r_true, {| db := apply_batch ops (db st); batch := None;
                           journal := journal st ++ [WBatch ops] |})
      else (Ret r_null, {| db := db st; batch := None; journal := journal st |})
  | None => (Ret r_null, st)
  end.

Definition getTip (st : AuctionDB) : option Buffer := db st !! layout.T.

(** [putTip(hash)]: one [db.put]; on failure the fault is reported on the
    'error' event and [null] is returned. *)
Definition putTip (io : bool) (h : Buffer) : M AuctionDB (option Buffer) :=
  fun st =>
    if io
    then (Ret (Some h), {| db := <[layout.T := h]> (db st); batch := batch st;
                           journal := journal st ++ [WPut layout.T h] |})
    else (Ret None, st).

(** [(outpoint.index >>> 0) === outpoint.index] *)
Definition is_uint32 (i : Z) : bool := (0 <=? i) && (i <? 4294967296).

(** [getBidCount] / [getRevealCount]: [null] when the counter record is
    absent, the decoded number otherwise. *)
Definition getCount (k : kind) (name : string) : M AuctionDB (option Z) :=
  key ← encoded (layout.count k name);
  raw ← gets (λ st, db st !! key);
  match raw with
  | None => mret None
  | Some r => mret (Some (BN.decode r))
  end.

(** [addBid] / [addReveal] *)
Definition addMember (k : kind) (io : bool) (name : string) (outpoint : Outpoint)
  : M AuctionDB result :=
  assert (is_uint32 (index outpoint));;
  count ← getCount k name;
  let count := match count with None => 0 | Some c => c end in
  let count := count + 1 in
  start;;
  kc ← encoded (layout.count k name);
  put kc (BN.encode count);;
  km ← encoded (layout.member k name outpoint);
  put km [];;
  c ← commit io;
  match c with
  | r_true => mret r_true
  | _ => mret r_null
  end.

(** [removeBid] / [removeReveal] *)
Definition removeMember (k : kind) (io : bool) (name : string)
    (outpoint : Outpoint) : M AuctionDB result :=
  assert (is_uint32 (index outpoint));;
  count ← getCount k name;
  match count with
  | None => mret r_null
  | Some count =>
      let count := count - 1 in
      start;;
      kc ← encoded (layout.count k name);
      put kc (BN.encode count);;
      km ← encoded (layout.member k name outpoint);
      del km;;
      c ← commit io;
      match c with
      | r_true => mret r_true
      | _ => mret r_false
      end
  end.

(** The [parse] callback of [getBids] / [getReveals]. *)
Definition parse (k : kind) (raw : Buffer) : option Outpoint :=
  '(_, h, i) ← layout.member_decode k raw;
  Some {| hash := h; index := i |}.

(** [getBids] / [getReveals]: a range scan between [min(name)] and
    [max(name)]; a key that does not decode is a fault. *)
Definition getMembers (k : kind) (name : string) : M AuctionDB (list Outpoint) :=
  gte ← encoded (layout.member_min k name);
  lte ← encoded (layout.member_max k name);
  ks ← gets (λ st, keys gte lte (db st));
  match mapM (parse k) ks with
  | Some outpoints => mret outpoints
  | None => throw KeyError
  end.

(** [hasBid] / [hasReveal] *)
Definition hasMember (k : kind) (name : string) (outpoint : Outpoint)
  : M AuctionDB bool :=
  assert (is_uint32 (index outpoint));;
  key ← encoded (layout.member k name outpoint);
  gets (λ st, bool_decide (is_Some (db st !! key))).

Definition getBidCount := getCount BID.
Definition getRevealCount := getCount REVEAL.
Definition addBid := addMember BID.
Definition addReveal := addMember REVEAL.
Definition removeBid := removeMember BID.
Definition removeReveal := removeMember REVEAL.
Definition getBids := getMembers BID.
Definition getReveals := getMembers REVEAL.
Definition hasBid := hasMember BID.
Definition hasReveal := hasMember REVEAL.

(** *** Sequences of calls on one database *)

Inductive call : Type :=
  | CallAdd (k : kind) (io : bool) (name : string) (outpoint : Outpoint)
  | CallRemove (k : kind) (io : bool) (name : string) (outpoint : Outpoint)
  | CallPutTip (io : bool) (h : Buffer).

(** One call: whether it returned [true] (for [putTip]: the hash), and
    the database after it. *)
Definition step (c : call) (st : AuctionDB) : bool * AuctionDB :=
  match c with
  | CallAdd k io name o =>
      let '(r, st') := addMember k io name o st in
      (match r with Ret r_true => true | _ => false end, st')
  | CallRemove k io name o =>
      let '(r, st') := removeMember k io name o st in
      (match r with Ret r_true => true | _ => false end, st')
  | CallPutTip io h =>
      let '(r, st') := putTip io h st in
      (match r with Ret (Some _) => true | _ => false end, st')
  end.

Fixpoint run (cs : list call) (st : AuctionDB) : AuctionDB :=
  match cs with
  | [] => st
  | c :: cs' => run cs' (snd (step c st))
  end.

(** Every call of the sequence returned [true]. *)
Fixpoint all_succeed (cs : list call) (st : AuctionDB) : bool :=
  match cs with
  | [] => true
  | c :: cs' => fst (step c st) && all_succeed cs' (snd (step c st))
  end.

(** The value of a read, when it returns. *)
Definition value_of {A} (r : outcome A * AuctionDB) : option A :=
  match r with
  | (Ret a, _) => Some a
  | (Throw _, _) => None
  end.

(** A call keeps to the membership: an add of an outpoint that is not a
    member yet, a remove of one that is. *)
Definition in_discipline (c : call) (st : AuctionDB) : bool :=
  match c with
  | CallAdd k _ name o =>
      bool_decide (value_of (hasMember k name o st) = Some false)
  | CallRemove k _ name o =>
      bool_decide (value_of (hasMember k name o st) = Some true)
  | CallPutTip _ _ => true
  end.

Fixpoint disciplined (cs : list call) (st : AuctionDB) : bool :=
  match cs with
  | [] => true
  | c :: cs' => in_discipline c st && disciplined cs' (snd (step c st))
  end.

(** The counter of a name, an absent record read as zero, and the number
    of its membership records. *)
Definition count_or_zero (k : kind) (name : string) (st : AuctionDB) : option Z :=
  match value_of (getCount k name st) with
  | Some (Some c) => Some c
  | Some None => Some 0
  | None => None
  end.

Definition members_length (k : kind) (name : string) (st : AuctionDB) : option Z :=
  match value_of (getMembers k name st) with
  | Some l => Some (Z.of_nat (length l))
  | None => None
  end.

(** ** JavaScript values, as far as the options object needs them *)

Inductive jsval : Type :=
  | JUndefined
  | JNull
  | JBool (b : bool)
  | JNum (n : Z)
  | JStr (s : string)
  | JBuf (b : Buffer)
  | JObj (props : jsprops)
with jsprops : Type :=
  | PNil
  | PCons (p : string) (v : jsval) (rest : jsprops).

(** An object under construction: the properties assigned so far. *)
Abbreviation object := (gmap string jsval).

Definition typeof (v : jsval) : string :=
  match v with
  | JUndefined => "undefined"
  | JNull => "object"
  | JBool _ => "boolean"
  | JNum _ => "number"
  | JStr _ => "string"
  | JBuf _ => "object"
  | JObj _ => "object"
  end.

Definition truthy (v : jsval) : bool :=
  match v with
  | JUndefined | JNull => false
  | JBool b => b
  | JNum n => negb (n =? 0)
  | JStr s => negb (String.eqb s "")
  | JBuf _ | JObj _ => true
  end.

(** [v != null] *)
Definition not_nullish (v : jsval) : bool :=
  match v with
  | JUndefined | JNull => false
  | _ => true
  end.

(** The first property named [p] among the properties of an object
    literal. *)
Fixpoint assoc (p : string) (props : jsprops) : jsval :=
  match props with
  | PNil => JUndefined
  | PCons q v props' => if String.eqb p q then v else assoc p props'
  end.

(** [o.p]: a property that was never assigned reads as [undefined];
    reading a property of [undefined] or [null] is a TypeError. *)
Definition prop (o : jsval) (p : string) : outcome jsval :=
  match o with
  | JUndefined | JNull => Throw TypeError
  | JObj props => Ret (assoc p props)
  | JStr s =>
      Ret (if String.eqb p "length" then JNum (Z.of_nat (String.length s))
           else JUndefined)
  | _ => Ret JUndefined
  end.

(** [this.p] *)
Definition field (this : object) (p : string) : jsval :=
  match this !! p with
  | Some v => v
  | None => JUndefined
  end.

Fixpoint decimal (s : string) (acc : Z) : option Z :=
  match s with
  | EmptyString => Some acc
  | String c s' =>
      let d := Z.of_N (Ascii.N_of_ascii c) - 48 in
      if (0 <=? d) && (d <=? 9) then decimal s' (10 * acc + d) else None
  end.

(** [ToNumber], [None] standing for NaN.  Of the strings only those made
    of decimal digits are given their number. *)
Definition to_number (v : jsval) : option Z :=
  match v with
  | JUndefined => None
  | JNull => Some 0
  | JBool b => Some (if b then 1 else 0)
  | JNum n => Some n
  | JStr s => decimal s 0
  | JBuf _ | JObj _ => None
  end.

(** [value >= x] for a number [value]: false whenever [x] converts to
    NaN, as [undefined] does. *)
Definition js_ge (value : Z) (x : jsval) : bool :=
  match to_number x with
  | Some n => n <=? value
  | None => false
  end.

(** ** [class HTTPOptions] *)

(** What the constructor takes from its surroundings. *)
Record Env : Type := mkEnv {
  Network_primary : jsval;              (* Network.primary *)
  random_key : string;                  (* base58.encode(random.randomBytes(20)) *)
  sha256_digest : Buffer -> Buffer;     (* sha256.digest *)
  path_join : string -> string -> string
}.

Definition set (p : string) (v : jsval) : M object unit :=
  modify (λ this : object, <[p := v]> this).

Definition when_ {S} (c : bool) (m : M S unit) : M S unit :=
  if c then m else mret tt.

Definition ascii_buffer (s : string) : Buffer := String.list_byte_of_string s.

Definition is_safe_integer (v : jsval) : bool :=
  match v with
  | JNum n => (-9007199254740991 <=? n) && (n <=? 9007199254740991)
  | _ => false
  end.

Definition is_port (v : jsval) : bool :=
  match v with
  | JNum n => Z.land n 65535 =? n
  | _ => false
  end.

Definition has_type (v : jsval) (t : string) : bool := String.eqb (typeof v) t.

(** A property of the caller's options object. *)
Definition opt (options : jsval) (p : string) : M object jsval :=
  lift (λ _, prop options p).

(** [fromOptions(options)] *)
Definition fromOptions (env : Env) (options : jsval) : M object unit :=
  assert (truthy options);;
  node ← opt options "node";
  assert (truthy node && has_type node "object");;
  adb ← opt options "adb";
  assert (truthy adb && has_type adb "object");;
  set "node" node;;
  set "adb" adb;;
  network ← lift (λ _, prop node "network");
  set "network" network;;
  nlogger ← lift (λ _, prop node "logger");
  set "logger" nlogger;;
  rpcPort ← lift (λ _, prop network "rpcPort");
  set "port" rpcPort;;
  logger ← opt options "logger";
  when_ (not_nullish logger)
    (assert (has_type logger "object");; set "logger" logger);;
  apiKey ← opt options "apiKey";
  when_ (not_nullish apiKey)
    (assert (has_type apiKey "string");;
     len ← lift (λ _, prop apiKey "length");
     assert (js_ge 255 len);;
     set "apiKey" apiKey;;
     set "apiHash"
       (JBuf (sha256_digest env
                (match apiKey with JStr s => ascii_buffer s | _ => [] end))));;
  noAuth ← opt options "noAuth";
  when_ (not_nullish noAuth)
    (assert (has_type noAuth "boolean");; set "noAuth" noAuth);;
  cors ← opt options "cors";
  when_ (not_nullish cors)
    (assert (has_type cors "boolean");; set "cors" cors);;
  prefix ← opt options "prefix";
  when_ (not_nullish prefix)
    (assert (has_type prefix "string");;
     set "prefix" prefix;;
     let dir := match prefix with JStr s => s | _ => "" end in
     set "keyFile" (JStr (path_join env dir "key.pem"));;
     set "certFile" (JStr (path_join env dir "cert.pem")));;
  host ← opt options "host";
  when_ (not_nullish host)
    (assert (has_type host "string");; set "host" host);;
  port ← opt options "port";
  when_ (not_nullish port)
    (assert (is_port port);; set "port" port);;
  ssl ← opt options "ssl";
  when_ (not_nullish ssl)
    (assert (has_type ssl "boolean");; set "ssl" ssl);;
  keyFile ← opt options "keyFile";
  when_ (not_nullish keyFile)
    (assert (has_type keyFile "string");; set "keyFile" keyFile);;
  certFile ← opt options "certFile";
  when_ (not_nullish certFile)
    (assert (has_type certFile "string");; set "certFile" certFile);;
  maxTxs ← opt options "maxTxs";
  when_ (not_nullish maxTxs)
    (assert (is_safe_integer maxTxs);; set "maxTxs" maxTxs);;
  when_ (negb (truthy apiKey))
    (h ← gets (λ this : object, field this "host");
     when_ (match h with
            | JStr s => String.eqb s "127.0.0.1" || String.eqb s "::1"
            | _ => false
            end)
       (set "noAuth" (JBool true))).

(** [new HTTPOptions(options)] *)
Definition HTTPOptions (env : Env) (options : jsval) : M object unit :=
  set "network" (Network_primary env);;
  set "logger" JNull;;
  set "node" JNull;;
  set "adb" JNull;;
  set "apiKey" (JStr (random_key env));;
  set "apiHash" (JBuf (sha256_digest env (ascii_buffer (random_key env))));;
  set "noAuth" (JBool false);;
  set "cors" (JBool false);;
  set "maxTxs" (JNum 100);;
  set "prefix" JNull;;
  set "host" (JStr "127.0.0.1");;
  set "port" (JNum 8080);;
  set "ssl" (JBool false);;
  set "keyFile" JNull;;
  set "certFile" JNull;;
  fromOptions env options.

(** The instance [new HTTPOptions(options)] leaves behind, when the
    constructor returns. *)
Definition new_HTTPOptions (env : Env) (options : jsval) : outcome object :=
  match HTTPOptions env options ∅ with
  | (Ret _, this) => Ret this
  | (Throw e, _) => Throw e
  end.

(** ** The chain, as the classifier reads it *)

Module types.
(** [rules.types] of the host chain. *)
Inductive t : Type :=
  | NONE | CLAIM | OPEN | BID | REVEAL | REDEEM
  | REGISTER | UPDATE | RENEW | TRANSFER | FINALIZE | REVOKE.
End types.

Record Covenant : Type := mkCovenant {
  type : types.t;
  nameHash : Buffer                (* covenant.getHash(0) *)
}.

Record Output : Type := mkOutput { covenant : Covenant; value : Z }.
Record TX : Type := mkTX { tx_hash : Buffer; outputs : list Output }.
Record Block : Type := mkBlock { block_hash : Buffer; txs : list TX }.

(** [node.chain.db]: [getNameState] gives the name of a name state,
    [getCoin] the value of an unspent coin; [None] is absent. *)
Record ChainDB : Type := mkChainDB {
  getNameState : Buffer -> option string;
  getCoin : Buffer -> Z -> option Z
}.

(** ** [class HTTP] *)

Inductive payload : Type :=
  | OutputEvent (name : option string) (outpoint : Outpoint) (value : Z)
  | StatsEvent (count opens bids reveals : Z).

(** What the server does that can be seen from outside, oldest first. *)
Inductive effect : Type :=
  | Emitted (event : string) (data : payload)       (* this.emit(event, data) *)
  | Delivered (socket : nat) (event : string) (data : payload)
                                                    (* socket.fire(event, data) *)
  | Logged (msg : string).                          (* this.logger.error(msg) *)

Record HTTP : Type := mkHTTP {
  options : object;                     (* this.options *)
  adb : AuctionDB;                      (* this.adb *)
  channels : gmap string (list nat);    (* the sockets joined to each channel *)
  disk : list bool;                     (* whether the coming store writes succeed *)
  trace : list effect
}.

Definition with_trace (f : list effect -> list effect) (h : HTTP) : HTTP :=
  {| options := options h; adb := adb h; channels := channels h;
     disk := disk h; trace := f (trace h) |}.

Definition with_channels (f : gmap string (list nat) -> gmap string (list nat))
    (h : HTTP) : HTTP :=
  {| options := options h; adb := adb h; channels := f (channels h);
     disk := disk h; trace := trace h |}.

Definition tell (e : list effect) : M HTTP unit :=
  modify (with_trace (λ t, t ++ e)).

Definition logger_error (msg : string) : M HTTP unit := tell [Logged msg].

(** The outcome of the next store write; a disk with nothing said about
    it accepts every write. *)
Definition next_io : M HTTP bool := fun h =>
  match disk h with
  | [] => (Ret true, h)
  | io :: rest =>
      (Ret io, {| options := options h; adb := adb h; channels := channels h;
                  disk := rest; trace := trace h |})
  end.

(** A call on [this.adb]. *)
Definition on_adb {A} (m : M AuctionDB A) : M HTTP A := fun h =>
  let '(r, st) := m (adb h) in
  (r, {| options := options h; adb := st; channels := channels h;
         disk := disk h; trace := trace h |}).

(** bweb: [socket.join(name)], [socket.leave(name)], [this.channel(name)]
    and [this.to(name, event, data)]. *)
Definition join (socket : nat) (name : string) : M HTTP unit :=
  modify (with_channels (λ cs,
    let l := default [] (cs !! name) in
    if decide (socket ∈ l) then cs else <[name := l ++ [socket]]> cs)).

Definition leave (socket : nat) (name : string) : M HTTP unit :=
  modify (with_channels (λ cs,
    match cs !! name with
    | None => cs
    | Some l =>
        let l' := filter (λ s, s ≠ socket) l in
        match l' with
        | [] => delete name cs
        | _ => <[name := l']> cs
        end
    end)).

Definition channel (name : string) : M HTTP (option (list nat)) :=
  gets (λ h, channels h !! name).

Definition to (name : string) (event : string) (data : payload) : M HTTP unit :=
  sockets ← channel name;
  match sockets with
  | None => mret tt
  | Some l => tell (fmap (λ s, Delivered s event data) l)
  end.

(** The hooks of an authenticated socket. *)
Definition watch_auction_notify (socket : nat) : M HTTP unit :=
  join socket "auction-notify".
Definition unwatch_auction_notify (socket : nat) : M HTTP unit :=
  leave socket "auction-notify".

(** [initSockets]: the events that have a listener forwarding them. *)
Definition events : list string :=
  ["bid"; "reveal"; "register"; "bid burned"; "open"; "big spend"].

(** The listener [initSockets] binds to each of [events]. *)
Definition forward (event : string) (data : payload) : M HTTP unit :=
  sockets ← channel "auction-notify";
  match sockets with
  | None => mret tt
  | Some _ => to "auction-notify" event data
  end.

(** [this.emit(event, data)]: the listeners bound to [event] run before
    [emit] returns. *)
Definition emit (event : string) (data : payload) : M HTTP unit :=
  tell [Emitted event data];;
  when_ (bool_decide (event ∈ events)) (forward event data).

(** The names bound where the 'connect' handler runs: those of the
    module and of its wrapper, then the handler's own.  The host defines
    no global named [adb]. *)
Definition bound_names : list string :=
  ["exports"; "require"; "module"; "__filename"; "__dirname";
   "assert"; "path"; "Server"; "Validator"; "base58"; "random"; "sha256";
   "Network"; "safeEqual"; "HTTP"; "HTTPOptions"; "enforce"; "outpointToJSON";
   "entry"; "block"; "view"; "stats"; "tx"; "txid"; "i"; "output";
   "covenant"; "value"; "outpoint"; "nameHash"; "ns"; "name";
   "bidCount"; "revealCount"].

(** Evaluating a bare identifier. *)
Definition resolve (id : string) : M HTTP unit :=
  if bool_decide (id ∈ bound_names) then mret tt else throw (ReferenceError id).

(** The loop over [bids] of the REGISTER branch. *)
Definition burnLoop (chain : ChainDB) (name : string) (value : Z)
    (bids : list Outpoint) : M HTTP unit :=
  forM_ (λ bid : Outpoint,
           match getCoin chain (hash bid) (index bid) with
           | None => mret tt                                (* continue *)
           | Some _ =>
               emit "bid burned"
                 (OutputEvent (Some name)
                    {| hash := hash bid; index := index bid |} value)
           end) bids.

(** [for (const [i, output] of tx.outputs.entries())] *)
Fixpoint for_entries {St A} (body : nat -> A -> M St unit) (i : nat)
    (l : list A) : M St unit :=
  match l with
  | [] => mret tt
  | x :: l' => body i x ;; for_entries body (S i) l'
  end.

(** The body of the loop over the outputs of a transaction. *)
Definition classify (chain : ChainDB) (txid : Buffer) (i : nat) (output : Output)
  : M HTTP unit :=
  let covenant := covenant output in
  let value := value output in
  let outpoint := {| hash := txid; index := Z.of_nat i |} in
  match type covenant with
  | types.NONE =>
      bigSpendValue ← gets (λ h, field (options h) "bigSpendValue");
      when_ (js_ge value bigSpendValue)
        (emit "big spend" (OutputEvent None outpoint value))
  | t =>
      match getNameState chain (nameHash covenant) with
      | None => logger_error "Expected namestate."
      | Some name =>
          match t with
          | types.BID =>
              io ← next_io;
              indexed ← on_adb (addBid io name outpoint);
              when_ (match indexed with r_true => false | _ => true end)
                (logger_error "Problem indexing bid.");;
              emit "bid" (OutputEvent (Some name) outpoint value)
          | types.REVEAL =>
              io ← next_io;
              indexed ← on_adb (addReveal io name outpoint);
              when_ (match indexed with r_true => false | _ => true end)
                (logger_error "Problem indexing reveal.");;
              emit "reveal" (OutputEvent (Some name) outpoint value)
          | types.REGISTER =>
              bidCount ← on_adb (getBidCount name);
              revealCount ← on_adb (getRevealCount name);
              emit "register" (OutputEvent (Some name) outpoint value);;
              match bidCount, revealCount with
              | Some bidCount, Some revealCount =>
                  if bidCount =? revealCount then mret tt
                  else if revealCount >? bidCount then
                    logger_error "Invalid database state: more reveals than bids."
                  else
                    resolve "adb";;
                    bids ← on_adb (getBids name);
                    burnLoop chain name value bids
              | _, _ => throw TypeError     (* a method call on, or with, null *)
              end
          | types.REVOKE =>
              emit "revoke" (OutputEvent (Some name) outpoint value)
          | _ => mret tt
          end
      end
  end.

(** The listener of the chain's 'connect' event. *)
Definition connect (chain : ChainDB) (block : Block) : M HTTP unit :=
  io ← next_io;
  on_adb (putTip io (block_hash block));;
  forM_ (λ tx : TX, for_entries (classify chain (tx_hash tx)) 0 (outputs tx))
    (txs block);;
  emit "block stats" (StatsEvent 0 0 0 0).

(** [new HTTP(options)], over a database [adb]. *)
Definition new_HTTP (env : Env) (user_options : jsval) (adb : AuctionDB)
  : outcome HTTP :=
  match new_HTTPOptions env user_options with
  | Ret this_options =>
      Ret {| options := this_options; adb := adb; channels := ∅;
             disk := []; trace := [] |}
  | Throw e => Throw e
  end.

(** *** Reading a trace *)

(** The payloads emitted under the name [event], oldest first. *)
Definition emissions (event : string) (t : list effect) : list payload :=
  omap (λ e, match e with
             | Emitted ev data => if String.eqb ev event then Some data else None
             | _ => None
             end) t.

(** What was fired on [socket], oldest first. *)
Definition deliveries (socket : nat) (t : list effect) : list (string * payload) :=
  omap (λ e, match e with
             | Delivered s ev data =>
                 if decide (s = socket) then Some (ev, data) else None
             | _ => None
             end) t.

(** The sockets joined to the channel of the plugin. *)
Definition subscribers (h : HTTP) : list nat :=
  default [] (channels h !! "auction-notify").

(** The state a computation ends in and the trace it adds. *)
Definition exec {A} (m : M HTTP A) (h : HTTP) : HTTP := snd (m h).
Definition added {A} (m : M HTTP A) (h : HTTP) : list effect :=
  drop (length (trace h)) (trace (exec m h)).

(** *** Invariants of the store *)

(** The counter stored under [kc], an absent record read as zero. *)
Definition stored_count (kc : Buffer) (s : Store) : Z :=
  match s !! kc with
  | Some raw => BN.decode raw
  | None => 0
  end.

(** Every counter equals the number of membership keys of its name. *)
Definition counted (s : Store) : Prop :=
  ∀ k name kc lo hi,
    layout.count k name = Some kc →
    layout.member_min k name = Some lo → layout.member_max k name = Some hi →
    stored_count kc s = Z.of_nat (length (keys lo hi s)).

(** Every membership key of the store was written by an add of the
    sequence [cs], under the kind, name and outpoint it encodes. *)
Definition provenance (cs : list call) (s : Store) : Prop :=
  ∀ key, is_Some (s !! key) →
    key = layout.T
    ∨ (∃ k name, layout.count k name = Some key)
    ∨ (∃ k name o io, layout.member k name o = Some key
                      ∧ CallAdd k io name o ∈ cs).

(** What one [emit] adds to the trace of [h]. *)
Definition fanout (event : string) (data : payload) (h : HTTP) : list effect :=
  Emitted event data ::
  (if bool_decide (event ∈ events)
   then fmap (λ s, Delivered s event data) (subscribers h)
   else []).

(** [m] only ever appends to the history [proj], and what it appends
    satisfies [P]. *)
Definition appends {St X A} (proj : St -> list X) (P : X -> Prop) (m : M St A)
  : Prop :=
  ∀ s, ∃ t, proj (snd (m s)) = proj s ++ t ∧ Forall P t.

Definition adb_journal (h : HTTP) : list write := journal (adb h).

Definition is_batch (w : write) : Prop :=
  match w with
  | WBatch _ => True
  | WPut _ _ => False
  end.

(** No emission of 'bid burned'. *)
Definition not_burn (e : effect) : Prop :=
  match e with
  | Emitted ev _ => ev ≠ "bid burned"
  | _ => True
  end.

(** Only events with a forwarding listener are fired on sockets. *)
Definition fired_is_forwarded (e : effect) : Prop :=
  match e with
  | Delivered _ ev _ => ev ∈ events
  | _ => True
  end.

(** The specification's order of writes: a batch is never written after
    the tip. *)
Definition tip_after_mutations (ws : list write) : Prop :=
  ∀ pre post h, ws = pre ++ WPut layout.T h :: post → Forall (λ w, ¬ is_batch w) post.

(** What the loop over [bids] adds to the trace of [h]. *)
Definition burn_effects (chain : ChainDB) (name : string) (value : Z)
    (bids : list Outpoint) (h : HTTP) : list effect :=
  concat (fmap (λ bid : Outpoint,
                 match getCoin chain (hash bid) (index bid) with
                 | None => []
                 | Some _ => fanout "bid burned" (OutputEvent (Some name) bid value) h
                 end) bids).

(** The coin of an outpoint is in the coin set. *)
Definition coin_present (chain : ChainDB) (o : Outpoint) : Prop :=
  is_Some (getCoin chain (hash o) (index o)).

#[global] Instance coin_present_dec chain o : Decision (coin_present chain o).
Proof. unfold coin_present. apply _. Defined.

(** [m] keeps a property of the state, however it ends. *)
Definition preserves {St A} (Q : St -> Prop) (m : M St A) : Prop :=
  ∀ s, Q s → Q (snd (m s)).

(** The options object has no property [bigSpendValue]. *)
Definition no_threshold (this : object) : Prop := this !! "bigSpendValue" = None.

(** ** Sample inputs *)

Module sample.

Definition H1 : Buffer := repeat Byte.x11 32.
Definition H2 : Buffer := repeat Byte.x22 32.
Definition H3 : Buffer := repeat Byte.x33 32.
Definition NH : Buffer := repeat Byte.xaa 32.

Definition o1 : Outpoint := {| hash := H1; index := 0 |}.
Definition o2 : Outpoint := {| hash := H2; index := 0 |}.
Definition o3 : Outpoint := {| hash := H3; index := 1 |}.

Definition env : Env :=
  {| Network_primary := JObj PNil; random_key := "k";
     sha256_digest := λ b, b; path_join := λ a b, a +:+ "/" +:+ b |}.

Definition node : jsval :=
  JObj (PCons "network" (JObj (PCons "rpcPort" (JNum 12037) PNil))
       (PCons "logger" (JObj PNil) PNil)).

(** The options the plugin passes, and the same with a threshold added
    by hand. *)
Definition plugin_options : jsval :=
  JObj (PCons "node" node (PCons "adb" (JObj PNil) PNil)).
Definition threshold_options : jsval :=
  JObj (PCons "node" node (PCons "adb" (JObj PNil)
       (PCons "bigSpendValue" (JNum 5) PNil))).

(** A server over [adb] with socket 1 watching. *)
Definition server (user_options : jsval) (adb : AuctionDB) : HTTP :=
  match new_HTTP env user_options adb with
  | Ret h => snd (watch_auction_notify 1%nat h)
  | Throw _ => {| options := ∅; adb := adb; channels := ∅; disk := []; trace := [] |}
  end.

(** Every name hash resolves to "foo"; only the coin of [o1] is in the
    coin set. *)
Definition chain : ChainDB :=
  {| getNameState := λ _, Some "foo";
     getCoin := λ h _, if decide (h = H1) then Some 1000 else None |}.

(** "foo" with two bids, [o1] and [o2], and one reveal. *)
Definition two_bids_one_reveal : AuctionDB :=
  run [CallAdd BID true "foo" o1; CallAdd BID true "foo" o2;
       CallAdd REVEAL true "foo" o3] fresh.

Definition block_of (outs : list Output) : Block :=
  {| block_hash := H3; txs := [{| tx_hash := H3; outputs := outs |}] |}.

Definition register_block : Block :=
  block_of [{| covenant := {| type := types.REGISTER; nameHash := NH |};
               value := 7 |}].
Definition bid_block : Block :=
  block_of [{| covenant := {| type := types.BID; nameHash := NH |};
               value := 7 |}].
Definition revoke_block : Block :=
  block_of [{| covenant := {| type := types.REVOKE; nameHash := NH |};
               value := 0 |}].
Definition spend : Output :=
  {| covenant := {| type := types.NONE; nameHash := [] |};
     value := 1000000000 |}.

End sample.

(** ** [wipe()] *)

(** [this.db.iterator()] with no bounds: every key, in key order. *)
Definition all_keys (s : Store) : list Buffer :=
  merge_sort key_le (elements (dom s)).

(** The [switch (key[0])] of [wipe()]: the tags [B], [b], [R] and [r]. *)
Definition is_index_key (key : Buffer) : bool :=
  match key with
  | [] => false
  | t :: _ =>
      bool_decide (t = Byte.x42 ∨ t = Byte.x62 ∨ t = Byte.x52 ∨ t = Byte.x72)
  end.

(** The deletions [wipe()] buffers in its own batch [b]. *)
Definition wipe_batch (s : Store) : list batch_op :=
  Del <$> filter (λ key, is_index_key key = true) (all_keys s).

(** [total], the number of records [wipe()] logs as wiped. *)
Definition wipe_total (st : AuctionDB) : nat := length (wipe_batch (db st)).

(** [wipe()]: the batch is one of its own, not [this.batch]; the result
    is that of [b.write()], [true] when the write resolves and [false]
    when the store rejects it. *)
Definition wipe (io : bool) (st : AuctionDB) : bool * AuctionDB :=
  let b := wipe_batch (db st) in
  if io
  then (true, {| db := apply_batch b (db st); batch := batch st;
                 journal := journal st ++ [WBatch b] |})
  else (false, st).

(** The write of a call is refused by the store. *)
Definition write_fails (c : call) : Prop :=
  match c with
  | CallAdd _ io _ _ | CallRemove _ io _ _ | CallPutTip io _ => io = false
  end.

(** The call is an add or a remove on the index [k] of [name]. *)
Definition concerns (c : call) (k : kind) (name : string) : Prop :=
  match c with
  | CallAdd k' _ name' _ | CallRemove k' _ name' _ => k' = k ∧ name' = name
  | CallPutTip _ _ => False
  end.

(** The call is a write of the tip. *)
Definition writes_tip (c : call) : Prop :=
  match c with
  | CallPutTip _ _ => True
  | _ => False
  end.

(** *** The branches of the classifier, by index *)

(** The covenant type whose branch adds to the index [k], the event that
    branch emits and the message it logs when the add did not return
    [true]. *)
Definition kind_covenant (k : kind) : types.t :=
  match k with BID => types.BID | REVEAL => types.REVEAL end.
Definition kind_event (k : kind) : string :=
  match k with BID => "bid" | REVEAL => "reveal" end.
Definition kind_problem (k : kind) : string :=
  match k with
  | BID => "Problem indexing bid."
  | REVEAL => "Problem indexing reveal."
  end.

(** The event names the classifier ends up passing to [this.emit]. *)
Definition classifier_events : list string :=
  ["big spend"; "bid"; "reveal"; "register"; "revoke"].

(** An effect of the classifier: an emission under one of its names, the
    delivery of one that has a forwarding listener, or a log line. *)
Definition from_classifier (e : effect) : Prop :=
  match e with
  | Emitted ev _ => ev ∈ classifier_events
  | Delivered _ ev _ => ev ∈ classifier_events ∧ ev ∈ events
  | Logged _ => True
  end.

(** The emissions of a trace that have a forwarding listener, oldest
    first. *)
Definition forwarded (t : list effect) : list (string * payload) :=
  omap (λ e, match e with
             | Emitted ev data =>
                 if bool_decide (ev ∈ events) then Some (ev, data) else None
             | _ => None
             end) t.

(** [m] leaves the channels alone, and what it adds to the trace reaches
    the socket [s] as the forwarded emissions when [s] is subscribed, and
    not at all when it is not. *)
Definition relays {A} (s : nat) (m : M HTTP A) : Prop :=
  ∀ h, NoDup (subscribers h) →
    channels (snd (m h)) = channels h ∧
    ∃ t, trace (snd (m h)) = trace h ++ t ∧
         deliveries s t
         = if bool_decide (s ∈ subscribers h) then forwarded t else [].

(** *** The options object, read back *)

(** The instance as the assignments of the constructor leave it, when
    [fromOptions] is entered. *)
Definition defaults (env : Env) : object :=
  <["certFile" := JNull]> (<["keyFile" := JNull]> (<["ssl" := JBool false]>
  (<["port" := JNum 8080]> (<["host" := JStr "127.0.0.1"]>
  (<["prefix" := JNull]> (<["maxTxs" := JNum 100]> (<["cors" := JBool false]>
  (<["noAuth" := JBool false]>
  (<["apiHash" := JBuf (sha256_digest env (ascii_buffer (random_key env)))]>
  (<["apiKey" := JStr (random_key env)]> (<["adb" := JNull]>
  (<["node" := JNull]> (<["logger" := JNull]>
  (<["network" := Network_primary env]> ∅)))))))))))))).

(** [options.p && typeof options.p === 'object'], for an [options] that
    is there. *)
Definition has_object (options : jsval) (p : string) : bool :=
  match options with
  | JObj props => truthy (assoc p props) && has_type (assoc p props) "object"
  | _ => false
  end.

(** [host === '127.0.0.1' || host === '::1'] *)
Definition is_local (host : jsval) : bool :=
  match host with
  | JStr s => String.eqb s "127.0.0.1" || String.eqb s "::1"
  | _ => false
  end.

(** When [m] returns from a state in [P], it leaves a state in [Q]. *)
Definition hoare {St A} (P : St -> Prop) (m : M St A) (Q : St -> Prop) : Prop :=
  ∀ s, P s → match m s with
             | (Ret _, s') => Q s'
             | (Throw _, _) => True
             end.

(** The instance [new HTTPOptions(options)] gives, the empty object
    standing in when the constructor throws. *)
Definition built (env : Env) (options : jsval) : object :=
  match new_HTTPOptions env options with
  | Ret this => this
  | Throw _ => ∅
  end.

(** The key the instance ends up with: the caller's when one was given,
    the random one of the constructor otherwise. *)
Definition chosen_key (env : Env) (apiKey : jsval) : string :=
  match apiKey with
  | JStr s => s
  | _ => random_key env
  end.

(** ** Sockets and their hooks *)

(** The functions the server binds as hooks: the one of [handleSocket]
    and the two of [handleAuth]. *)
Inductive handler : Type := AuthHook | WatchHook | UnwatchHook.

(** What a call of a hook comes back with. *)
Inductive reply : Type :=
  | Null                          (* the hook returned [null] *)
  | Failed (message : string)     (* the hook threw [new Error(message)] *)
  | Refused                       (* a library called by the hook threw *)
  | NotBound.                     (* the socket has no hook of that name *)

(** The server together with [socket.hooks] of every socket: the
    function bound to each event name. *)
Record Sockets : Type := mkSockets {
  http : HTTP;
  hooks : gmap nat (gmap string handler)
}.

(** The sockets joined to the channel [name]. *)
Definition members (name : string) (h : HTTP) : list nat :=
  default [] (channels h !! name).

(** [socket.channel(name)] *)
Definition socket_channel (socket : nat) (name : string) (h : HTTP) : bool :=
  bool_decide (socket ∈ members name h).

(** [socket.hook(event, handler)]: an event takes one hook; binding a
    second one is refused. *)
Definition hook (socket : nat) (event : string) (f : handler) (io : Sockets)
  : bool * Sockets :=
  let bound := default ∅ (hooks io !! socket) in
  if bool_decide (is_Some (bound !! event)) then (false, io)
  else (true, {| http := http io;
                 hooks := <[socket := <[event := f]> bound]> (hooks io) |}).

(** [new Validator(args).str(0, '')]: the first argument when it is a
    string, the empty string when there is none; anything else is
    refused. *)
Definition str0 (args : list jsval) : option string :=
  match args with
  | [] | JUndefined :: _ | JNull :: _ => Some ""
  | JStr s :: _ => Some s
  | _ => None
  end.

(** The test of the key in the 'auth' hook; [None] lets the socket in. *)
Definition check_key (env : Env) (args : list jsval) (h : HTTP) : option reply :=
  if truthy (field (options h) "noAuth") then None
  else
    match str0 args with
    | None => Some Refused
    | Some key =>
        if (255 <? String.length key)%nat then Some (Failed "Invalid API key.")
        else
          match field (options h) "apiHash" with
          | JBuf apiHash =>
              if bool_decide (sha256_digest env (ascii_buffer key) = apiHash)
              then None
              else Some (Failed "Invalid API key.")
          | _ => Some Refused
          end
    end.

(** [handleAuth(socket)] *)
Definition handleAuth (socket : nat) (io : Sockets) : bool * Sockets :=
  let '(ok, io1) := hook socket "watch auction-notify" WatchHook io in
  if ok then hook socket "unwatch auction-notify" UnwatchHook io1
  else (false, io1).

(** The hook [handleSocket] binds to 'auth'.  The line it writes with
    [logger.info] is not part of the trace. *)
Definition auth_hook (env : Env) (socket : nat) (args : list jsval)
    (io : Sockets) : reply * Sockets :=
  if socket_channel socket "auth" (http io) then (Failed "Already authed.", io)
  else
    match check_key env args (http io) with
    | Some r => (r, io)
    | None =>
        let io1 := {| http := snd (join socket "auth" (http io));
                      hooks := hooks io |} in
        let '(ok, io2) := handleAuth socket io1 in
        (if ok then Null else Refused, io2)
    end.

(** [handleSocket(socket)] *)
Definition handleSocket (socket : nat) (io : Sockets) : bool * Sockets :=
  hook socket "auth" AuthHook io.

(** A call of the hook [event] by the peer of [socket]. *)
Definition call_hook (env : Env) (socket : nat) (event : string)
    (args : list jsval) (io : Sockets) : reply * Sockets :=
  match default ∅ (hooks io !! socket) !! event with
  | None => (NotBound, io)
  | Some AuthHook => auth_hook env socket args io
  | Some WatchHook =>
      (Null, {| http := snd (watch_auction_notify socket (http io));
                hooks := hooks io |})
  | Some UnwatchHook =>
      (Null, {| http := snd (unwatch_auction_notify socket (http io));
                hooks := hooks io |})
  end.

(** What reaches the server from its sockets: a new connection, or a
    call of a hook. *)
Inductive request : Type :=
  | Attach (socket : nat)
  | Invoke (socket : nat) (event : string) (args : list jsval).

Definition serve (env : Env) (r : request) (io : Sockets) : reply * Sockets :=
  match r with
  | Attach socket =>
      let '(ok, io') := handleSocket socket io in
      (if ok then Null else Refused, io')
  | Invoke socket event args => call_hook env socket event args io
  end.

Definition serve_all (env : Env) (rs : list request) (io : Sockets) : Sockets :=
  fold_left (λ io r, snd (serve env r io)) rs io.

(** A server with no socket connected yet. *)
Definition listening (h : HTTP) : Sockets := {| http := h; hooks := ∅ |}.

(** The subscriptions are in order: no socket is subscribed twice, a
    subscribed socket is authenticated, and so is every socket that has
    one of the hooks of [handleAuth]. *)
Definition tidy (io : Sockets) : Prop :=
  NoDup (subscribers (http io)) ∧
  (∀ s, s ∈ subscribers (http io) → s ∈ members "auth" (http io)) ∧
  (∀ s bound event f,
     hooks io !! s = Some bound → bound !! event = Some f →
     f ≠ AuthHook → s ∈ members "auth" (http io)).

(** A property of the store that the writes of an add keep: it holds
    again after the put of a counter and of a membership key. *)
Definition kept_by_adds (Q : Store -> Prop) : Prop :=
  ∀ s k name o kc km v,
    layout.count k name = Some kc → layout.member k name o = Some km →
    Q s → Q (<[km := []]> (<[kc := v]> s)).

(** *** Events and the outputs they tell of *)

(** The event the classifier ends up emitting for a covenant type. *)
Definition announces (t : types.t) : option string :=
  match t with
  | types.NONE => Some "big spend"
  | types.BID => Some "bid"
  | types.REVEAL => Some "reveal"
  | types.REGISTER => Some "register"
  | types.REVOKE => Some "revoke"
  | _ => None
  end.

(** The event [ev] with the payload [d] tells of [output], the output
    number [i] of the transaction [txid]: the name of the event is the
    one of the covenant type, and the payload holds the name of the name
    state (none for an output without covenant), the outpoint and the
    value of the output. *)
Definition tells_of (chain : ChainDB) (txid : Buffer) (i : nat) (output : Output)
    (ev : string) (d : payload) : Prop :=
  announces (type (covenant output)) = Some ev ∧
  d = OutputEvent
        (match type (covenant output) with
         | types.NONE => None
         | _ => getNameState chain (nameHash (covenant output))
         end)
        {| hash := txid; index := Z.of_nat i |} (value output).

Definition from_output (chain : ChainDB) (txid : Buffer) (i : nat)
    (output : Output) (e : effect) : Prop :=
  match e with
  | Emitted ev d | Delivered _ ev d => tells_of chain txid i output ev d
  | Logged _ => True
  end.

(** An effect of handling [block]: the closing statistics, an event or
    a delivery that tells of one of the outputs of the block, or a log
    line. *)
Definition from_block (chain : ChainDB) (block : Block) (e : effect) : Prop :=
  match e with
  | Emitted ev d | Delivered _ ev d =>
      (ev = "block stats" ∧ d = StatsEvent 0 0 0 0)
      ∨ ∃ tx i output,
          tx ∈ txs block ∧ outputs tx !! i = Some output
          ∧ tells_of chain (tx_hash tx) i output ev d
  | Logged _ => True
  end.

(** From a state in [I], [m] returns, and leaves a state in [I]. *)
Definition succeeds {St A} (I : St -> Prop) (m : M St A) : Prop :=
  ∀ s, I s → (∃ a, fst (m s) = Ret a) ∧ I (snd (m s)).

(** No batch of the database is left open. *)
Definition settled (h : HTTP) : Prop := batch (adb h) = None.

(** What the chain hands to the handler for a transaction, as far as the
    database depends on it: a hash of 32 bytes, outputs that can be
    numbered in 32 bits, and names of at most 255 bytes. *)
Definition well_formed (chain : ChainDB) (tx : TX) : Prop :=
  length (tx_hash tx) = 32%nat ∧
  Z.of_nat (length (outputs tx)) <= 4294967296 ∧
  ∀ output name,
    output ∈ outputs tx →
    getNameState chain (nameHash (covenant output)) = Some name →
    (length (String.list_byte_of_string name) <= 255)%nat.

(** * Properties *)

(** ** The monad *)

Lemma bind_run {St A B} (m : M St A) (f : A -> M St B) (s : St) :
  (m ≫= f) s = match m s with
               | (Ret a, s') => f a s'
               | (Throw e, s') => (Throw e, s')
               end.
Proof. reflexivity. Qed.

Lemma throw_bind {St A B} (e : error) (f : A -> M St B) :
  (throw e ≫= f) = throw e.
Proof. reflexivity. Qed.

Lemma with_trace_id (h : HTTP) : with_trace (λ t, t ++ []) h = h.
Proof. destruct h. unfold with_trace. simpl. by rewrite app_nil_r. Qed.

Lemma with_trace_app (a b : list effect) (h : HTTP) :
  with_trace (λ t, t ++ b) (with_trace (λ t, t ++ a) h)
  = with_trace (λ t, t ++ (a ++ b)) h.
Proof. unfold with_trace. simpl. by rewrite app_assoc. Qed.

Lemma added_with_trace {A} (m : M HTTP A) (h : HTTP) (t : list effect) :
  snd (m h) = with_trace (λ t0, t0 ++ t) h → added m h = t.
Proof.
  intros E. unfold added, exec. rewrite E. simpl. by rewrite drop_app_length.
Qed.

Lemma subscribers_with_trace f h : subscribers (with_trace f h) = subscribers h.
Proof. reflexivity. Qed.

(** ** Emission and fan-out *)

Lemma emit_run (event : string) (data : payload) (h : HTTP) :
  emit event data h = (Ret tt, with_trace (λ t, t ++ fanout event data h) h).
Proof.
  unfold emit, fanout, tell, subscribers. rewrite bind_run. simpl.
  unfold when_. destruct (bool_decide (event ∈ events)).
  - unfold forward, to, channel. rewrite bind_run. simpl.
    destruct (channels h !! "auction-notify") as [l|] eqn:E.
    + rewrite bind_run. simpl. rewrite E. simpl. unfold tell, modify.
      rewrite with_trace_app. reflexivity.
    + simpl. reflexivity.
  - reflexivity.
Qed.

Lemma emissions_app ev (a b : list effect) :
  emissions ev (a ++ b) = emissions ev a ++ emissions ev b.
Proof. unfold emissions. apply omap_app. Qed.

Lemma deliveries_app s (a b : list effect) :
  deliveries s (a ++ b) = deliveries s a ++ deliveries s b.
Proof. unfold deliveries. apply omap_app. Qed.

Lemma emissions_delivered ev ev' d (l : list nat) :
  emissions ev (fmap (λ s, Delivered s ev' d) l) = [].
Proof.
  induction l as [|s l IH]; [done|].
  rewrite fmap_cons.
  change (Delivered s ev' d :: ?t) with ([Delivered s ev' d] ++ t).
  by rewrite emissions_app, IH.
Qed.

Lemma emissions_fanout ev ev' d h :
  emissions ev (fanout ev' d h) = if String.eqb ev' ev then [d] else [].
Proof.
  unfold fanout. change (Emitted ev' d :: ?l) with ([Emitted ev' d] ++ l).
  rewrite emissions_app.
  assert (emissions ev (if bool_decide (ev' ∈ events)
                        then fmap (λ s, Delivered s ev' d) (subscribers h)
                        else []) = []) as ->.
  { destruct (bool_decide _); [apply emissions_delivered | done]. }
  rewrite app_nil_r. unfold emissions. simpl. by destruct (String.eqb ev' ev).
Qed.

Lemma deliveries_map s ev d (l : list nat) :
  deliveries s (fmap (λ x, Delivered x ev d) l)
  = fmap (λ _, (ev, d)) (filter (λ x, x = s) l).
Proof.
  induction l as [|x l IH]; [done|].
  rewrite fmap_cons, filter_cons.
  change (Delivered x ev d :: ?t) with ([Delivered x ev d] ++ t).
  rewrite deliveries_app, IH. unfold deliveries at 1. simpl.
  by destruct (decide (x = s)).
Qed.

(** ** Histories that only grow *)

Section Appends.
Context {St X : Type} (proj : St -> list X) (P : X -> Prop).

Lemma appends_silent {A} (m : M St A) :
  (∀ s, proj (snd (m s)) = proj s) → appends proj P m.
Proof. intros H s. exists []. rewrite H, app_nil_r. by split. Qed.

Lemma appends_ret {A} (a : A) : appends proj P (mret a).
Proof. by apply appends_silent. Qed.

Lemma appends_throw {A} (e : error) : appends proj P (throw e : M St A).
Proof. by apply appends_silent. Qed.

Lemma appends_gets {A} (f : St -> A) : appends proj P (gets f).
Proof. by apply appends_silent. Qed.

Lemma appends_lift {A} (f : St -> outcome A) : appends proj P (lift f).
Proof. by apply appends_silent. Qed.

Lemma appends_assert (b : bool) : appends proj P (assert b).
Proof. destruct b; [apply appends_ret | apply appends_throw]. Qed.

Lemma appends_encoded (k : option Buffer) : appends proj P (encoded k).
Proof. destruct k; [apply appends_ret | apply appends_throw]. Qed.

Lemma appends_bind {A B} (m : M St A) (f : A -> M St B) :
  appends proj P m → (∀ a, appends proj P (f a)) → appends proj P (m ≫= f).
Proof.
  intros Hm Hf s. rewrite bind_run.
  destruct (Hm s) as (t1 & E1 & F1).
  destruct (m s) as [[a|e] s1]; simpl in *.
  - destruct (Hf a s1) as (t2 & E2 & F2).
    exists (t1 ++ t2). rewrite E2, E1, app_assoc. split; [done|].
    by apply Forall_app.
  - by exists t1.
Qed.

Lemma appends_when (c : bool) (m : M St unit) :
  appends proj P m → appends proj P (when_ c m).
Proof. destruct c; [done | intros _; apply appends_ret]. Qed.

Lemma appends_forM {A} (body : A -> M St unit) (l : list A) :
  (∀ x, appends proj P (body x)) → appends proj P (forM_ body l).
Proof.
  intros Hb. induction l as [|x l IH]; simpl.
  - apply (appends_ret tt).
  - apply appends_bind; [apply Hb | intros _; exact IH].
Qed.

Lemma appends_for_entries {A} (body : nat -> A -> M St unit) (l : list A) :
  (∀ i x, appends proj P (body i x)) →
  ∀ i, appends proj P (for_entries body i l).
Proof.
  intros Hb. induction l as [|x l IH]; intros i; simpl.
  - apply (appends_ret tt).
  - apply appends_bind; [apply Hb | intros _; apply IH].
Qed.

End Appends.

(** One step of an [appends] proof over a monadic program. *)
Ltac appends_step :=
  first
    [ apply appends_ret
    | apply appends_throw
    | apply appends_gets
    | apply appends_lift
    | apply appends_assert
    | apply appends_encoded
    | apply appends_when
    | apply appends_bind; [| intros ?]
    | match goal with
      | |- appends _ _ (match ?x with _ => _ end) => destruct x
      end ].

(** *** The journal of the database *)

Lemma start_journal P : appends journal P start.
Proof. apply appends_silent. intros s. unfold start. by destruct (batch s). Qed.

Lemma put_journal P k v : appends journal P (put k v).
Proof. apply appends_silent. intros s. unfold put. by destruct (batch s). Qed.

Lemma del_journal P k : appends journal P (del k).
Proof. apply appends_silent. intros s. unfold del. by destruct (batch s). Qed.

Lemma commit_journal io : appends journal is_batch (commit io).
Proof.
  intros s. unfold commit. destruct (batch s) as [ops|].
  - destruct io; simpl.
    + exists [WBatch ops]. split; [done|]. by constructor.
    + exists []. by rewrite app_nil_r.
  - exists []. by rewrite app_nil_r.
Qed.

Lemma getCount_journal P k name : appends journal P (getCount k name).
Proof.
  unfold getCount. repeat appends_step.
Qed.

Lemma addMember_journal k io name o :
  appends journal is_batch (addMember k io name o).
Proof.
  unfold addMember.
  repeat first [ apply getCount_journal | apply start_journal
               | apply put_journal | apply commit_journal | appends_step ].
Qed.

Lemma getMembers_journal P k name : appends journal P (getMembers k name).
Proof.
  unfold getMembers. repeat appends_step.
Qed.

Lemma on_adb_journal {A} P (m : M AuctionDB A) :
  appends journal P m → appends adb_journal P (on_adb m).
Proof.
  intros H h. destruct (H (adb h)) as (t & E & F). exists t. split; [|done].
  unfold on_adb, adb_journal. by destruct (m (adb h)).
Qed.

Lemma on_adb_trace {A} P (m : M AuctionDB A) : appends trace P (on_adb m).
Proof.
  apply appends_silent. intros h. unfold on_adb. by destruct (m (adb h)).
Qed.

Lemma next_io_silent {X} (proj : HTTP -> list X) P :
  (∀ o a c d d' t, proj (mkHTTP o a c d t) = proj (mkHTTP o a c d' t)) →
  appends proj P next_io.
Proof.
  intros H. apply appends_silent. intros [o a c [|io d] t]; simpl; [done|].
  symmetry. apply H.
Qed.

Lemma next_io_trace P : appends trace P next_io.
Proof. by apply next_io_silent. Qed.

Lemma next_io_journal P : appends adb_journal P next_io.
Proof. by apply next_io_silent. Qed.

Lemma tell_trace (P : effect -> Prop) e : Forall P e → appends trace P (tell e).
Proof. intros F h. exists e. by split. Qed.

Lemma tell_journal P e : appends adb_journal P (tell e).
Proof. by apply appends_silent. Qed.

Lemma emit_trace (P : effect -> Prop) ev d :
  P (Emitted ev d) → (ev ∈ events → ∀ s, P (Delivered s ev d)) →
  appends trace P (emit ev d).
Proof.
  intros HE HD h. rewrite emit_run. exists (fanout ev d h). split; [done|].
  unfold fanout. constructor; [done|].
  destruct (bool_decide (ev ∈ events)) eqn:B; [|done].
  apply bool_decide_eq_true in B. apply Forall_map, Forall_forall. auto.
Qed.

Lemma emit_journal P ev d : appends adb_journal P (emit ev d).
Proof. apply appends_silent. intros h. by rewrite emit_run. Qed.

Lemma resolve_adb : resolve "adb" = throw (ReferenceError "adb").
Proof. reflexivity. Qed.

(** ** The classifier *)

Lemma classify_trace (P : effect -> Prop) chain txid i output :
  (∀ ev d, ev ≠ "bid burned" → P (Emitted ev d)) →
  (∀ s ev d, ev ∈ events → P (Delivered s ev d)) →
  (∀ msg, P (Logged msg)) →
  appends trace P (classify chain txid i output).
Proof.
  intros HE HD HL. unfold classify.
  destruct (type (covenant output));
    repeat first
      [ rewrite resolve_adb, throw_bind
      | apply on_adb_trace
      | apply next_io_trace
      | apply emit_trace; [apply HE; discriminate | intros; by apply HD]
      | apply tell_trace; by repeat constructor
      | appends_step ].
Qed.

Lemma connect_trace (P : effect -> Prop) chain block :
  (∀ ev d, ev ≠ "bid burned" → P (Emitted ev d)) →
  (∀ s ev d, ev ∈ events → P (Delivered s ev d)) →
  (∀ msg, P (Logged msg)) →
  appends trace P (connect chain block).
Proof.
  intros HE HD HL. unfold connect.
  repeat first
    [ apply on_adb_trace
    | apply next_io_trace
    | apply appends_forM; intros ?
    | apply appends_for_entries; intros ? ?
    | by apply classify_trace
    | apply emit_trace; [apply HE; discriminate | intros; by apply HD]
    | appends_step ].
Qed.

Lemma classify_journal chain txid i output :
  appends adb_journal is_batch (classify chain txid i output).
Proof.
  unfold classify.
  destruct (type (covenant output));
    repeat first
      [ rewrite resolve_adb, throw_bind
      | apply next_io_journal
      | apply emit_journal
      | apply tell_journal
      | apply on_adb_journal;
        first [ apply addMember_journal | apply getCount_journal
              | apply getMembers_journal ]
      | appends_step ].
Qed.

Lemma added_appends {A} (m : M HTTP A) (h : HTTP) (t : list effect) :
  trace (snd (m h)) = trace h ++ t → added m h = t.
Proof. intros E. unfold added, exec. rewrite E. by rewrite drop_app_length. Qed.

Lemma emissions_not_burn (t : list effect) :
  Forall not_burn t → emissions "bid burned" t = [].
Proof.
  induction 1 as [|e t He _ IH]; [done|].
  change (e :: t) with ([e] ++ t). rewrite emissions_app, IH, app_nil_r.
  destruct e as [ev d| |]; [|done..]. simpl in He.
  unfold emissions. simpl.
  destruct (String.eqb ev "bid burned") eqn:E; [|done].
  by apply String.eqb_eq in E.
Qed.

(** Reads of the counters leave the database as it is. *)
Lemma getCount_state k name st : snd (getCount k name st) = st.
Proof.
  unfold getCount. rewrite bind_run.
  destruct (layout.count k name) as [key|]; simpl; [|done].
  rewrite bind_run. simpl. by destruct (db st !! key).
Qed.

Lemma on_adb_read {A} (m : M AuctionDB A) (h : HTTP) (a : A) :
  value_of (m (adb h)) = Some a → snd (m (adb h)) = adb h →
  on_adb m h = (Ret a, h).
Proof.
  unfold on_adb. destruct (m (adb h)) as [[x|e] st]; simpl; [|done].
  intros [= ->] ->. by destruct h.
Qed.

(** A REGISTER output over more bids than reveals: the 'register' event,
    then the fault on [adb]. *)
Lemma classify_register_run chain txid i output name b r h :
  type (covenant output) = types.REGISTER →
  getNameState chain (nameHash (covenant output)) = Some name →
  value_of (getBidCount name (adb h)) = Some (Some b) →
  value_of (getRevealCount name (adb h)) = Some (Some r) →
  r < b →
  classify chain txid i output h
  = (Throw (ReferenceError "adb"),
     with_trace (λ t, t ++ fanout "register"
                   (OutputEvent (Some name)
                      {| hash := txid; index := Z.of_nat i |} (value output)) h) h).
Proof.
  intros Ht Hn Hb Hr Hlt. unfold classify. rewrite Ht, Hn.
  rewrite bind_run, (on_adb_read _ _ _ Hb (getCount_state _ _ _)).
  rewrite bind_run, (on_adb_read _ _ _ Hr (getCount_state _ _ _)).
  rewrite bind_run, emit_run.
  destruct (b =? r) eqn:E1; [lia|].
  destruct (r >? b) eqn:E2; [lia|].
  by rewrite resolve_adb, throw_bind.
Qed.

(** C10.  No run of the 'connect' handler emits 'bid burned'; and a
    REGISTER output of a name with more bids than reveals recorded ends
    the handler with a ReferenceError on the identifier [adb], raised
    before the loop that would emit it. *)
Theorem bid_burned_never_emitted (chain : ChainDB) (h : HTTP) :
  (∀ block, emissions "bid burned" (added (connect chain block) h) = []) ∧
  (∀ txid i output name b r,
     type (covenant output) = types.REGISTER →
     getNameState chain (nameHash (covenant output)) = Some name →
     value_of (getBidCount name (adb h)) = Some (Some b) →
     value_of (getRevealCount name (adb h)) = Some (Some r) →
     r < b →
     fst (classify chain txid i output h) = Throw (ReferenceError "adb") ∧
     emissions "bid burned" (added (classify chain txid i output) h) = []).
Proof.
  split.
  - intros block.
    destruct (connect_trace not_burn chain block) with (s := h)
      as (t & E & F); [done..|].
    rewrite (added_appends _ _ _ E). by apply emissions_not_burn.
  - intros txid i output name b r Ht Hn Hb Hr Hlt.
    pose proof (classify_register_run chain txid i output name b r h
                  Ht Hn Hb Hr Hlt) as E.
    split; [by rewrite E|].
    erewrite added_with_trace; [|by rewrite E].
    by rewrite emissions_fanout.
Qed.

Lemma bid_burned_never_emitted_witness :
  emissions "bid burned"
    (added (connect sample.chain sample.register_block)
       (sample.server sample.plugin_options sample.two_bids_one_reveal)) = []
  ∧ fst (classify sample.chain sample.H3 0
           {| covenant := {| type := types.REGISTER; nameHash := sample.NH |};
              value := 7 |}
           (sample.server sample.plugin_options sample.two_bids_one_reveal))
    = Throw (ReferenceError "adb").
Proof.
  destruct (bid_burned_never_emitted sample.chain
              (sample.server sample.plugin_options sample.two_bids_one_reveal))
    as [H1 H2].
  split; [apply H1|].
  apply (H2 sample.H3 0%nat _ "foo" 2 1); [reflexivity | reflexivity | | | lia].
  - vm_compute. reflexivity.
  - vm_compute. reflexivity.
Defined.

(** *** The loop over the recorded bids *)

Lemma burnLoop_run chain name value bids h :
  burnLoop chain name value bids h
  = (Ret tt, with_trace (λ t, t ++ burn_effects chain name value bids h) h).
Proof.
  unfold burnLoop, burn_effects. revert h.
  induction bids as [|[bh bi] bids IH]; intros h.
  - simpl. by rewrite with_trace_id.
  - simpl forM_. rewrite bind_run. simpl.
    destruct (getCoin chain bh bi).
    + rewrite emit_run, IH, with_trace_app. reflexivity.
    + simpl. by rewrite IH.
Qed.

Lemma emissions_burn_effects chain name value bids h :
  emissions "bid burned" (burn_effects chain name value bids h)
  = fmap (λ bid, OutputEvent (Some name) bid value)
      (filter (coin_present chain) bids).
Proof.
  unfold burn_effects.
  induction bids as [|bid bids IH]; [done|].
  rewrite fmap_cons. simpl concat. rewrite emissions_app, IH, filter_cons.
  destruct (decide (coin_present chain bid)) as [Hc|Hc];
    unfold coin_present in Hc;
    destruct (getCoin chain (hash bid) (index bid)) eqn:E.
  - by rewrite emissions_fanout.
  - by destruct Hc.
  - destruct Hc. by eexists.
  - done.
Qed.

(** C2, as the handler has it.  The loop over the recorded bid outpoints
    of a name runs to its end and emits one 'bid burned' event, carrying
    the name, the outpoint and the value of the REGISTER output, for each
    outpoint whose coin is present in the coin set, in the order of the
    scan; an outpoint whose coin is absent is passed over. *)
Theorem burn_loop_reports_present_coins
    (chain : ChainDB) (name : string) (value : Z) (bids : list Outpoint)
    (h : HTTP) :
  fst (burnLoop chain name value bids h) = Ret tt ∧
  emissions "bid burned" (added (burnLoop chain name value bids) h)
  = fmap (λ bid, OutputEvent (Some name) bid value)
      (filter (coin_present chain) bids).
Proof.
  rewrite burnLoop_run. split; [done|].
  erewrite added_with_trace; [|by rewrite burnLoop_run].
  apply emissions_burn_effects.
Qed.

(** C2, as stated, fails: "foo" has two bids and one reveal recorded,
    the coin of the bid [o2] is absent and that of [o1] present.  The
    handler run on a REGISTER output of "foo" emits no 'bid burned'
    event; and the loop, run on the two recorded bids, reports [o1] and
    not [o2]. *)
Lemma absent_coin_not_reported :
  value_of (getBidCount "foo" sample.two_bids_one_reveal) = Some (Some 2) ∧
  value_of (getRevealCount "foo" sample.two_bids_one_reveal) = Some (Some 1) ∧
  value_of (getBids "foo" sample.two_bids_one_reveal)
  = Some [sample.o1; sample.o2] ∧
  getCoin sample.chain (hash sample.o2) (index sample.o2) = None ∧
  emissions "bid burned"
    (added (connect sample.chain sample.register_block)
       (sample.server sample.plugin_options sample.two_bids_one_reveal)) = [] ∧
  emissions "bid burned"
    (added (burnLoop sample.chain "foo" 7 [sample.o1; sample.o2])
       (sample.server sample.plugin_options sample.two_bids_one_reveal))
  = [OutputEvent (Some "foo") sample.o1 7].
Proof. repeat split; vm_compute; reflexivity. Qed.

(** *** The order of the writes of a block *)

(** C4, as the handler has it.  The write of the tip is the first write
    of a block: the journal grows by the tip (when the store accepts that
    write) followed by batches only, the index mutations of the block. *)
Theorem tip_written_before_mutations (chain : ChainDB) (block : Block) (h : HTTP) :
  ∃ ws,
    adb_journal (exec (connect chain block) h)
    = adb_journal h
      ++ (if hd true (disk h) then [WPut layout.T (block_hash block)] else [])
      ++ ws
    ∧ Forall is_batch ws.
Proof.
  unfold exec, connect. rewrite bind_run.
  assert (∀ h1, ∃ ws,
            adb_journal
              (snd ((forM_ (λ tx : TX,
                        for_entries (classify chain (tx_hash tx)) 0 (outputs tx))
                      (txs block);; emit "block stats" (StatsEvent 0 0 0 0)) h1))
            = adb_journal h1 ++ ws ∧ Forall is_batch ws) as Rest.
  { apply appends_bind; [|intros _; apply emit_journal].
    apply appends_forM. intros tx. apply appends_for_entries.
    intros i x. apply classify_journal. }
  destruct h as [o a c [|io d] t]; simpl.
  - rewrite bind_run. simpl.
    match goal with |- context [snd (_ ?h1)] => destruct (Rest h1) as (ws & E & F) end.
    exists ws. split; [|done]. rewrite E. unfold adb_journal. simpl.
    by rewrite <- app_assoc.
  - rewrite bind_run. destruct io; simpl.
    + match goal with |- context [snd (_ ?h1)] => destruct (Rest h1) as (ws & E & F) end.
      exists ws. split; [|done]. rewrite E. unfold adb_journal. simpl.
      by rewrite <- app_assoc.
    + match goal with |- context [snd (_ ?h1)] => destruct (Rest h1) as (ws & E & F) end.
      exists ws. split; [|done]. rewrite E. by unfold adb_journal.
Qed.

(** C4, as stated, fails: on a block with one BID output the tip is in
    the journal before the batch that indexes the bid. *)
Lemma tip_precedes_bid_batch :
  ¬ tip_after_mutations
      (adb_journal (exec (connect sample.chain sample.bid_block)
                      (sample.server sample.plugin_options fresh))).
Proof.
  intros H.
  assert (∃ ops,
            adb_journal (exec (connect sample.chain sample.bid_block)
                           (sample.server sample.plugin_options fresh))
            = [] ++ WPut layout.T sample.H3 :: [WBatch ops]) as [ops E].
  { eexists. vm_compute. reflexivity. }
  specialize (H _ _ _ E). inversion H as [|? ? Hn _]. by apply Hn.
Qed.

(** *** Delivery to the sockets of the channel *)

Lemma added_emit ev d h : added (emit ev d) h = fanout ev d h.
Proof. apply added_with_trace. by rewrite emit_run. Qed.

Lemma deliveries_fanout s ev d h :
  deliveries s (fanout ev d h)
  = if bool_decide (ev ∈ events)
    then fmap (λ _, (ev, d)) (filter (λ x, x = s) (subscribers h))
    else [].
Proof.
  unfold fanout. change (Emitted ev d :: ?l) with ([Emitted ev d] ++ l).
  rewrite deliveries_app. simpl.
  destruct (bool_decide (ev ∈ events)); [apply deliveries_map | done].
Qed.

(** C6, as the server has it.  An event emitted under one of the names
    bound by [initSockets] is fired, with its name and payload unchanged,
    on every socket joined to the channel when it is emitted, and on no
    other socket; an event under any other name ('revoke' and 'block
    stats' among them) is fired on no socket; joining replays nothing;
    and whatever the 'connect' handler fires on a socket carries one of
    the bound names. *)
Theorem forwarded_events_reach_subscribers
    (ev : string) (d : payload) (h : HTTP) (s : nat) :
  (ev ∈ events → s ∈ subscribers h →
   (ev, d) ∈ deliveries s (added (emit ev d) h)) ∧
  (s ∉ subscribers h → deliveries s (added (emit ev d) h) = []) ∧
  (∀ x, x ∈ deliveries s (added (emit ev d) h) → x = (ev, d)) ∧
  (ev ∉ events → deliveries s (added (emit ev d) h) = []) ∧
  (∀ s', added (watch_auction_notify s') h = []) ∧
  (∀ chain block, Forall fired_is_forwarded (added (connect chain block) h)).
Proof.
  rewrite added_emit, deliveries_fanout. repeat split.
  - intros Hev Hs. rewrite bool_decide_eq_true_2 by done.
    apply list_elem_of_fmap. exists s. split; [done|].
    by apply list_elem_of_filter.
  - intros Hs. destruct (bool_decide (ev ∈ events)); [|done].
    assert (filter (λ x, x = s) (subscribers h) = []) as ->; [|done].
    apply elem_of_nil_inv. intros x [-> Hx]%list_elem_of_filter. done.
  - intros x Hx. destruct (bool_decide (ev ∈ events)).
    + by apply list_elem_of_fmap in Hx as (? & -> & _).
    + by apply elem_of_nil in Hx.
  - intros Hev. by rewrite bool_decide_eq_false_2.
  - intros s'. unfold added, exec, watch_auction_notify, join, modify.
    simpl. apply drop_all.
  - intros chain block.
    destruct (connect_trace fired_is_forwarded chain block) with (s := h)
      as (t & E & F); [done..|].
    by rewrite (added_appends _ _ _ E).
Qed.

Lemma forwarded_events_reach_subscribers_witness :
  (("bid", OutputEvent (Some "foo") sample.o1 7) : string * payload)
  ∈ deliveries 1
      (added (emit "bid" (OutputEvent (Some "foo") sample.o1 7))
         (sample.server sample.plugin_options fresh)).
Proof.
  apply (forwarded_events_reach_subscribers "bid"
           (OutputEvent (Some "foo") sample.o1 7)
           (sample.server sample.plugin_options fresh) 1%nat).
  - vm_compute. apply list_elem_of_here.
  - vm_compute. apply list_elem_of_here.
Defined.

(** C6, as stated, fails: with socket 1 joined, the handler run on a
    block with a REVOKE output emits 'revoke' and 'block stats' and fires
    nothing on the socket. *)
Lemma revoke_and_stats_not_delivered :
  subscribers (sample.server sample.plugin_options fresh) = [1%nat] ∧
  emissions "revoke"
    (added (connect sample.chain sample.revoke_block)
       (sample.server sample.plugin_options fresh))
  = [OutputEvent (Some "foo") {| hash := sample.H3; index := 0 |} 0] ∧
  emissions "block stats"
    (added (connect sample.chain sample.revoke_block)
       (sample.server sample.plugin_options fresh))
  = [StatsEvent 0 0 0 0] ∧
  deliveries 1
    (added (connect sample.chain sample.revoke_block)
       (sample.server sample.plugin_options fresh)) = [].
Proof. repeat split; vm_compute; reflexivity. Qed.

(** *** The options object and the threshold of 'big spend' *)

Section Preserves.
Context {St : Type} (Q : St -> Prop).

Lemma preserves_silent {A} (m : M St A) :
  (∀ s, snd (m s) = s) → preserves Q m.
Proof. intros H s Hs. by rewrite H. Qed.

Lemma preserves_ret {A} (a : A) : preserves Q (mret a).
Proof. by apply preserves_silent. Qed.

Lemma preserves_throw {A} (e : error) : preserves Q (throw e : M St A).
Proof. by apply preserves_silent. Qed.

Lemma preserves_gets {A} (f : St -> A) : preserves Q (gets f).
Proof. by apply preserves_silent. Qed.

Lemma preserves_lift {A} (f : St -> outcome A) : preserves Q (lift f).
Proof. by apply preserves_silent. Qed.

Lemma preserves_assert (b : bool) : preserves Q (assert b).
Proof. destruct b; [apply preserves_ret | apply preserves_throw]. Qed.

Lemma preserves_bind {A B} (m : M St A) (f : A -> M St B) :
  preserves Q m → (∀ a, preserves Q (f a)) → preserves Q (m ≫= f).
Proof.
  intros Hm Hf s Hs. rewrite bind_run. specialize (Hm s Hs).
  destruct (m s) as [[a|e] s1]; simpl in *; [by apply Hf | done].
Qed.

Lemma preserves_when (c : bool) (m : M St unit) :
  preserves Q m → preserves Q (when_ c m).
Proof. destruct c; [done | intros _; apply preserves_ret]. Qed.

End Preserves.

Ltac preserves_step :=
  lazymatch goal with
  | |- preserves _ (mbind _ _) => apply preserves_bind; [| intros ?]
  | |- preserves _ (mret _) => apply preserves_ret
  | |- preserves _ (throw _) => apply preserves_throw
  | |- preserves _ (gets _) => apply preserves_gets
  | |- preserves _ (lift _) => apply preserves_lift
  | |- preserves _ (assert _) => apply preserves_assert
  | |- preserves _ (when_ _ _) => apply preserves_when
  end.

Lemma set_no_threshold p v :
  p ≠ "bigSpendValue" → preserves no_threshold (set p v).
Proof.
  intros Hp this H. unfold set, modify, no_threshold in *. simpl.
  by rewrite lookup_insert_ne.
Qed.

Lemma HTTPOptions_no_threshold env user_options :
  preserves no_threshold (HTTPOptions env user_options).
Proof.
  unfold HTTPOptions, fromOptions, opt.
  repeat lazymatch goal with
         | |- preserves _ (set _ _) => apply set_no_threshold; discriminate
         | |- _ => preserves_step
         end.
Qed.

Lemma new_HTTPOptions_no_threshold env user_options this :
  new_HTTPOptions env user_options = Ret this →
  field this "bigSpendValue" = JUndefined.
Proof.
  unfold new_HTTPOptions. intros E.
  pose proof (HTTPOptions_no_threshold env user_options ∅) as H.
  destruct (HTTPOptions env user_options ∅) as [[u|e] this']; [|done].
  injection E as <-. unfold field. simpl in H. rewrite H; [done|].
  apply lookup_empty.
Qed.

(** C9.  Whatever options the server is constructed with, its options
    object has no property [bigSpendValue]: the comparison of the NONE
    branch is against [undefined] and never holds, so an output with no
    covenant is passed over, whatever its value. *)
Theorem big_spend_never_emitted
    (env : Env) (user_options : jsval) (adb0 : AuctionDB) (h0 h : HTTP)
    (chain : ChainDB) (txid : Buffer) (i : nat) (output : Output) :
  new_HTTP env user_options adb0 = Ret h0 →
  options h = options h0 →
  type (covenant output) = types.NONE →
  classify chain txid i output h = (Ret tt, h).
Proof.
  intros Hnew Hopt Ht. unfold new_HTTP in Hnew.
  destruct (new_HTTPOptions env user_options) as [this|e] eqn:E; [|done].
  injection Hnew as <-. simpl in Hopt.
  unfold classify. rewrite Ht, bind_run. simpl.
  by rewrite Hopt, (new_HTTPOptions_no_threshold _ _ _ E).
Qed.

(** Were the property a number, the branch would emit exactly from that
    value on. *)
Lemma big_spend_with_threshold
    (h : HTTP) (t : Z) (chain : ChainDB) (txid : Buffer) (i : nat)
    (output : Output) :
  options h !! "bigSpendValue" = Some (JNum t) →
  type (covenant output) = types.NONE →
  added (classify chain txid i output) h
  = if t <=? value output
    then fanout "big spend"
           (OutputEvent None {| hash := txid; index := Z.of_nat i |}
              (value output)) h
    else [].
Proof.
  intros Ho Ht. apply added_with_trace.
  unfold classify. rewrite Ht, bind_run. simpl.
  unfold field. rewrite Ho. unfold js_ge. simpl.
  destruct (t <=? value output); simpl.
  - by rewrite emit_run.
  - by rewrite with_trace_id.
Qed.

Lemma big_spend_never_emitted_witness :
  classify sample.chain sample.H3 0 sample.spend
    (sample.server sample.threshold_options fresh)
  = (Ret tt, sample.server sample.threshold_options fresh).
Proof.
  destruct (new_HTTP sample.env sample.threshold_options fresh) as [h0|e] eqn:E;
    [|vm_compute in E; discriminate].
  apply (big_spend_never_emitted sample.env sample.threshold_options fresh h0);
    [exact E | | reflexivity].
  unfold sample.server. rewrite E. reflexivity.
Defined.

(** ** Bytes and the order of keys *)

Lemma to_N_byte_of_N (n : N) : Byte.to_N (byte_of_N n) = (n mod 256)%N.
Proof.
  unfold byte_of_N. destruct (Byte.of_N (n mod 256)) as [b|] eqn:E.
  - by apply Byte.to_of_N.
  - apply Byte.of_N_None_iff in E.
    pose proof (N.mod_upper_bound n 256). lia.
Qed.

Lemma to_N_inj (a b : byte) : Byte.to_N a = Byte.to_N b → a = b.
Proof.
  intros E. pose proof (Byte.of_to_N a) as Ha. rewrite E, Byte.of_to_N in Ha.
  by injection Ha.
Qed.

Lemma key_leb_cons (x y : byte) (a b : Buffer) :
  key_leb (x :: a) (y :: b) = true ↔
  (Byte.to_N x < Byte.to_N y)%N ∨ (x = y ∧ key_leb a b = true).
Proof.
  simpl. rewrite orb_true_iff, andb_true_iff, N.ltb_lt, N.eqb_eq. split.
  - intros [?|[E ?]]; [by left | right]. split; [by apply to_N_inj | done].
  - intros [?|[-> ?]]; [by left | by right].
Qed.

Lemma key_leb_refl (a : Buffer) : key_leb a a = true.
Proof. induction a as [|x a IH]; [done|]. apply key_leb_cons. by right. Qed.

#[global] Instance key_le_trans : Transitive key_le.
Proof.
  unfold key_le. intros a. induction a as [|x a IH]; intros [|y b] [|z c]; try done.
  rewrite !key_leb_cons. intros [H1|[-> H1]] [H2|[-> H2]].
  - left. lia.
  - by left.
  - by left.
  - right. split; [done|]. by eapply IH.
Qed.

#[global] Instance key_le_antisym : AntiSymm (=) key_le.
Proof.
  unfold key_le. intros a. induction a as [|x a IH]; intros [|y b]; try done.
  rewrite !key_leb_cons. intros [H1|[-> H1]] [H2|[E H2]]; subst; try lia.
  f_equal. by apply IH.
Qed.

#[global] Instance key_le_total : Total key_le.
Proof.
  unfold key_le. intros a. induction a as [|x a IH]; intros [|y b].
  - by left.
  - by left.
  - by right.
  - rewrite !key_leb_cons.
    destruct (N.lt_trichotomy (Byte.to_N x) (Byte.to_N y)) as [?|[E|?]].
    + left. by left.
    + apply to_N_inj in E as ->. destruct (IH b); [left | right]; by right.
    + right. by left.
Qed.

(** Two bounds that share a prefix enclose only keys with that prefix. *)
Lemma key_le_between_prefix (p a b k : Buffer) :
  key_le (p ++ a) k → key_le k (p ++ b) →
  ∃ r, k = p ++ r ∧ key_le a r ∧ key_le r b.
Proof.
  unfold key_le. revert k. induction p as [|x p IH]; intros k.
  - simpl. intros. by exists k.
  - destruct k as [|y k]; [done|]. simpl app. rewrite !key_leb_cons.
    intros [H1|[-> H1]] [H2|[E H2]]; subst; try lia.
    destruct (IH k H1 H2) as (r & -> & ? & ?). by exists r.
Qed.

Lemma key_le_app (p a b : Buffer) : key_le (p ++ a) (p ++ b) ↔ key_le a b.
Proof.
  unfold key_le. induction p as [|x p IH]; [done|].
  simpl app. rewrite key_leb_cons. split.
  - intros [?|[_ ?]]; [lia | by apply IH].
  - intros. right. split; [done | by apply IH].
Qed.

Lemma key_le_zeros (n : nat) (l : Buffer) :
  length l = n → key_le (repeat Byte.x00 n) l.
Proof.
  unfold key_le. revert l. induction n as [|n IH]; intros [|y l]; try done.
  intros [= E]. simpl repeat. apply key_leb_cons.
  destruct (decide (y = Byte.x00)) as [->|Hy].
  - right. split; [done | by apply IH].
  - left. assert (Byte.to_N y ≠ Byte.to_N Byte.x00) by (intros ?%to_N_inj; done).
    simpl in *. lia.
Qed.

Lemma key_le_ones (n : nat) (l : Buffer) :
  length l = n → key_le l (repeat Byte.xff n).
Proof.
  unfold key_le. revert l. induction n as [|n IH]; intros [|y l]; try done.
  intros [= E]. simpl repeat. apply key_leb_cons.
  destruct (decide (y = Byte.xff)) as [->|Hy].
  - right. split; [done | by apply IH].
  - left. assert (Byte.to_N y ≠ Byte.to_N Byte.xff) by (intros ?%to_N_inj; done).
    pose proof (Byte.to_N_bounded y). simpl in *. lia.
Qed.

(** ** Big numbers *)

Lemma decodeN_digits (fuel : nat) (n : N) (acc : Buffer) :
  (n < 2 ^ N.of_nat fuel)%N →
  fold_left (λ a b, (a * 256 + Byte.to_N b)%N) (BN.digits fuel n acc) 0%N
  = fold_left (λ a b, (a * 256 + Byte.to_N b)%N) acc n.
Proof.
  revert n acc. induction fuel as [|fuel IH]; intros n acc Hn.
  - simpl in *. by replace n with 0%N by lia.
  - simpl BN.digits. destruct (n =? 0)%N eqn:E.
    + apply N.eqb_eq in E. by subst.
    + rewrite IH.
      * simpl. rewrite to_N_byte_of_N. f_equal.
        pose proof (N.div_mod n 256). lia.
      * rewrite Nat2N.inj_succ, N.pow_succ_r' in Hn.
        pose proof (N.div_mod n 256). pose proof (N.mod_upper_bound n 256).
        pose proof (N.pow_nonzero 2 (N.of_nat fuel)).
        remember (2 ^ N.of_nat fuel)%N as P. remember (n / 256)%N as q.
        remember (n mod 256)%N as r. lia.
Qed.

Lemma BN_decode_encode (z : Z) : BN.decode (BN.encode z) = Z.abs z.
Proof.
  unfold BN.decode, BN.encode, BN.decodeN.
  assert (Z.abs_N z < 2 ^ N.of_nat (S (N.to_nat (N.log2 (Z.abs_N z)))))%N as Hn.
  { rewrite Nat2N.inj_succ, N2Nat.id.
    destruct (N.eq_dec (Z.abs_N z) 0%N) as [->|Hz]; [done|].
    apply N.log2_spec. lia. }
  pose proof (decodeN_digits _ _ [] Hn) as E.
  destruct (BN.digits _ _ _) as [|b l].
  - simpl in *. lia.
  - rewrite E. simpl. lia.
Qed.

Lemma BN_decode_nonneg (raw : Buffer) : 0 <= BN.decode raw.
Proof. unfold BN.decode. lia. Qed.

(** ** Keys *)

Lemma write_ascii_Some (name : string) (n : Buffer) :
  key.write_ascii name = Some n ↔
  (length (String.list_byte_of_string name) <= 255)%nat ∧
  n = byte_of_N (N.of_nat (length (String.list_byte_of_string name)))
      :: String.list_byte_of_string name.
Proof.
  unfold key.write_ascii. simpl. case_decide; split.
  - by intros [= <-].
  - by intros [_ ->].
  - done.
  - intros [? _]. lia.
Qed.

Lemma write_ascii_is_Some (name : string) :
  (length (String.list_byte_of_string name) <= 255)%nat →
  is_Some (key.write_ascii name).
Proof. intros H. eexists. by apply write_ascii_Some. Qed.

(** No encoded name is the start of another. *)
Lemma write_ascii_prefix_free (a b : string) (x y r1 r2 : Buffer) :
  key.write_ascii a = Some x → key.write_ascii b = Some y →
  x ++ r1 = y ++ r2 → a = b ∧ r1 = r2.
Proof.
  intros [La ->]%write_ascii_Some [Lb ->]%write_ascii_Some. simpl.
  intros [= Eh Et].
  assert (length (String.list_byte_of_string a)
          = length (String.list_byte_of_string b)) as El.
  { apply (f_equal Byte.to_N) in Eh. rewrite !to_N_byte_of_N in Eh.
    rewrite !N.mod_small in Eh by lia. lia. }
  apply app_inj_1 in Et as [Eb ->]; [|done]. split; [|done].
  rewrite <- (String.string_of_list_byte_of_string a),
          <- (String.string_of_list_byte_of_string b). by rewrite Eb.
Qed.

Lemma encode1_Some (id : byte) (name : string) (k : Buffer) :
  key.encode1 id name = Some k ↔
  ∃ n, key.write_ascii name = Some n ∧ k = id :: n.
Proof.
  unfold key.encode1. destruct (key.write_ascii name) as [n|]; simpl; split.
  - intros [= <-]. by exists n.
  - by intros (? & [= <-] & ->).
  - done.
  - by intros (? & ? & _).
Qed.

Lemma encode3_Some (id : byte) (name : string) (h : Buffer) (i : Z) (k : Buffer) :
  key.encode3 id name h i = Some k ↔
  ∃ n, key.write_ascii name = Some n ∧ length h = 32%nat
       ∧ 0 <= i < 4294967296 ∧ k = id :: n ++ h ++ key.writeU32BE i.
Proof.
  unfold key.encode3, key.write_hash256, key.write_uint32. split.
  - intros H. destruct (key.write_ascii name) as [n|]; simpl in H; [|done].
    repeat case_decide; simpl in H; try done.
    injection H as <-. by exists n.
  - intros (n & -> & Hh & Hi & ->). simpl.
    rewrite !decide_True by done. reflexivity.
Qed.

Lemma read_ascii_write (name : string) (n rest : Buffer) :
  key.write_ascii name = Some n →
  key.read_ascii (n ++ rest) = Some (name, rest).
Proof.
  intros [L ->]%write_ascii_Some. simpl. rewrite to_N_byte_of_N.
  rewrite N.mod_small by lia. rewrite Nat2N.id.
  rewrite decide_True by (rewrite length_app; lia).
  by rewrite take_app_length, drop_app_length,
    String.string_of_list_byte_of_string.
Qed.

Lemma read_hash256_app (h rest : Buffer) :
  length h = 32%nat → key.read_hash256 (h ++ rest) = Some (h, rest).
Proof.
  intros L. unfold key.read_hash256.
  rewrite decide_True by (rewrite length_app; lia).
  rewrite <- L. by rewrite take_app_length, drop_app_length.
Qed.

Lemma read_uint32_write (i : Z) (rest : Buffer) :
  0 <= i < 4294967296 →
  key.read_uint32 (key.writeU32BE i ++ rest) = Some (i, rest).
Proof.
  intros Hi. unfold key.writeU32BE. simpl. rewrite !to_N_byte_of_N.
  do 2 f_equal. rewrite <- (Z2N.id i) at 5 by lia. f_equal.
  set (n := Z.to_N i). assert (n < 4294967296)%N as Hn by lia.
  pose proof (N.div_mod n 256). pose proof (N.mod_upper_bound n 256).
  pose proof (N.div_mod (n / 256) 256).
  pose proof (N.mod_upper_bound (n / 256) 256).
  pose proof (N.div_mod (n / 65536) 256).
  pose proof (N.mod_upper_bound (n / 65536) 256).
  replace (n / 65536)%N with (n / 256 / 256)%N in *
    by (rewrite N.Div0.div_div; done).
  replace (n / 16777216)%N with (n / 256 / 256 / 256)%N in *
    by (rewrite !N.Div0.div_div; done).
  assert (n / 256 / 256 / 256 < 256)%N.
  { rewrite !N.Div0.div_div. apply N.Div0.div_lt_upper_bound. simpl. lia. }
  rewrite (N.mod_small (n / 256 / 256 / 256) 256) by done.
  remember (n / 256)%N as q1. remember (q1 / 256)%N as q2.
  remember (q2 / 256)%N as q3. remember (n mod 256)%N as r0.
  remember (q1 mod 256)%N as r1. remember (q2 mod 256)%N as r2. lia.
Qed.

Lemma decode3_encode3 (id : byte) (name : string) (h : Buffer) (i : Z) (k : Buffer) :
  key.encode3 id name h i = Some k → key.decode3 id k = Some (name, h, i).
Proof.
  intros (n & Hn & Hh & Hi & ->)%encode3_Some. unfold key.decode3.
  rewrite decide_True by done.
  rewrite (read_ascii_write _ _ _ Hn). simpl.
  rewrite (read_hash256_app _ _ Hh). simpl.
  pose proof (read_uint32_write i [] Hi) as R.
  unfold key.writeU32BE in R. simpl in R. injection R as R. by rewrite R.
Qed.

Lemma member_id_inj k k' : layout.member_id k = layout.member_id k' → k = k'.
Proof. by destruct k, k'. Qed.

Lemma count_id_inj k k' : layout.count_id k = layout.count_id k' → k = k'.
Proof. by destruct k, k'. Qed.

Lemma count_id_ne_member_id k k' : layout.count_id k ≠ layout.member_id k'.
Proof. by destruct k, k'. Qed.

Lemma parse_member k name o km :
  layout.member k name o = Some km → parse k km = Some o.
Proof.
  intros H. unfold parse, layout.member_decode.
  rewrite (decode3_encode3 _ _ _ _ _ H). simpl. by destruct o.
Qed.

Lemma member_inj k name o k' name' o' km :
  layout.member k name o = Some km → layout.member k' name' o' = Some km →
  k = k' ∧ name = name' ∧ o = o'.
Proof.
  intros H H'. pose proof (parse_member _ _ _ _ H) as P.
  pose proof H as (n & Hn & _ & _ & E)%encode3_Some.
  pose proof H' as (n' & Hn' & _ & _ & E')%encode3_Some.
  rewrite E in E'. injection E' as Ek Et. apply member_id_inj in Ek as <-.
  destruct (write_ascii_prefix_free _ _ _ _ _ _ Hn Hn' Et) as [<- _].
  pose proof (parse_member _ _ _ _ H') as P'. rewrite P in P'.
  by injection P' as <-.
Qed.

Lemma count_inj k name k' name' kc :
  layout.count k name = Some kc → layout.count k' name' = Some kc →
  k = k' ∧ name = name'.
Proof.
  intros (n & Hn & ->)%encode1_Some (n' & Hn' & [= Ek Et])%encode1_Some.
  apply count_id_inj in Ek as <-. split; [done|].
  apply (write_ascii_prefix_free name name' n n' [] []); [done..|].
  by rewrite !app_nil_r.
Qed.

Lemma count_ne_member k name kc k' name' o km :
  layout.count k name = Some kc → layout.member k' name' o = Some km → kc ≠ km.
Proof.
  intros (n & _ & ->)%encode1_Some (n' & _ & _ & _ & ->)%encode3_Some [= E _].
  by apply count_id_ne_member_id in E.
Qed.

Lemma member_ne_count k name kc k' name' o km :
  layout.count k name = Some kc → layout.member k' name' o = Some km → km ≠ kc.
Proof. intros Hc Hm E. by apply (count_ne_member _ _ _ _ _ _ _ Hc Hm). Qed.

Lemma T_ne_count k name kc : layout.count k name = Some kc → layout.T ≠ kc.
Proof. intros (n & _ & ->)%encode1_Some. by destruct k. Qed.

Lemma T_ne_member k name o km : layout.member k name o = Some km → layout.T ≠ km.
Proof. intros (n & _ & _ & _ & ->)%encode3_Some. by destruct k. Qed.

(** The bounds of a scan, written out. *)
Lemma member_bounds k name lo hi :
  layout.member_min k name = Some lo → layout.member_max k name = Some hi →
  ∃ n, key.write_ascii name = Some n
       ∧ lo = (layout.member_id k :: n) ++ repeat Byte.x00 36
       ∧ hi = (layout.member_id k :: n) ++ repeat Byte.xff 36.
Proof.
  intros (n & Hn & _ & _ & ->)%encode3_Some (n' & Hn' & _ & _ & ->)%encode3_Some.
  rewrite Hn in Hn'. injection Hn' as <-. exists n. split; [done|].
  split; simpl; f_equal; by rewrite <- app_assoc.
Qed.

Lemma member_bounds_is_Some k name :
  (length (String.list_byte_of_string name) <= 255)%nat →
  is_Some (layout.member_min k name) ∧ is_Some (layout.member_max k name).
Proof.
  intros [n Hn]%write_ascii_is_Some.
  split; eexists; apply encode3_Some; exists n; (split; [done|]);
    (split; [done|]); (split; [done|]); reflexivity.
Qed.

(** A scan encloses exactly the membership keys of its name and kind. *)
Lemma in_range_prefix k name lo hi key :
  layout.member_min k name = Some lo → layout.member_max k name = Some hi →
  in_range lo hi key →
  ∃ n r, key.write_ascii name = Some n ∧ key = layout.member_id k :: n ++ r.
Proof.
  intros Hlo Hhi [H1 H2].
  destruct (member_bounds _ _ _ _ Hlo Hhi) as (n & Hn & -> & ->).
  destruct (key_le_between_prefix _ _ _ _ H1 H2) as (r & -> & _).
  by exists n, r.
Qed.

Lemma member_in_range k name o km k' name' lo hi :
  layout.member k name o = Some km →
  layout.member_min k' name' = Some lo → layout.member_max k' name' = Some hi →
  in_range lo hi km ↔ k = k' ∧ name = name'.
Proof.
  intros Hm Hlo Hhi. split.
  - intros Hr.
    destruct (in_range_prefix _ _ _ _ _ Hlo Hhi Hr) as (n' & r & Hn' & E).
    pose proof Hm as (n & Hn & _ & _ & E')%encode3_Some.
    rewrite E' in E. injection E as Ek Et. apply member_id_inj in Ek as <-.
    by destruct (write_ascii_prefix_free _ _ _ _ _ _ Hn Hn' Et) as [<- _].
  - intros [<- <-].
    destruct (member_bounds _ _ _ _ Hlo Hhi) as (n & Hn & -> & ->).
    pose proof Hm as (n' & Hn' & Hh & _ & ->)%encode3_Some.
    rewrite Hn in Hn'. injection Hn' as <-.
    change (layout.member_id k :: n ++ ?t) with ((layout.member_id k :: n) ++ t).
    split; apply key_le_app; [apply key_le_zeros | apply key_le_ones];
      rewrite length_app, Hh; reflexivity.
Qed.

Lemma count_not_in_range k name kc k' name' lo hi :
  layout.count k name = Some kc →
  layout.member_min k' name' = Some lo → layout.member_max k' name' = Some hi →
  ¬ in_range lo hi kc.
Proof.
  intros (n & _ & ->)%encode1_Some Hlo Hhi Hr.
  destruct (in_range_prefix _ _ _ _ _ Hlo Hhi Hr) as (n' & r & _ & [= E _]).
  by apply count_id_ne_member_id in E.
Qed.

Lemma T_not_in_range k name lo hi :
  layout.member_min k name = Some lo → layout.member_max k name = Some hi →
  ¬ in_range lo hi layout.T.
Proof.
  intros Hlo Hhi Hr.
  destruct (in_range_prefix _ _ _ _ _ Hlo Hhi Hr) as (n' & r & _ & [= E _]).
  by destruct k.
Qed.

(** ** Range scans of the store *)

Lemma elem_of_keys (lo hi : Buffer) (s : Store) (k : Buffer) :
  k ∈ keys lo hi s ↔ in_range lo hi k ∧ is_Some (s !! k).
Proof.
  unfold keys.
  by rewrite merge_sort_Permutation, list_elem_of_filter, elem_of_elements,
    elem_of_dom.
Qed.

Lemma keys_sorted (lo hi : Buffer) (s : Store) :
  StronglySorted key_le (keys lo hi s).
Proof. apply StronglySorted_merge_sort; apply _. Qed.

Lemma keys_NoDup (lo hi : Buffer) (s : Store) : NoDup (keys lo hi s).
Proof.
  unfold keys. rewrite merge_sort_Permutation.
  apply NoDup_filter, NoDup_elements.
Qed.

(** A scan sees only which keys of its range are present. *)
Lemma keys_ext (lo hi : Buffer) (s s' : Store) :
  (∀ k, in_range lo hi k → (is_Some (s !! k) ↔ is_Some (s' !! k))) →
  keys lo hi s = keys lo hi s'.
Proof.
  intros H. apply (StronglySorted_unique key_le).
  - apply keys_sorted.
  - apply keys_sorted.
  - apply NoDup_Permutation.
    + apply keys_NoDup.
    + apply keys_NoDup.
    + intros k. rewrite !elem_of_keys. split; intros [? ?]; split; try done;
        by apply (H k).
Qed.

Lemma keys_insert_outside (lo hi : Buffer) (s : Store) (k v : Buffer) :
  ¬ in_range lo hi k → keys lo hi (<[k := v]> s) = keys lo hi s.
Proof.
  intros Hk. apply keys_ext. intros x Hx. rewrite lookup_insert_ne; [done|].
  by intros ->.
Qed.

Lemma keys_delete_outside (lo hi : Buffer) (s : Store) (k : Buffer) :
  ¬ in_range lo hi k → keys lo hi (delete k s) = keys lo hi s.
Proof.
  intros Hk. apply keys_ext. intros x Hx. rewrite lookup_delete_ne; [done|].
  by intros ->.
Qed.

Lemma keys_delete_absent (lo hi : Buffer) (s : Store) (k : Buffer) :
  s !! k = None → keys lo hi (delete k s) = keys lo hi s.
Proof.
  intros Hk. apply keys_ext. intros x Hx.
  destruct (decide (k = x)) as [<-|Hne].
  - rewrite lookup_delete_eq, Hk. done.
  - by rewrite lookup_delete_ne.
Qed.

Lemma keys_insert_fresh (lo hi : Buffer) (s : Store) (k v : Buffer) :
  s !! k = None → in_range lo hi k →
  keys lo hi (<[k := v]> s) ≡ₚ k :: keys lo hi s.
Proof.
  intros Hk Hr. apply NoDup_Permutation.
  - apply keys_NoDup.
  - constructor; [|apply keys_NoDup].
    rewrite elem_of_keys, Hk. by intros [_ [? ?]].
  - intros x. rewrite elem_of_cons, !elem_of_keys, lookup_insert_is_Some.
    split.
    + intros [? [->|[? ?]]]; [by left | by right].
    + intros [->|[? ?]]; [split; [done | by left]|].
      split; [done|]. destruct (decide (k = x)); [by left | by right].
Qed.

Lemma keys_delete_present (lo hi : Buffer) (s : Store) (k : Buffer) :
  is_Some (s !! k) → in_range lo hi k →
  keys lo hi s ≡ₚ k :: keys lo hi (delete k s).
Proof.
  intros Hk Hr. apply NoDup_Permutation.
  - apply keys_NoDup.
  - constructor; [|apply keys_NoDup].
    rewrite elem_of_keys, lookup_delete_eq. by intros [_ [? ?]].
  - intros x. rewrite elem_of_cons, !elem_of_keys, lookup_delete_is_Some.
    split.
    + intros [? ?]. destruct (decide (x = k)) as [->|]; [by left|].
      right. split; [done|]. split; [by intros ->|done].
    + intros [->|[? [_ ?]]]; by split.
Qed.

(** ** The operations of the database, run *)

Lemma addMember_run k io name o st kc km :
  is_uint32 (index o) = true →
  layout.count k name = Some kc → layout.member k name o = Some km →
  batch st = None →
  addMember k io name o st
  = if io
    then (Ret r_true,
          {| db := <[km := []]>
                     (<[kc := BN.encode (stored_count kc (db st) + 1)]> (db st));
             batch := None;
             journal := journal st
               ++ [WBatch [Put kc (BN.encode (stored_count kc (db st) + 1));
                           Put km []]] |})
    else (Ret r_null, st).
Proof.
  intros Hi Hc Hm Hb. unfold addMember, getCount, stored_count.
  rewrite Hi, Hc, Hm. destruct st as [d b j]. simpl in Hb. subst b.
  destruct (d !! kc) eqn:E; destruct io;
    cbv [mbind M_bind bind mret M_ret ret assert encoded gets start put commit
         batch db journal apply_batch fold_left apply_op app];
    rewrite ?E; reflexivity.
Qed.

Lemma removeMember_absent k io name o st kc :
  is_uint32 (index o) = true → layout.count k name = Some kc →
  db st !! kc = None →
  removeMember k io name o st = (Ret r_null, st).
Proof.
  intros Hi Hc E. unfold removeMember, getCount. rewrite Hi, Hc.
  cbv [mbind M_bind bind mret M_ret ret assert encoded gets].
  by rewrite E.
Qed.

Lemma removeMember_run k io name o st kc km raw :
  is_uint32 (index o) = true →
  layout.count k name = Some kc → layout.member k name o = Some km →
  db st !! kc = Some raw → batch st = None →
  removeMember k io name o st
  = if io
    then (Ret r_true,
          {| db := delete km (<[kc := BN.encode (BN.decode raw - 1)]> (db st));
             batch := None;
             journal := journal st
               ++ [WBatch [Put kc (BN.encode (BN.decode raw - 1)); Del km]] |})
    else (Ret r_false, st).
Proof.
  intros Hi Hc Hm E Hb. unfold removeMember, getCount.
  rewrite Hi, Hc, Hm. destruct st as [d b j]. simpl in Hb, E. subst b.
  destruct io;
    cbv [mbind M_bind bind mret M_ret ret assert encoded gets start put del
         commit batch db journal apply_batch fold_left apply_op app];
    rewrite ?E; reflexivity.
Qed.

Lemma getCount_run k name st kc :
  layout.count k name = Some kc →
  getCount k name st = (Ret (BN.decode <$> db st !! kc), st).
Proof.
  intros Hc. unfold getCount. rewrite Hc.
  cbv [mbind M_bind bind mret M_ret ret encoded gets].
  by destruct (db st !! kc).
Qed.

Lemma hasMember_run k name o st km :
  is_uint32 (index o) = true → layout.member k name o = Some km →
  hasMember k name o st = (Ret (bool_decide (is_Some (db st !! km))), st).
Proof. intros Hi Hm. unfold hasMember. by rewrite Hi, Hm. Qed.

Lemma getMembers_run k name st lo hi :
  layout.member_min k name = Some lo → layout.member_max k name = Some hi →
  getMembers k name st
  = match mapM (parse k) (keys lo hi (db st)) with
    | Some l => (Ret l, st)
    | None => (Throw KeyError, st)
    end.
Proof.
  intros Hlo Hhi. unfold getMembers. rewrite Hlo, Hhi.
  cbv [mbind M_bind bind mret M_ret ret encoded gets throw].
  by destruct (mapM _ _).
Qed.

(** ** Adding and removing one member *)

Lemma is_uint32_true (i : Z) : is_uint32 i = true ↔ 0 <= i < 4294967296.
Proof. unfold is_uint32. rewrite andb_true_iff, Z.leb_le, Z.ltb_lt. done. Qed.

Lemma keys_of_valid k name o :
  (length (String.list_byte_of_string name) <= 255)%nat →
  length (hash o) = 32%nat → 0 <= index o < 4294967296 →
  ∃ kc km, layout.count k name = Some kc ∧ layout.member k name o = Some km.
Proof.
  intros [n Hn]%write_ascii_is_Some Hh Hi.
  exists (layout.count_id k :: n),
         (layout.member_id k :: n ++ hash o ++ key.writeU32BE (index o)).
  split; [apply encode1_Some | apply encode3_Some]; by exists n.
Qed.

(** C7.  An add of a well-formed outpoint, with no batch left open, reads
    the counter (an absent record as zero) and puts the counter plus one
    and the membership key in one batch.  When the write of the batch
    fails the call returns [null], no fault, and the database is what it
    was; when it succeeds the call returns [true], both records are in
    the store, the count query returns the old count plus one and the
    outpoint is a member. *)
Theorem addMember_atomic (k : kind) (name : string) (o : Outpoint) (st : AuctionDB) :
  (length (String.list_byte_of_string name) <= 255)%nat →
  length (hash o) = 32%nat → 0 <= index o < 4294967296 →
  batch st = None →
  ∃ kc km,
    layout.count k name = Some kc ∧ layout.member k name o = Some km ∧
    addMember k false name o st = (Ret r_null, st) ∧
    addMember k true name o st
    = (Ret r_true,
       {| db := <[km := []]>
                  (<[kc := BN.encode (stored_count kc (db st) + 1)]> (db st));
          batch := None;
          journal := journal st
            ++ [WBatch [Put kc (BN.encode (stored_count kc (db st) + 1));
                        Put km []]] |}) ∧
    value_of (getCount k name (snd (addMember k true name o st)))
    = Some (Some (stored_count kc (db st) + 1)) ∧
    value_of (hasMember k name o (snd (addMember k true name o st)))
    = Some true.
Proof.
  intros Hn Hh Hi Hb.
  destruct (keys_of_valid k name o Hn Hh Hi) as (kc & km & Hc & Hm).
  exists kc, km. apply is_uint32_true in Hi.
  split; [done|]. split; [done|].
  split; [exact (addMember_run k false name o st kc km Hi Hc Hm Hb)|].
  rewrite (addMember_run k true name o st kc km Hi Hc Hm Hb).
  split; [done|]. simpl. split.
  - rewrite (getCount_run k name _ kc Hc). simpl.
    rewrite lookup_insert_ne by (by eapply member_ne_count).
    rewrite lookup_insert_eq. simpl. rewrite BN_decode_encode.
    assert (0 <= stored_count kc (db st)).
    { unfold stored_count. destruct (db st !! kc); [apply BN_decode_nonneg | done]. }
    do 2 f_equal. lia.
  - rewrite (hasMember_run k name o _ km Hi Hm). simpl.
    by rewrite lookup_insert_eq.
Qed.

Lemma addMember_atomic_witness :
  ∃ kc km,
    layout.count BID "foo" = Some kc ∧ layout.member BID "foo" sample.o1 = Some km ∧
    addMember BID false "foo" sample.o1 fresh = (Ret r_null, fresh) ∧
    addMember BID true "foo" sample.o1 fresh
    = (Ret r_true,
       {| db := <[km := []]>
                  (<[kc := BN.encode (stored_count kc (db fresh) + 1)]> (db fresh));
          batch := None;
          journal := journal fresh
            ++ [WBatch [Put kc (BN.encode (stored_count kc (db fresh) + 1));
                        Put km []]] |}) ∧
    value_of (getCount BID "foo" (snd (addMember BID true "foo" sample.o1 fresh)))
    = Some (Some (stored_count kc (db fresh) + 1)) ∧
    value_of (hasMember BID "foo" sample.o1
                (snd (addMember BID true "foo" sample.o1 fresh)))
    = Some true.
Proof.
  apply (addMember_atomic BID "foo" sample.o1 fresh).
  - vm_compute. lia.
  - reflexivity.
  - simpl. lia.
  - reflexivity.
Defined.

(** C8, as the database has it.  The count query returns [null] when no
    counter record exists for the name, and the decoded number, which is
    never negative, when one does. *)
Theorem count_absent_is_null (k : kind) (name : string) (st : AuctionDB) (kc : Buffer) :
  layout.count k name = Some kc →
  (db st !! kc = None → getCount k name st = (Ret None, st)) ∧
  (∀ raw, db st !! kc = Some raw →
     getCount k name st = (Ret (Some (BN.decode raw)), st) ∧ 0 <= BN.decode raw).
Proof.
  intros Hc. rewrite (getCount_run k name st kc Hc). split.
  - by intros ->.
  - intros raw ->. split; [done | apply BN_decode_nonneg].
Qed.

Lemma count_absent_is_null_witness :
  getBidCount "foo" fresh = (Ret None, fresh).
Proof.
  destruct (layout.count BID "foo") as [kc|] eqn:E; [|vm_compute in E; discriminate].
  by apply (count_absent_is_null BID "foo" fresh kc E).
Defined.

(** C8, as stated, fails: on a database with no record the query does
    not return the number 0. *)
Lemma count_absent_is_not_zero :
  value_of (getBidCount "foo" fresh) ≠ Some (Some 0)
  ∧ value_of (getRevealCount "foo" fresh) ≠ Some (Some 0).
Proof. split; vm_compute; discriminate. Qed.

(** C3, as the database has it.  A remove on a name with no counter
    record changes nothing and returns [null].  A remove of an outpoint
    that is not a member, on a counter of at least one, is carried out:
    it returns [true], the counter is one less and the members are what
    they were.  A counter read back is never negative. *)
Theorem removeMember_behaviour
    (k : kind) (name : string) (o : Outpoint) (st : AuctionDB) (kc km : Buffer) :
  is_uint32 (index o) = true →
  layout.count k name = Some kc → layout.member k name o = Some km →
  (db st !! kc = None → ∀ io, removeMember k io name o st = (Ret r_null, st)) ∧
  (∀ raw, db st !! kc = Some raw → 1 <= BN.decode raw →
     db st !! km = None → batch st = None →
     fst (removeMember k true name o st) = Ret r_true ∧
     value_of (getCount k name (snd (removeMember k true name o st)))
     = Some (Some (BN.decode raw - 1)) ∧
     ∀ k' name',
       value_of (getMembers k' name' (snd (removeMember k true name o st)))
       = value_of (getMembers k' name' st)) ∧
  (∀ c, value_of (getCount k name st) = Some (Some c) → 0 <= c).
Proof.
  intros Hi Hc Hm. repeat split.
  - intros E io. by apply (removeMember_absent k io name o st kc).
  - rewrite (removeMember_run k true name o st kc km raw); done.
  - rewrite (removeMember_run k true name o st kc km raw) by done. simpl.
    rewrite (getCount_run k name _ kc Hc). simpl.
    rewrite lookup_delete_ne by (by eapply member_ne_count).
    rewrite lookup_insert_eq. simpl. rewrite BN_decode_encode. do 2 f_equal. lia.
  - intros k' name'.
    rewrite (removeMember_run k true name o st kc km raw) by done. simpl.
    unfold getMembers.
    destruct (layout.member_min k' name') as [lo|] eqn:Hlo; [|done].
    destruct (layout.member_max k' name') as [hi|] eqn:Hhi; [|done].
    cbv [mbind M_bind bind mret M_ret ret encoded gets throw db].
    rewrite keys_delete_absent.
    + rewrite keys_insert_outside by (by eapply count_not_in_range).
      by destruct (mapM _ _).
    + rewrite lookup_insert_ne; [done|]. by eapply count_ne_member.
  - intros c. rewrite (getCount_run k name st kc Hc). simpl.
    destruct (db st !! kc); simpl; [|done].
    intros [= <-]. apply BN_decode_nonneg.
Qed.

Lemma removeMember_behaviour_witness :
  ∃ kc km,
    layout.count BID "foo" = Some kc ∧ layout.member BID "foo" sample.o2 = Some km ∧
    removeMember BID true "foo" sample.o2 fresh = (Ret r_null, fresh).
Proof.
  destruct (layout.count BID "foo") as [kc|] eqn:Ec; [|vm_compute in Ec; discriminate].
  destruct (layout.member BID "foo" sample.o2) as [km|] eqn:Em;
    [|vm_compute in Em; discriminate].
  exists kc, km. split; [done|]. split; [done|].
  by apply (removeMember_behaviour BID "foo" sample.o2 fresh kc km eq_refl Ec Em).
Defined.

(** C3, as stated, fails: after one bid [o1] on "foo", a remove of [o2],
    which is not a member, returns [true] and takes the counter from 1
    to 0 while [o1] is still listed. *)
Lemma remove_of_non_member_decrements :
  value_of (hasBid "foo" sample.o2 (run [CallAdd BID true "foo" sample.o1] fresh))
  = Some false ∧
  value_of (getBidCount "foo" (run [CallAdd BID true "foo" sample.o1] fresh))
  = Some (Some 1) ∧
  fst (removeBid true "foo" sample.o2 (run [CallAdd BID true "foo" sample.o1] fresh))
  = Ret r_true ∧
  value_of (getBidCount "foo"
              (snd (removeBid true "foo" sample.o2
                      (run [CallAdd BID true "foo" sample.o1] fresh))))
  = Some (Some 0) ∧
  value_of (getBids "foo"
              (snd (removeBid true "foo" sample.o2
                      (run [CallAdd BID true "foo" sample.o1] fresh))))
  = Some [sample.o1].
Proof. repeat split; vm_compute; reflexivity. Qed.

(** ** Sequences of calls *)

(** An add either writes its batch or leaves the store as it is. *)
Lemma addMember_cases k io name o st :
  (∃ kc km, layout.count k name = Some kc ∧ layout.member k name o = Some km
            ∧ is_uint32 (index o) = true ∧ batch st = None ∧ io = true)
  ∨ (fst (addMember k io name o st) ≠ Ret r_true
     ∧ db (snd (addMember k io name o st)) = db st).
Proof.
  destruct (is_uint32 (index o)) eqn:Hi;
    destruct (layout.count k name) as [kc|] eqn:Hc;
    destruct (batch st) as [ops|] eqn:Hb;
    destruct (layout.member k name o) as [km|] eqn:Hm;
    destruct io;
    try (left; by exists kc, km);
    right; unfold addMember, getCount; rewrite ?Hi, ?Hc, ?Hm;
    destruct st as [d b j]; simpl in Hb; subst b;
    cbv [mbind M_bind bind mret M_ret ret assert encoded gets start put commit
         throw batch db journal apply_batch fold_left apply_op app];
    try (destruct (d !! kc)); by split.
Qed.

Lemma removeMember_cases k io name o st :
  (∃ kc km raw, layout.count k name = Some kc ∧ layout.member k name o = Some km
                ∧ is_uint32 (index o) = true ∧ batch st = None ∧ io = true
                ∧ db st !! kc = Some raw)
  ∨ (fst (removeMember k io name o st) ≠ Ret r_true
     ∧ db (snd (removeMember k io name o st)) = db st).
Proof.
  destruct (is_uint32 (index o)) eqn:Hi;
    destruct (layout.count k name) as [kc|] eqn:Hc;
    [destruct (db st !! kc) as [raw|] eqn:E|..];
    destruct (batch st) as [ops|] eqn:Hb;
    destruct (layout.member k name o) as [km|] eqn:Hm;
    destruct io;
    try (left; by exists kc, km, raw);
    right; unfold removeMember, getCount; rewrite ?Hi, ?Hc, ?Hm;
    destruct st as [d b j]; simpl in Hb; simpl in *; subst b;
    cbv [mbind M_bind bind mret M_ret ret assert encoded gets start put del
         commit throw batch db journal apply_batch fold_left apply_op app];
    rewrite ?E; by split.
Qed.

Lemma provenance_mono (cs cs' : list call) (s : Store) :
  (∀ c, c ∈ cs → c ∈ cs') → provenance cs s → provenance cs' s.
Proof.
  intros Hsub H key Hk. destruct (H key Hk) as [?|[?|(k & name & o & io & ? & ?)]].
  - by left.
  - right. by left.
  - right. right. exists k, name, o, io. split; [done | by apply Hsub].
Qed.

Lemma provenance_insert_count cs s k name kc v :
  layout.count k name = Some kc → provenance cs s → provenance cs (<[kc := v]> s).
Proof.
  intros Hc H key [->|[_ Hk]]%lookup_insert_is_Some.
  - right. left. by exists k, name.
  - by apply H.
Qed.

Lemma provenance_delete cs s key : provenance cs s → provenance cs (delete key s).
Proof. intros H x [_ Hx]%lookup_delete_is_Some. by apply H. Qed.

Lemma step_provenance (pre : list call) (c : call) (st : AuctionDB) :
  provenance pre (db st) → provenance (pre ++ [c]) (db (snd (step c st))).
Proof.
  intros H.
  assert (provenance (pre ++ [c]) (db st)) as H'.
  { eapply provenance_mono; [|done]. intros x Hx. apply elem_of_app. by left. }
  destruct c as [k io name o|k io name o|io h]; simpl.
  - destruct (addMember_cases k io name o st)
      as [(kc & km & Hc & Hm & Hi & Hb & ->)|[_ E]].
    + rewrite (addMember_run k true name o st kc km Hi Hc Hm Hb). simpl.
      intros key [->|[_ Hk]]%lookup_insert_is_Some.
      * right. right. exists k, name, o, true. split; [done|].
        apply elem_of_app. right. apply list_elem_of_here.
      * revert key Hk. by eapply provenance_insert_count.
    + destruct (addMember k io name o st). simpl in *. by rewrite E.
  - destruct (removeMember_cases k io name o st)
      as [(kc & km & raw & Hc & Hm & Hi & Hb & -> & E)|[_ E]].
    + rewrite (removeMember_run k true name o st kc km raw Hi Hc Hm E Hb). simpl.
      apply provenance_delete. by eapply provenance_insert_count.
    + destruct (removeMember k io name o st). simpl in *. by rewrite E.
  - unfold putTip. destruct io; simpl; [|done].
    intros key [->|[_ Hk]]%lookup_insert_is_Some; [by left | by apply H'].
Qed.

Lemma run_provenance (cs pre : list call) (st : AuctionDB) :
  provenance pre (db st) → provenance (pre ++ cs) (db (run cs st)).
Proof.
  revert pre st. induction cs as [|c cs IH]; intros pre st H.
  - by rewrite app_nil_r.
  - simpl run. replace (pre ++ c :: cs) with ((pre ++ [c]) ++ cs)
      by (by rewrite <- app_assoc).
    apply IH. by apply step_provenance.
Qed.

Lemma provenance_fresh : provenance [] (db fresh).
Proof. intros key [? Hk]. simpl in Hk. by rewrite lookup_empty in Hk. Qed.

(** A scan of a store with known provenance decodes, and lists only
    outpoints added under the scanned name and kind. *)
Lemma getMembers_provenance cs k name st lo hi :
  provenance cs (db st) →
  layout.member_min k name = Some lo → layout.member_max k name = Some hi →
  ∃ l, getMembers k name st = (Ret l, st)
       ∧ length l = length (keys lo hi (db st))
       ∧ ∀ o, o ∈ l → ∃ io, CallAdd k io name o ∈ cs.
Proof.
  intros H Hlo Hhi. rewrite (getMembers_run k name st lo hi Hlo Hhi).
  assert (Forall (λ key, ∃ o io, parse k key = Some o
                                 ∧ CallAdd k io name o ∈ cs)
            (keys lo hi (db st))) as F.
  { apply Forall_forall. intros key [Hr Hk]%elem_of_keys.
    destruct (H key Hk) as [->|[(k' & name' & Hc)|(k' & name' & o & io & Hm & Hin)]].
    - by apply (T_not_in_range k name lo hi) in Hr.
    - by apply (count_not_in_range k' name' key k name lo hi) in Hr.
    - apply (member_in_range k' name' o key k name lo hi Hm Hlo Hhi) in Hr
        as [-> ->].
      exists o, io. split; [by eapply parse_member | done]. }
  destruct (mapM (parse k) (keys lo hi (db st))) as [l|] eqn:E.
  - exists l. split; [done|]. split; [symmetry; by eapply length_mapM|].
    intros o Ho. apply mapM_Some_1 in E.
    apply list_elem_of_lookup in Ho as [i Hi].
    destruct (Forall2_lookup_r _ _ _ _ _ E Hi) as (key & Hkey & Hp).
    pose proof (proj1 (Forall_lookup _ _) F i key Hkey) as (o' & io & Hp' & Hin).
    rewrite Hp in Hp'. injection Hp' as <-. by exists io.
  - exfalso. apply mapM_None_1, Exists_exists in E as (key & Hin & Hp).
    pose proof (proj1 (Forall_forall _ _) F key Hin) as (o & io & Hp' & _).
    by rewrite Hp in Hp'.
Qed.

(** C5.  Whatever calls were made on a fresh database, adds, removes and
    tip writes with any outcome of their writes, an outpoint that was
    only ever added under the name [n1] is not listed under another name
    [n2], for either index; the listing of [n2] returns, also when one
    of the two names is the start of the other. *)
Theorem prefix_isolation
    (cs : list call) (k : kind) (n1 n2 : string) (o : Outpoint) :
  n1 ≠ n2 →
  (∀ k' io n', CallAdd k' io n' o ∈ cs → n' = n1) →
  (length (String.list_byte_of_string n2) <= 255)%nat →
  ∃ l, getMembers k n2 (run cs fresh) = (Ret l, run cs fresh) ∧ o ∉ l.
Proof.
  intros Hne Honly Hlen.
  destruct (member_bounds_is_Some k n2 Hlen) as [[lo Hlo] [hi Hhi]].
  pose proof (run_provenance cs [] fresh provenance_fresh) as H. simpl in H.
  destruct (getMembers_provenance cs k n2 (run cs fresh) lo hi H Hlo Hhi)
    as (l & E & _ & Hl).
  exists l. split; [done|]. intros Ho. destruct (Hl o Ho) as [io Hin].
  by apply Honly in Hin.
Qed.

Lemma prefix_isolation_witness :
  ∃ l, getMembers BID "abc"
         (run [CallAdd BID true "ab" sample.o1;
               CallAdd BID true "abc" sample.o2] fresh)
       = (Ret l, run [CallAdd BID true "ab" sample.o1;
                      CallAdd BID true "abc" sample.o2] fresh)
       ∧ sample.o1 ∉ l.
Proof.
  apply (prefix_isolation
           [CallAdd BID true "ab" sample.o1; CallAdd BID true "abc" sample.o2]
           BID "ab" "abc" sample.o1).
  - discriminate.
  - intros k' io n' H.
    apply elem_of_cons in H as [H|H]; [by injection H|].
    apply elem_of_cons in H as [H|H]; [discriminate|].
    by apply elem_of_nil in H.
  - vm_compute. lia.
Defined.

(** ** The counter and the membership records *)

Lemma counted_fresh : counted (db fresh).
Proof.
  intros k name kc lo hi _ _ _. unfold stored_count. simpl.
  rewrite lookup_empty.
  assert (keys lo hi (∅ : Store) = []) as ->; [|done].
  apply elem_of_nil_inv. intros x [_ [? Hx]]%elem_of_keys.
  by rewrite lookup_empty in Hx.
Qed.

Lemma counted_tip (s : Store) (h : Buffer) :
  counted s → counted (<[layout.T := h]> s).
Proof.
  intros Hs k name kc lo hi Hc Hlo Hhi. unfold stored_count.
  rewrite lookup_insert_ne by (by eapply T_ne_count).
  rewrite keys_insert_outside by (by eapply T_not_in_range).
  by apply (Hs k name kc lo hi).
Qed.

Lemma counted_add (s : Store) k name o kc km :
  layout.count k name = Some kc → layout.member k name o = Some km →
  s !! km = None → counted s →
  counted (<[km := []]> (<[kc := BN.encode (stored_count kc s + 1)]> s)).
Proof.
  intros Hc Hm Hf Hs k' name' kc' lo hi Hc' Hlo Hhi.
  pose proof (Hs k' name' kc' lo hi Hc' Hlo Hhi) as Hs'.
  unfold stored_count at 1.
  rewrite lookup_insert_ne by (by eapply member_ne_count).
  destruct (decide (kc = kc')) as [<-|Hne].
  - destruct (count_inj _ _ _ _ _ Hc Hc') as [<- <-].
    rewrite lookup_insert_eq, BN_decode_encode.
    rewrite (keys_insert_fresh lo hi _ km []).
    + simpl length.
      rewrite keys_insert_outside by (by eapply count_not_in_range). lia.
    + rewrite lookup_insert_ne; [done | by eapply count_ne_member].
    + by apply (member_in_range k name o km k name lo hi).
  - rewrite lookup_insert_ne by done.
    rewrite keys_insert_outside.
    + rewrite keys_insert_outside by (by eapply count_not_in_range). done.
    + intros [<- <-]%(member_in_range k name o km k' name' lo hi); [|done..].
      rewrite Hc in Hc'. by injection Hc'.
Qed.

Lemma counted_remove (s : Store) k name o kc km raw :
  layout.count k name = Some kc → layout.member k name o = Some km →
  s !! kc = Some raw → is_Some (s !! km) → counted s →
  counted (delete km (<[kc := BN.encode (BN.decode raw - 1)]> s)).
Proof.
  intros Hc Hm Hraw Hin Hs k' name' kc' lo hi Hc' Hlo Hhi.
  pose proof (Hs k' name' kc' lo hi Hc' Hlo Hhi) as Hs'.
  rewrite delete_insert_ne by (by eapply member_ne_count).
  rewrite keys_insert_outside by (by eapply count_not_in_range).
  unfold stored_count at 1.
  destruct (decide (kc = kc')) as [<-|Hne].
  - destruct (count_inj _ _ _ _ _ Hc Hc') as [<- <-].
    rewrite lookup_insert_eq, BN_decode_encode.
    unfold stored_count in Hs'. rewrite Hraw in Hs'.
    rewrite (keys_delete_present lo hi s km) in Hs'; [simpl in Hs'; lia | done |].
    by apply (member_in_range k name o km k name lo hi).
  - rewrite lookup_insert_ne by done.
    rewrite lookup_delete_ne by (by eapply member_ne_count).
    rewrite keys_delete_outside; [done|].
    intros [<- <-]%(member_in_range k name o km k' name' lo hi); [|done..].
    rewrite Hc in Hc'. by injection Hc'.
Qed.

(** A successful call that keeps to the membership leaves no batch open
    and keeps every counter equal to its number of membership keys. *)
Lemma step_counted (c : call) (st : AuctionDB) :
  batch st = None → counted (db st) →
  fst (step c st) = true → in_discipline c st = true →
  batch (snd (step c st)) = None ∧ counted (db (snd (step c st))).
Proof.
  intros Hb Hs. destruct c as [k io name o|k io name o|io h]; simpl.
  - destruct (addMember_cases k io name o st)
      as [(kc & km & Hc & Hm & Hi & _ & ->)|[Hf _]].
    + rewrite (addMember_run k true name o st kc km Hi Hc Hm Hb). simpl.
      rewrite (hasMember_run k name o st km Hi Hm). simpl.
      intros _ Hd. apply bool_decide_eq_true in Hd. injection Hd as Hd.
      apply bool_decide_eq_false in Hd. split; [done|].
      apply (counted_add _ k name o); [done..| |done].
      destruct (db st !! km) eqn:E; [|done]. destruct Hd. by eexists.
    + destruct (addMember k io name o st) as [[[]|] ?]; simpl in *; done.
  - destruct (removeMember_cases k io name o st)
      as [(kc & km & raw & Hc & Hm & Hi & _ & -> & E)|[Hf _]].
    + rewrite (removeMember_run k true name o st kc km raw Hi Hc Hm E Hb). simpl.
      rewrite (hasMember_run k name o st km Hi Hm). simpl.
      intros _ Hd. apply bool_decide_eq_true in Hd. injection Hd as Hd.
      apply bool_decide_eq_true in Hd. split; [done|].
      by apply (counted_remove _ k name o).
    + destruct (removeMember k io name o st) as [[[]|] ?]; simpl in *; done.
  - unfold putTip. destruct io; simpl; [|done].
    intros _ _. split; [done | by apply counted_tip].
Qed.

Lemma run_counted (cs : list call) (st : AuctionDB) :
  batch st = None → counted (db st) →
  all_succeed cs st = true → disciplined cs st = true →
  counted (db (run cs st)).
Proof.
  revert st. induction cs as [|c cs IH]; intros st Hb Hs; [done|].
  simpl. intros [H1 H2]%andb_true_iff [H3 H4]%andb_true_iff.
  destruct (step_counted c st Hb Hs H1 H3) as [Hb' Hs']. by apply IH.
Qed.

(** C1, as the database has it.  After any sequence of successful calls
    on a fresh database in which every add is of an outpoint that is not
    a member and every remove of one that is, the counter of every name
    (an absent record read as zero) equals the number of outpoints
    listed for it, for both indexes. *)
Theorem count_matches_members (cs : list call) (k : kind) (name : string) :
  all_succeed cs fresh = true → disciplined cs fresh = true →
  (length (String.list_byte_of_string name) <= 255)%nat →
  ∃ n, count_or_zero k name (run cs fresh) = Some n
       ∧ members_length k name (run cs fresh) = Some n.
Proof.
  intros Hok Hd Hlen.
  destruct (member_bounds_is_Some k name Hlen) as [[lo Hlo] [hi Hhi]].
  destruct (write_ascii_is_Some name Hlen) as [n Hn].
  assert (layout.count k name = Some (layout.count_id k :: n)) as Hc
    by (apply encode1_Some; by exists n).
  pose proof (run_counted cs fresh eq_refl counted_fresh Hok Hd
                k name _ lo hi Hc Hlo Hhi) as Hcnt.
  pose proof (run_provenance cs [] fresh provenance_fresh) as Hp. simpl in Hp.
  destruct (getMembers_provenance cs k name (run cs fresh) lo hi Hp Hlo Hhi)
    as (l & E & Hl & _).
  exists (Z.of_nat (length l)). unfold count_or_zero, members_length.
  rewrite E, (getCount_run k name _ _ Hc). simpl. split; [|done].
  unfold stored_count in Hcnt. rewrite Hl.
  destruct (db (run cs fresh) !! _); simpl; by rewrite Hcnt.
Qed.

Lemma count_matches_members_witness :
  ∃ n, count_or_zero BID "foo"
         (run [CallAdd BID true "foo" sample.o1; CallAdd BID true "foo" sample.o2;
               CallRemove BID true "foo" sample.o1] fresh) = Some n
       ∧ members_length BID "foo"
           (run [CallAdd BID true "foo" sample.o1; CallAdd BID true "foo" sample.o2;
                 CallRemove BID true "foo" sample.o1] fresh) = Some n.
Proof.
  apply (count_matches_members
           [CallAdd BID true "foo" sample.o1; CallAdd BID true "foo" sample.o2;
            CallRemove BID true "foo" sample.o1] BID "foo").
  - vm_compute. reflexivity.
  - vm_compute. reflexivity.
  - vm_compute. lia.
Defined.

(** C1, as stated, fails: two successful adds of the same outpoint leave
    a counter of 2 over one membership record, and a successful remove
    of an outpoint that is not a member leaves a counter of 0 over one. *)
Lemma repeated_add_breaks_count :
  all_succeed [CallAdd BID true "foo" sample.o1;
               CallAdd BID true "foo" sample.o1] fresh = true ∧
  count_or_zero BID "foo"
    (run [CallAdd BID true "foo" sample.o1;
          CallAdd BID true "foo" sample.o1] fresh) = Some 2 ∧
  members_length BID "foo"
    (run [CallAdd BID true "foo" sample.o1;
          CallAdd BID true "foo" sample.o1] fresh) = Some 1 ∧
  all_succeed [CallAdd BID true "foo" sample.o1;
               CallRemove BID true "foo" sample.o2] fresh = true ∧
  count_or_zero BID "foo"
    (run [CallAdd BID true "foo" sample.o1;
          CallRemove BID true "foo" sample.o2] fresh) = Some 0 ∧
  members_length BID "foo"
    (run [CallAdd BID true "foo" sample.o1;
          CallRemove BID true "foo" sample.o2] fresh) = Some 1.
Proof. repeat split; vm_compute; reflexivity. Qed.

(** * Further properties of the database *)

(** ** Keys *)

(** X1.  A membership key decodes to the name, hash and index it was
    made of and parses to its outpoint; read with the tag of the other
    index it is refused. *)
Theorem member_key_round_trip (k k' : kind) (name : string) (o : Outpoint)
    (km : Buffer) :
  layout.member k name o = Some km →
  layout.member_decode k km = Some (name, hash o, index o) ∧
  parse k km = Some o ∧
  (k' ≠ k → layout.member_decode k' km = None ∧ parse k' km = None).
Proof.
  intros Hm. split; [by apply decode3_encode3|].
  split; [by eapply parse_member|].
  intros Hk. apply encode3_Some in Hm as (n & _ & _ & _ & ->).
  assert (layout.member_decode k' (layout.member_id k :: n ++ hash o
            ++ key.writeU32BE (index o)) = None) as E.
  { unfold layout.member_decode, key.decode3.
    rewrite decide_False; [done|]. intros E. by apply member_id_inj in E. }
  split; [done|]. unfold parse. by rewrite E.
Qed.

Lemma member_key_round_trip_witness :
  ∃ km, layout.member BID "foo" sample.o1 = Some km ∧
        parse BID km = Some sample.o1 ∧ parse REVEAL km = None.
Proof.
  destruct (layout.member BID "foo" sample.o1) as [km|] eqn:E;
    [|vm_compute in E; discriminate].
  exists km. split; [done|].
  destruct (member_key_round_trip BID REVEAL "foo" sample.o1 km E)
    as (_ & Hp & Hn).
  split; [done|]. by apply Hn.
Defined.

(** X2.  Two records share a key only when they are the same record: the
    membership keys of different kinds, names or outpoints differ, the
    counter keys of different kinds or names differ, and no counter key
    is a membership key or the key of the tip. *)
Theorem keys_of_records_differ
    (k k' : kind) (name name' : string) (o o' : Outpoint) (km kc : Buffer) :
  layout.member k name o = Some km → layout.count k name = Some kc →
  (layout.member k' name' o' = Some km → k = k' ∧ name = name' ∧ o = o') ∧
  (layout.count k' name' = Some kc → k = k' ∧ name = name') ∧
  layout.count k' name' ≠ Some km ∧
  layout.member k' name' o' ≠ Some kc ∧
  km ≠ layout.T ∧ kc ≠ layout.T.
Proof.
  intros Hm Hc. repeat split.
  - by destruct (member_inj _ _ _ _ _ _ _ Hm H) as (? & _).
  - by destruct (member_inj _ _ _ _ _ _ _ Hm H) as (_ & ? & _).
  - by destruct (member_inj _ _ _ _ _ _ _ Hm H) as (_ & _ & ?).
  - by destruct (count_inj _ _ _ _ _ Hc H).
  - by destruct (count_inj _ _ _ _ _ Hc H).
  - intros H. by apply (count_ne_member _ _ _ _ _ _ _ H Hm).
  - intros H. by apply (count_ne_member _ _ _ _ _ _ _ Hc H).
  - intros E. by eapply T_ne_member.
  - intros E. by eapply T_ne_count.
Qed.

Lemma keys_of_records_differ_witness :
  ∃ km kc, layout.member BID "ab" sample.o1 = Some km ∧
           layout.count BID "ab" = Some kc ∧
           layout.count REVEAL "abc" ≠ Some km ∧ km ≠ layout.T.
Proof.
  destruct (layout.member BID "ab" sample.o1) as [km|] eqn:Em;
    [|vm_compute in Em; discriminate].
  destruct (layout.count BID "ab") as [kc|] eqn:Ec;
    [|vm_compute in Ec; discriminate].
  exists km, kc.
  destruct (keys_of_records_differ BID REVEAL "ab" "abc" sample.o1 sample.o2
              km kc Em Ec) as (_ & _ & H1 & _ & H2 & _).
  done.
Defined.

(** ** Arguments that are refused *)

Lemma write_ascii_None (name : string) :
  (255 < length (String.list_byte_of_string name))%nat →
  key.write_ascii name = None.
Proof. intros H. unfold key.write_ascii. simpl. rewrite decide_False; [done | lia]. Qed.

Lemma long_name_has_no_key (k : kind) (name : string) (o : Outpoint) :
  (255 < length (String.list_byte_of_string name))%nat →
  layout.count k name = None ∧ layout.member k name o = None
  ∧ layout.member_min k name = None.
Proof.
  intros H. unfold layout.count, layout.member, layout.member_min, key.min3,
    key.encode1, key.encode3.
  by rewrite (write_ascii_None name H).
Qed.

Lemma bad_hash_has_no_key (k : kind) (name : string) (o : Outpoint) :
  length (hash o) ≠ 32%nat → layout.member k name o = None.
Proof.
  intros H. destruct (layout.member k name o) as [km|] eqn:E; [|done].
  apply encode3_Some in E as (? & _ & ? & _). done.
Qed.

(** X3.  An index that is not a uint32 is an assertion failure of add,
    remove and the membership query; a name of more than 255 bytes is
    refused by the key compiler in every function that takes a name.
    In both cases the database object is left as it was: no batch is
    opened and nothing is written. *)
Theorem malformed_arguments_are_refused
    (k : kind) (io : bool) (name : string) (o : Outpoint) (st : AuctionDB) :
  (is_uint32 (index o) = false →
     addMember k io name o st = (Throw AssertionError, st) ∧
     removeMember k io name o st = (Throw AssertionError, st) ∧
     hasMember k name o st = (Throw AssertionError, st)) ∧
  ((255 < length (String.list_byte_of_string name))%nat →
     getCount k name st = (Throw KeyError, st) ∧
     getMembers k name st = (Throw KeyError, st) ∧
     (is_uint32 (index o) = true →
        addMember k io name o st = (Throw KeyError, st) ∧
        removeMember k io name o st = (Throw KeyError, st) ∧
        hasMember k name o st = (Throw KeyError, st))).
Proof.
  split.
  - intros Hi. unfold addMember, removeMember, hasMember. by rewrite Hi.
  - intros Hn. destruct (long_name_has_no_key k name o Hn) as (Hc & Hm & Hlo).
    unfold addMember, removeMember, hasMember, getCount, getMembers.
    rewrite Hc, Hm, Hlo. split; [done|]. split; [done|].
    intros Hi. by rewrite Hi.
Qed.

Lemma malformed_arguments_are_refused_witness :
  addMember BID true "foo" {| hash := sample.H1; index := -1 |} fresh
  = (Throw AssertionError, fresh).
Proof.
  destruct (proj1 (malformed_arguments_are_refused BID true "foo"
                     {| hash := sample.H1; index := -1 |} fresh) eq_refl)
    as [H _].
  exact H.
Defined.

(** ** A batch left open *)

Lemma addMember_batch_open k io name o st ops kc :
  is_uint32 (index o) = true → layout.count k name = Some kc →
  batch st = Some ops →
  addMember k io name o st = (Throw AssertionError, st).
Proof.
  intros Hi Hc Hb. unfold addMember, getCount. rewrite Hi, Hc.
  destruct st as [d b j]. simpl in Hb. subst b.
  cbv [mbind M_bind bind mret M_ret ret assert encoded gets start batch db].
  by destruct (d !! kc).
Qed.

Lemma removeMember_batch_open k io name o st ops kc raw :
  is_uint32 (index o) = true → layout.count k name = Some kc →
  db st !! kc = Some raw → batch st = Some ops →
  removeMember k io name o st = (Throw AssertionError, st).
Proof.
  intros Hi Hc E Hb. unfold removeMember, getCount. rewrite Hi, Hc.
  destruct st as [d b j]. simpl in Hb, E. subst b.
  cbv [mbind M_bind bind mret M_ret ret assert encoded gets start batch db].
  by rewrite E.
Qed.

(** X4.  An add whose hash is not 32 bytes long faults in the key
    compiler after [start()]: nothing is written, but [this.batch] stays
    set.  From then on every add, and every remove on a name with a
    counter, fails the assertion of [start()] and changes nothing, while
    the count query answers as before. *)
Theorem bad_hash_leaves_batch_open
    (k : kind) (io : bool) (name : string) (o : Outpoint) (st : AuctionDB)
    (kc : Buffer) :
  is_uint32 (index o) = true → layout.count k name = Some kc →
  length (hash o) ≠ 32%nat → batch st = None →
  fst (addMember k io name o st) = Throw KeyError ∧
  db (snd (addMember k io name o st)) = db st ∧
  journal (snd (addMember k io name o st)) = journal st ∧
  is_Some (batch (snd (addMember k io name o st))) ∧
  (∀ k' io' name' o',
     is_uint32 (index o') = true → is_Some (layout.count k' name') →
     addMember k' io' name' o' (snd (addMember k io name o st))
     = (Throw AssertionError, snd (addMember k io name o st))) ∧
  (∀ k' io' name' o' kc',
     is_uint32 (index o') = true → layout.count k' name' = Some kc' →
     is_Some (db st !! kc') →
     removeMember k' io' name' o' (snd (addMember k io name o st))
     = (Throw AssertionError, snd (addMember k io name o st))) ∧
  (∀ k' name',
     value_of (getCount k' name' (snd (addMember k io name o st)))
     = value_of (getCount k' name' st)).
Proof.
  intros Hi Hc Hh Hb.
  assert (addMember k io name o st
          = (Throw KeyError,
             {| db := db st;
                batch := Some [Put kc (BN.encode (stored_count kc (db st) + 1))];
                journal := journal st |})) as E.
  { unfold addMember, getCount, stored_count.
    rewrite Hi, Hc, (bad_hash_has_no_key k name o Hh).
    destruct st as [d b j]. simpl in Hb. subst b.
    cbv [mbind M_bind bind mret M_ret ret assert encoded gets start put throw
         batch db journal app].
    by destruct (d !! kc). }
  rewrite E. simpl. do 3 (split; [done|]). split; [by eexists|].
  split; [|split].
  - intros k' io' name' o' Hi' [kc' Hc']. by eapply addMember_batch_open.
  - intros k' io' name' o' kc' Hi' Hc' [raw Hraw].
    by eapply removeMember_batch_open.
  - intros k' name'.
    destruct (layout.count k' name') as [kc'|] eqn:Hc'.
    + by rewrite !(getCount_run k' name' _ kc' Hc').
    + unfold getCount. by rewrite Hc'.
Qed.

Lemma bad_hash_leaves_batch_open_witness :
  fst (addBid true "foo" {| hash := [Byte.x01]; index := 0 |} fresh)
  = Throw KeyError ∧
  fst (addBid true "foo" sample.o1
         (snd (addBid true "foo" {| hash := [Byte.x01]; index := 0 |} fresh)))
  = Throw AssertionError.
Proof.
  destruct (layout.count BID "foo") as [kc|] eqn:Ec;
    [|vm_compute in Ec; discriminate].
  destruct (bad_hash_leaves_batch_open BID true "foo"
              {| hash := [Byte.x01]; index := 0 |} fresh kc)
    as (H1 & _ & _ & _ & H2 & _); [reflexivity | done | discriminate | done |].
  split; [done|].
  unfold addBid. rewrite (H2 BID true "foo" sample.o1); [done | done |].
  rewrite Ec. by eexists.
Defined.

(** ** What the reads return, as functions of the store *)

Lemma getCount_value k name st :
  value_of (getCount k name st)
  = (kc ← layout.count k name; Some (BN.decode <$> db st !! kc)).
Proof.
  destruct (layout.count k name) as [kc|] eqn:Hc.
  - by rewrite (getCount_run k name st kc Hc).
  - unfold getCount. by rewrite Hc.
Qed.

Lemma hasMember_value k name o st :
  value_of (hasMember k name o st)
  = if is_uint32 (index o)
    then km ← layout.member k name o;
         Some (bool_decide (is_Some (db st !! km)))
    else None.
Proof.
  unfold hasMember. destruct (is_uint32 (index o)); [|done].
  by destruct (layout.member k name o).
Qed.

Lemma getMembers_value k name st :
  value_of (getMembers k name st)
  = (lo ← layout.member_min k name; hi ← layout.member_max k name;
     mapM (parse k) (keys lo hi (db st))).
Proof.
  destruct (layout.member_min k name) as [lo|] eqn:Hlo.
  - destruct (layout.member_max k name) as [hi|] eqn:Hhi.
    + rewrite (getMembers_run k name st lo hi Hlo Hhi). simpl.
      by destruct (mapM _ _).
    + unfold getMembers. by rewrite Hlo, Hhi.
  - unfold getMembers. by rewrite Hlo.
Qed.

(** What a call does to the store: nothing, or the batch of an add, the
    batch of a remove, or the write of the tip. *)
Lemma step_db_cases (c : call) (st : AuctionDB) :
  db (snd (step c st)) = db st
  ∨ (∃ k io name o kc km v,
       c = CallAdd k io name o ∧ layout.count k name = Some kc
       ∧ layout.member k name o = Some km
       ∧ db (snd (step c st)) = <[km := []]> (<[kc := v]> (db st)))
  ∨ (∃ k io name o kc km v,
       c = CallRemove k io name o ∧ layout.count k name = Some kc
       ∧ layout.member k name o = Some km
       ∧ db (snd (step c st)) = delete km (<[kc := v]> (db st)))
  ∨ (∃ io h, c = CallPutTip io h
             ∧ db (snd (step c st)) = <[layout.T := h]> (db st)).
Proof.
  destruct c as [k io name o|k io name o|io h]; simpl.
  - destruct (addMember_cases k io name o st)
      as [(kc & km & Hc & Hm & Hi & Hb & ->)|[_ E]].
    + right. left. exists k, true, name, o, kc, km. eexists.
      rewrite (addMember_run k true name o st kc km Hi Hc Hm Hb). by simpl.
    + left. by destruct (addMember k io name o st).
  - destruct (removeMember_cases k io name o st)
      as [(kc & km & raw & Hc & Hm & Hi & Hb & -> & E)|[_ E]].
    + right. right. left. exists k, true, name, o, kc, km. eexists.
      rewrite (removeMember_run k true name o st kc km raw Hi Hc Hm E Hb).
      by simpl.
    + left. by destruct (removeMember k io name o st).
  - unfold putTip. destruct io; simpl; [|by left].
    right. right. right. by exists true, h.
Qed.

(** ** Calls on one name leave the others alone *)

(** X5.  An add or a remove on one index of one name, whatever its
    outcome, changes neither the count, nor the listing, nor the
    membership answers of any other name or of the other index of the
    same name; and it never changes the tip.  A write of the tip changes
    none of the counts, listings or membership answers. *)
Theorem other_records_are_untouched
    (c : call) (st : AuctionDB) (k' : kind) (name' : string) (o' : Outpoint) :
  ¬ concerns c k' name' →
  value_of (getCount k' name' (snd (step c st)))
  = value_of (getCount k' name' st) ∧
  value_of (getMembers k' name' (snd (step c st)))
  = value_of (getMembers k' name' st) ∧
  value_of (hasMember k' name' o' (snd (step c st)))
  = value_of (hasMember k' name' o' st) ∧
  (¬ writes_tip c → getTip (snd (step c st)) = getTip st).
Proof.
  intros Hc. rewrite !getCount_value, !getMembers_value, !hasMember_value.
  unfold getTip.
  destruct (step_db_cases c st)
    as [->|[(k & io & name & o & kc & km & v & -> & Hkc & Hkm & ->)
          |[(k & io & name & o & kc & km & v & -> & Hkc & Hkm & ->)
           |(io & h & -> & ->)]]]; [done|..]; simpl in Hc.
  - assert (∀ kc', layout.count k' name' = Some kc' → kc' ≠ kc) as Hne.
    { intros kc' Hc' ->. destruct (count_inj _ _ _ _ _ Hkc Hc'). by apply Hc. }
    assert (∀ km', layout.member k' name' o' = Some km' → km' ≠ km) as Hnm.
    { intros km' Hm' ->. destruct (member_inj _ _ _ _ _ _ _ Hkm Hm') as (? & ? & _).
      by apply Hc. }
    repeat split.
    + destruct (layout.count k' name') as [kc'|] eqn:Hc'; [simpl|done].
      rewrite lookup_insert_ne by (by eapply member_ne_count).
      rewrite lookup_insert_ne; [done|]. apply not_eq_sym. by apply Hne.
    + destruct (layout.member_min k' name') as [lo|] eqn:Hlo; [simpl|done].
      destruct (layout.member_max k' name') as [hi|] eqn:Hhi; [simpl|done].
      rewrite keys_insert_outside.
      * by rewrite keys_insert_outside by (by eapply count_not_in_range).
      * intros [-> ->]%(member_in_range k name o km k' name' lo hi); [|done..].
        by apply Hc.
    + destruct (is_uint32 (index o')); [|done].
      destruct (layout.member k' name' o') as [km'|] eqn:Hm'; [simpl|done].
      rewrite lookup_insert_ne by (apply not_eq_sym; by apply Hnm).
      rewrite lookup_insert_ne; [done|]. by eapply count_ne_member.
    + intros _. rewrite lookup_insert_ne by (apply not_eq_sym; by eapply T_ne_member).
      rewrite lookup_insert_ne; [done|]. apply not_eq_sym. by eapply T_ne_count.
  - assert (∀ kc', layout.count k' name' = Some kc' → kc' ≠ kc) as Hne.
    { intros kc' Hc' ->. destruct (count_inj _ _ _ _ _ Hkc Hc'). by apply Hc. }
    assert (∀ km', layout.member k' name' o' = Some km' → km' ≠ km) as Hnm.
    { intros km' Hm' ->. destruct (member_inj _ _ _ _ _ _ _ Hkm Hm') as (? & ? & _).
      by apply Hc. }
    repeat split.
    + destruct (layout.count k' name') as [kc'|] eqn:Hc'; [simpl|done].
      rewrite lookup_delete_ne by (by eapply member_ne_count).
      rewrite lookup_insert_ne; [done|]. apply not_eq_sym. by apply Hne.
    + destruct (layout.member_min k' name') as [lo|] eqn:Hlo; [simpl|done].
      destruct (layout.member_max k' name') as [hi|] eqn:Hhi; [simpl|done].
      rewrite keys_delete_outside.
      * by rewrite keys_insert_outside by (by eapply count_not_in_range).
      * intros [-> ->]%(member_in_range k name o km k' name' lo hi); [|done..].
        by apply Hc.
    + destruct (is_uint32 (index o')); [|done].
      destruct (layout.member k' name' o') as [km'|] eqn:Hm'; [simpl|done].
      rewrite lookup_delete_ne by (apply not_eq_sym; by apply Hnm).
      rewrite lookup_insert_ne; [done|]. by eapply count_ne_member.
    + intros _. rewrite lookup_delete_ne by (apply not_eq_sym; by eapply T_ne_member).
      rewrite lookup_insert_ne; [done|]. apply not_eq_sym. by eapply T_ne_count.
  - repeat split.
    + destruct (layout.count k' name') as [kc'|] eqn:Hc'; [simpl|done].
      rewrite lookup_insert_ne; [done|]. by eapply T_ne_count.
    + destruct (layout.member_min k' name') as [lo|] eqn:Hlo; [simpl|done].
      destruct (layout.member_max k' name') as [hi|] eqn:Hhi; [simpl|done].
      by rewrite keys_insert_outside by (by eapply T_not_in_range).
    + destruct (is_uint32 (index o')); [|done].
      destruct (layout.member k' name' o') as [km'|] eqn:Hm'; [simpl|done].
      rewrite lookup_insert_ne; [done|]. by eapply T_ne_member.
    + intros H. by destruct H.
Qed.

Lemma other_records_are_untouched_witness :
  value_of (getRevealCount "foo"
              (snd (step (CallAdd BID true "foo" sample.o1) fresh)))
  = value_of (getRevealCount "foo" fresh)
  ∧ value_of (getBids "fo" (snd (step (CallAdd BID true "foo" sample.o1) fresh)))
    = value_of (getBids "fo" fresh).
Proof.
  split.
  - apply (other_records_are_untouched (CallAdd BID true "foo" sample.o1)
             fresh REVEAL "foo" sample.o1).
    simpl. by intros [? _].
  - apply (other_records_are_untouched (CallAdd BID true "foo" sample.o1)
             fresh BID "fo" sample.o1).
    simpl. by intros [_ ?].
Defined.

(** ** An add undone by a remove *)

Lemma stored_count_nonneg (kc : Buffer) (s : Store) : 0 <= stored_count kc s.
Proof. unfold stored_count. destruct (s !! kc); [apply BN_decode_nonneg | done]. Qed.

(** X6.  A successful add of an outpoint that is not a member makes it a
    member, and a successful remove of it afterwards takes back what the
    add did: the outpoint is no member any more, the count (an absent
    record read as zero) is what it was, and so are every listing and
    the tip. *)
Theorem add_then_remove_restores
    (k : kind) (name : string) (o : Outpoint) (st : AuctionDB) (kc km : Buffer) :
  is_uint32 (index o) = true →
  layout.count k name = Some kc → layout.member k name o = Some km →
  batch st = None → db st !! km = None →
  fst (addMember k true name o st) = Ret r_true ∧
  value_of (hasMember k name o (snd (addMember k true name o st))) = Some true ∧
  fst (removeMember k true name o (snd (addMember k true name o st)))
  = Ret r_true ∧
  value_of (hasMember k name o
              (snd (removeMember k true name o
                      (snd (addMember k true name o st))))) = Some false ∧
  count_or_zero k name
    (snd (removeMember k true name o (snd (addMember k true name o st))))
  = count_or_zero k name st ∧
  (∀ k' name',
     value_of (getMembers k' name'
                 (snd (removeMember k true name o
                         (snd (addMember k true name o st)))))
     = value_of (getMembers k' name' st)) ∧
  getTip (snd (removeMember k true name o (snd (addMember k true name o st))))
  = getTip st.
Proof.
  intros Hi Hc Hm Hb Hf.
  rewrite (addMember_run k true name o st kc km Hi Hc Hm Hb). simpl.
  set (c := stored_count kc (db st)).
  assert (0 <= c) as Hc0 by apply stored_count_nonneg.
  set (st1 := {| db := <[km := []]> (<[kc := BN.encode (c + 1)]> (db st));
                 batch := None;
                 journal := journal st
                   ++ [WBatch [Put kc (BN.encode (c + 1)); Put km []]] |}).
  assert (db st1 !! kc = Some (BN.encode (c + 1))) as E1.
  { simpl. rewrite lookup_insert_ne by (by eapply member_ne_count).
    by rewrite lookup_insert_eq. }
  rewrite (removeMember_run k true name o st1 kc km _ Hi Hc Hm E1 eq_refl).
  simpl. rewrite BN_decode_encode.
  replace (Z.abs (c + 1) - 1) with c by lia.
  split; [done|]. split.
  { rewrite hasMember_value, Hi, Hm. simpl. by rewrite lookup_insert_eq. }
  split; [done|]. split.
  { rewrite hasMember_value, Hi, Hm. simpl. by rewrite lookup_delete_eq. }
  split.
  { unfold count_or_zero. rewrite !getCount_value, Hc. simpl.
    rewrite lookup_delete_ne by (by eapply member_ne_count).
    rewrite lookup_insert_eq. simpl. rewrite BN_decode_encode.
    subst c. unfold stored_count in *.
    destruct (db st !! kc); simpl; f_equal; lia. }
  split.
  { intros k' name'. rewrite !getMembers_value.
    destruct (layout.member_min k' name') as [lo|] eqn:Hlo; [simpl|done].
    destruct (layout.member_max k' name') as [hi|] eqn:Hhi; [simpl|done].
    f_equal. apply keys_ext. intros x Hx.
    assert (x ≠ kc) as Hxc.
    { intros ->. by eapply (count_not_in_range k name kc k' name' lo hi). }
    destruct (decide (x = km)) as [->|Hxm].
    - rewrite lookup_delete_eq, Hf. done.
    - rewrite lookup_delete_ne by done.
      rewrite lookup_insert_ne by done.
      rewrite lookup_insert_ne by done.
      by rewrite lookup_insert_ne by done. }
  unfold getTip. simpl.
  rewrite lookup_delete_ne by (apply not_eq_sym; by eapply T_ne_member).
  rewrite lookup_insert_ne by (apply not_eq_sym; by eapply T_ne_count).
  rewrite lookup_insert_ne by (apply not_eq_sym; by eapply T_ne_member).
  rewrite lookup_insert_ne; [done|]. apply not_eq_sym. by eapply T_ne_count.
Qed.

Lemma add_then_remove_restores_witness :
  value_of (hasBid "foo" sample.o1
              (snd (removeBid true "foo" sample.o1
                      (snd (addBid true "foo" sample.o1 fresh))))) = Some false.
Proof.
  destruct (layout.count BID "foo") as [kc|] eqn:Ec;
    [|vm_compute in Ec; discriminate].
  destruct (layout.member BID "foo" sample.o1) as [km|] eqn:Em;
    [|vm_compute in Em; discriminate].
  by destruct (add_then_remove_restores BID "foo" sample.o1 fresh kc km
                 eq_refl Ec Em eq_refl (lookup_empty km))
    as (_ & _ & _ & H & _).
Defined.

(** ** The tip *)

Lemma step_keeps_tip (c : call) (st : AuctionDB) :
  ¬ writes_tip c → getTip (snd (step c st)) = getTip st.
Proof.
  intros Hc. unfold getTip.
  destruct (step_db_cases c st)
    as [->|[(k & io & name & o & kc & km & v & -> & Hkc & Hkm & ->)
          |[(k & io & name & o & kc & km & v & -> & Hkc & Hkm & ->)
           |(io & h & -> & _)]]]; [done|..].
  - rewrite lookup_insert_ne by (apply not_eq_sym; by eapply T_ne_member).
    rewrite lookup_insert_ne; [done|]. apply not_eq_sym. by eapply T_ne_count.
  - rewrite lookup_delete_ne by (apply not_eq_sym; by eapply T_ne_member).
    rewrite lookup_insert_ne; [done|]. apply not_eq_sym. by eapply T_ne_count.
  - by destruct Hc.
Qed.

Lemma run_keeps_tip (cs : list call) (st : AuctionDB) :
  Forall (λ c, ¬ writes_tip c) cs → getTip (run cs st) = getTip st.
Proof.
  revert st. induction cs as [|c cs IH]; intros st H; [done|].
  apply Forall_cons in H as [Hc Hcs]. simpl.
  rewrite IH by done. by apply step_keeps_tip.
Qed.

(** X7.  A fresh database has no tip.  A tip written is the tip read,
    also after any sequence of adds and removes, whatever their
    outcomes; a later write of the tip replaces it; a write the store
    refuses returns [null] and keeps the old tip. *)
Theorem tip_round_trip (h h' : Buffer) (st : AuctionDB) (cs : list call) :
  Forall (λ c, ¬ writes_tip c) cs →
  getTip fresh = None ∧
  fst (putTip true h st) = Ret (Some h) ∧
  getTip (run cs (snd (putTip true h st))) = Some h ∧
  getTip (snd (putTip true h' (run cs (snd (putTip true h st))))) = Some h' ∧
  fst (putTip false h' (run cs (snd (putTip true h st)))) = Ret None ∧
  getTip (snd (putTip false h' (run cs (snd (putTip true h st))))) = Some h.
Proof.
  intros Hcs. split; [done|]. split; [done|].
  assert (getTip (run cs (snd (putTip true h st))) = Some h) as E.
  { rewrite run_keeps_tip by done. unfold getTip, putTip. simpl.
    by rewrite lookup_insert_eq. }
  split; [done|]. split.
  { unfold getTip, putTip. simpl. by rewrite lookup_insert_eq. }
  by split.
Qed.

Lemma tip_round_trip_witness :
  getTip (run [CallAdd BID true "foo" sample.o1;
               CallRemove BID true "foo" sample.o1]
            (snd (putTip true sample.H3 fresh))) = Some sample.H3.
Proof.
  apply (tip_round_trip sample.H3 sample.H1 fresh
           [CallAdd BID true "foo" sample.o1;
            CallRemove BID true "foo" sample.o1]).
  repeat constructor; simpl; by intros [].
Defined.

(** ** A store that refuses the write *)

(** X8.  A call whose write the store refuses does not return [true] and
    leaves the store as it was, in whatever state the database object is
    and whatever the arguments are; so does a refused [wipe()]. *)
Theorem refused_write_changes_nothing (c : call) (st : AuctionDB) :
  write_fails c →
  fst (step c st) = false ∧ db (snd (step c st)) = db st
  ∧ wipe false st = (false, st).
Proof.
  intros Hw. split; [|split; [|done]].
  - destruct c as [k io name o|k io name o|io h]; simpl in *; subst io.
    + destruct (addMember_cases k false name o st)
        as [(? & ? & _ & _ & _ & _ & ?)|[Hf _]]; [done|].
      destruct (addMember k false name o st) as [[[]|] ?]; simpl in *; done.
    + destruct (removeMember_cases k false name o st)
        as [(? & ? & ? & _ & _ & _ & _ & ? & _)|[Hf _]]; [done|].
      destruct (removeMember k false name o st) as [[[]|] ?]; simpl in *; done.
    + done.
  - destruct c as [k io name o|k io name o|io h]; simpl in *; subst io.
    + destruct (addMember_cases k false name o st)
        as [(? & ? & _ & _ & _ & _ & ?)|[_ E]]; [done|].
      by destruct (addMember k false name o st).
    + destruct (removeMember_cases k false name o st)
        as [(? & ? & ? & _ & _ & _ & _ & ? & _)|[_ E]]; [done|].
      by destruct (removeMember k false name o st).
    + done.
Qed.

Lemma refused_write_changes_nothing_witness :
  db (snd (step (CallRemove BID false "foo" sample.o1)
             (run [CallAdd BID true "foo" sample.o1] fresh)))
  = db (run [CallAdd BID true "foo" sample.o1] fresh).
Proof.
  by apply (refused_write_changes_nothing
              (CallRemove BID false "foo" sample.o1)
              (run [CallAdd BID true "foo" sample.o1] fresh)).
Defined.

(** ** [wipe()] *)

Lemma elem_of_all_keys (s : Store) (key : Buffer) :
  key ∈ all_keys s ↔ is_Some (s !! key).
Proof.
  unfold all_keys. by rewrite merge_sort_Permutation, elem_of_elements, elem_of_dom.
Qed.

Lemma apply_batch_dels (l : list Buffer) (s : Store) (key : Buffer) :
  apply_batch (Del <$> l) s !! key
  = if decide (key ∈ l) then None else s !! key.
Proof.
  unfold apply_batch. revert s. induction l as [|x l IH]; intros s.
  - destruct (decide (key ∈ [])) as [H|_]; [|done]. by apply elem_of_nil in H.
  - rewrite fmap_cons. cbn [fold_left apply_op]. rewrite IH.
    destruct (decide (key ∈ l)) as [Hin|Hin];
      destruct (decide (key ∈ x :: l)) as [Hin'|Hin']; try done.
    + destruct Hin'. by apply elem_of_cons; right.
    + apply elem_of_cons in Hin' as [->|?]; [|done]. apply lookup_delete_eq.
    + apply lookup_delete_ne. intros ->. apply Hin'. apply list_elem_of_here.
Qed.

Lemma lookup_wiped (s : Store) (key : Buffer) :
  apply_batch (wipe_batch s) s !! key
  = if is_index_key key then None else s !! key.
Proof.
  unfold wipe_batch. rewrite apply_batch_dels.
  destruct (is_index_key key) eqn:E.
  - destruct (decide _) as [|Hn]; [done|].
    destruct (s !! key) eqn:Ek; [|done]. destruct Hn.
    apply list_elem_of_filter. split; [done|]. apply elem_of_all_keys.
    by rewrite Ek.
  - rewrite decide_False; [done|].
    intros [H _]%list_elem_of_filter. congruence.
Qed.

Lemma count_key_is_index_key k name kc :
  layout.count k name = Some kc → is_index_key kc = true.
Proof. intros (n & _ & ->)%encode1_Some. by destruct k. Qed.

Lemma range_key_is_index_key k name lo hi key :
  layout.member_min k name = Some lo → layout.member_max k name = Some hi →
  in_range lo hi key → is_index_key key = true.
Proof.
  intros Hlo Hhi Hr.
  destruct (in_range_prefix k name lo hi key Hlo Hhi Hr) as (n & r & _ & ->).
  by destruct k.
Qed.

(** X9.  [wipe()] uses a batch of its own, so it runs whatever state
    [this.batch] is in.  After a wipe that the store accepts no name has
    a counter record, every listing is empty, no outpoint is a member,
    and the tip is what it was; a second wipe right after finds no
    record to delete. *)
Theorem wipe_erases_the_index (st : AuctionDB) :
  fst (wipe true st) = true ∧
  (∀ k name kc, layout.count k name = Some kc →
     getCount k name (snd (wipe true st)) = (Ret None, snd (wipe true st))) ∧
  (∀ k name,
     (length (String.list_byte_of_string name) <= 255)%nat →
     getMembers k name (snd (wipe true st)) = (Ret [], snd (wipe true st))) ∧
  (∀ k name o km, is_uint32 (index o) = true →
     layout.member k name o = Some km →
     hasMember k name o (snd (wipe true st)) = (Ret false, snd (wipe true st))) ∧
  getTip (snd (wipe true st)) = getTip st ∧
  wipe_total (snd (wipe true st)) = 0%nat.
Proof.
  split; [done|]. unfold wipe. cbn [snd]. repeat split.
  - intros k name kc Hc. rewrite (getCount_run k name _ kc Hc). cbn [db].
    by rewrite lookup_wiped, (count_key_is_index_key k name kc Hc).
  - intros k name Hn.
    destruct (member_bounds_is_Some k name Hn) as [[lo Hlo] [hi Hhi]].
    rewrite (getMembers_run k name _ lo hi Hlo Hhi). cbn [db].
    assert (keys lo hi (apply_batch (wipe_batch (db st)) (db st)) = []) as ->;
      [|done].
    apply elem_of_nil_inv. intros x [Hr [v Hx]]%elem_of_keys.
    rewrite lookup_wiped in Hx.
    by rewrite (range_key_is_index_key k name lo hi x Hlo Hhi Hr) in Hx.
  - intros k name o km Hi Hm. rewrite (hasMember_run k name o _ km Hi Hm).
    cbn [db]. rewrite lookup_wiped.
    assert (is_index_key km = true) as ->.
    { apply encode3_Some in Hm as (n & _ & _ & _ & ->). by destruct k. }
    rewrite bool_decide_eq_false_2; [done|]. by intros [? ?].
  - unfold getTip. cbn [db]. by rewrite lookup_wiped.
  - unfold wipe_total. cbn [db]. unfold wipe_batch at 1. rewrite length_fmap.
    match goal with |- length ?l = _ => assert (l = []) as ->; [|done] end.
    apply elem_of_nil_inv.
    intros x [Hk [v Hx]%elem_of_all_keys]%list_elem_of_filter.
    rewrite lookup_wiped, Hk in Hx. done.
Qed.

(** ** The listing *)

Lemma Forall2_NoDup_l {A B} (R : A → B → Prop) (l : list A) (k : list B) :
  (∀ x y y', R x y → R x y' → y = y') →
  Forall2 R l k → NoDup k → NoDup l.
Proof.
  intros Hfun H. induction H as [|x y l k Hxy H IH]; intros Hk; [constructor|].
  apply NoDup_cons in Hk as [Hy Hk]. constructor; [|by apply IH].
  intros Hx. apply list_elem_of_lookup in Hx as [i Hi].
  destruct (Forall2_lookup_l _ _ _ _ _ H Hi) as (y' & Hy' & Hxy').
  rewrite (Hfun x y y' Hxy Hxy') in Hy. apply Hy.
  by eapply list_elem_of_lookup_2.
Qed.

(** Every key a scan meets is a membership key of the scanned name. *)
Lemma scanned_keys_are_members cs k name lo hi key :
  layout.member_min k name = Some lo → layout.member_max k name = Some hi →
  key ∈ keys lo hi (db (run cs fresh)) →
  ∃ o, layout.member k name o = Some key.
Proof.
  intros Hlo Hhi [Hr Hk]%elem_of_keys.
  pose proof (run_provenance cs [] fresh provenance_fresh) as Hp. simpl in Hp.
  destruct (Hp key Hk) as [->|[(k' & name' & Hc)|(k' & name' & o & io & Hm & _)]].
  - by apply (T_not_in_range k name lo hi) in Hr.
  - by apply (count_not_in_range k' name' key k name lo hi) in Hr.
  - apply (member_in_range k' name' o key k name lo hi Hm Hlo Hhi) in Hr
      as [-> ->].
    by exists o.
Qed.

(** The keys scanned and the outpoints listed, side by side. *)
Lemma parsed_keys_encode k name (ks : list Buffer) (l : list Outpoint) :
  (∀ key, key ∈ ks → ∃ o, layout.member k name o = Some key) →
  Forall2 (λ key o, parse k key = Some o) ks l →
  Forall2 (λ o key, layout.member k name o = Some key) l ks.
Proof.
  intros Hks H. induction H as [|key o ks l Hp H IH]; [constructor|].
  constructor.
  - destruct (Hks key) as [o' Ho']; [apply list_elem_of_here|].
    rewrite (parse_member k name o' key Ho') in Hp. by injection Hp as <-.
  - apply IH. intros x Hx. apply Hks. by apply list_elem_of_further.
Qed.

(** X10.  After any sequence of calls on a fresh database, a listing
    that returns holds no outpoint twice and is ordered as the store
    orders the membership keys of its outpoints, bytewise ascending. *)
Theorem listing_is_sorted_and_duplicate_free
    (cs : list call) (k : kind) (name : string) (l : list Outpoint) :
  value_of (getMembers k name (run cs fresh)) = Some l →
  NoDup l ∧
  ∃ ks, Forall2 (λ o key, layout.member k name o = Some key) l ks
        ∧ StronglySorted key_le ks.
Proof.
  rewrite getMembers_value.
  destruct (layout.member_min k name) as [lo|] eqn:Hlo; [simpl|done].
  destruct (layout.member_max k name) as [hi|] eqn:Hhi; [simpl|done].
  intros E%mapM_Some_1.
  assert (Forall2 (λ o key, layout.member k name o = Some key)
            l (keys lo hi (db (run cs fresh)))) as F.
  { apply parsed_keys_encode; [|done].
    intros key Hkey. by eapply scanned_keys_are_members. }
  split.
  - eapply (Forall2_NoDup_l _ _ _ _ F), keys_NoDup.
  - exists (keys lo hi (db (run cs fresh))). split; [done | apply keys_sorted].
  Unshelve. intros x y y' H1 H2. simpl in *. congruence.
Qed.

Lemma listing_is_sorted_and_duplicate_free_witness :
  NoDup [sample.o1; sample.o2].
Proof.
  apply (listing_is_sorted_and_duplicate_free
           [CallAdd BID true "foo" sample.o2; CallAdd BID true "foo" sample.o1;
            CallAdd BID true "foo" sample.o2]
           BID "foo" [sample.o1; sample.o2]).
  vm_compute. reflexivity.
Defined.

(** X11.  After any sequence of calls on a fresh database the
    membership query and the listing agree: [hasBid] (or [hasReveal])
    answers [true] for an outpoint exactly when the listing of the name
    holds it. *)
Theorem hasMember_iff_listed
    (cs : list call) (k : kind) (name : string) (o : Outpoint)
    (l : list Outpoint) (b : bool) :
  value_of (getMembers k name (run cs fresh)) = Some l →
  value_of (hasMember k name o (run cs fresh)) = Some b →
  b = true ↔ o ∈ l.
Proof.
  rewrite getMembers_value, hasMember_value.
  destruct (layout.member_min k name) as [lo|] eqn:Hlo; [simpl|done].
  destruct (layout.member_max k name) as [hi|] eqn:Hhi; [simpl|done].
  destruct (is_uint32 (index o)); [|done].
  destruct (layout.member k name o) as [km|] eqn:Hm; [simpl|done].
  intros E%mapM_Some_1 [= <-].
  assert (Forall2 (λ o key, layout.member k name o = Some key)
            l (keys lo hi (db (run cs fresh)))) as F.
  { apply parsed_keys_encode; [|done].
    intros key Hkey. by eapply scanned_keys_are_members. }
  rewrite bool_decide_eq_true. split.
  - intros Hk.
    assert (km ∈ keys lo hi (db (run cs fresh))) as Hin.
    { apply elem_of_keys. split; [|done].
      by apply (member_in_range k name o km k name lo hi). }
    apply list_elem_of_lookup in Hin as [i Hi].
    destruct (Forall2_lookup_l _ _ _ _ _ E Hi) as (o' & Ho' & Hp).
    rewrite (parse_member k name o km Hm) in Hp. injection Hp as <-.
    by eapply list_elem_of_lookup_2.
  - intros Ho. apply list_elem_of_lookup in Ho as [i Hi].
    destruct (Forall2_lookup_l _ _ _ _ _ F Hi) as (key & Hkey & Hk).
    rewrite Hm in Hk. injection Hk as <-.
    apply list_elem_of_lookup_2 in Hkey. by apply elem_of_keys in Hkey as [_ ?].
Qed.

Lemma hasMember_iff_listed_witness : true = true ↔ sample.o1 ∈ [sample.o1].
Proof.
  apply (hasMember_iff_listed
           [CallAdd BID true "foo" sample.o1; CallAdd BID true "foo" sample.o2;
            CallRemove BID true "foo" sample.o2]
           BID "foo" sample.o1 [sample.o1] true).
  - vm_compute. reflexivity.
  - vm_compute. reflexivity.
Defined.

(** * Further properties of the classifier *)

Lemma on_adb_run {A} (m : M AuctionDB A) (h : HTTP) :
  on_adb m h
  = (fst (m (adb h)),
     {| options := options h; adb := snd (m (adb h)); channels := channels h;
        disk := disk h; trace := trace h |}).
Proof. unfold on_adb. by destruct (m (adb h)). Qed.

Lemma next_io_run (h : HTTP) :
  next_io h
  = (Ret (hd true (disk h)),
     {| options := options h; adb := adb h; channels := channels h;
        disk := tl (disk h); trace := trace h |}).
Proof. unfold next_io. destruct h as [o a c [|io d] t]; reflexivity. Qed.

(** X12.  A BID (or REVEAL) output whose name state is found emits
    exactly one 'bid' ('reveal') event with the name, the outpoint and
    the value, whether or not the index took the write.  When the store
    accepts the write the outpoint is a member afterwards and nothing is
    logged; when it refuses, the store is unchanged and the problem is
    logged. *)
Theorem index_event_is_emitted_whatever_the_write
    (chain : ChainDB) (txid : Buffer) (i : nat) (output : Output) (h : HTTP)
    (k : kind) (name : string) :
  type (covenant output) = kind_covenant k →
  getNameState chain (nameHash (covenant output)) = Some name →
  length txid = 32%nat → Z.of_nat i < 4294967296 →
  (length (String.list_byte_of_string name) <= 255)%nat →
  batch (adb h) = None →
  fst (classify chain txid i output h) = Ret tt ∧
  emissions (kind_event k) (added (classify chain txid i output) h)
  = [OutputEvent (Some name) {| hash := txid; index := Z.of_nat i |}
       (value output)] ∧
  (hd true (disk h) = true →
     value_of (hasMember k name {| hash := txid; index := Z.of_nat i |}
                 (adb (exec (classify chain txid i output) h))) = Some true ∧
     Logged (kind_problem k) ∉ added (classify chain txid i output) h) ∧
  (hd true (disk h) = false →
     db (adb (exec (classify chain txid i output) h)) = db (adb h) ∧
     Logged (kind_problem k) ∈ added (classify chain txid i output) h).
Proof.
  intros Ht Hn Hh Hi Hlen Hb.
  set (op := {| hash := txid; index := Z.of_nat i |}).
  destruct (keys_of_valid k name op Hlen Hh) as (kc & km & Hc & Hm).
  { simpl. lia. }
  assert (is_uint32 (index op) = true) as Hu by (apply is_uint32_true; simpl; lia).
  pose proof (addMember_run k (hd true (disk h)) name op (adb h) kc km
                Hu Hc Hm Hb) as Hadd.
  assert (classify chain txid i output h
          = (Ret tt,
             with_trace
               (λ t, t ++ (if hd true (disk h) then []
                           else [Logged (kind_problem k)])
                       ++ fanout (kind_event k)
                            (OutputEvent (Some name) op (value output)) h)
               {| options := options h;
                  adb := snd (addMember k (hd true (disk h)) name op (adb h));
                  channels := channels h; disk := tl (disk h);
                  trace := trace h |})) as E.
  { unfold classify.
    destruct k; simpl in Ht; rewrite Ht, Hn;
      rewrite bind_run, next_io_run, bind_run;
      unfold addBid, addReveal; rewrite on_adb_run; fold op; cbn [adb];
      rewrite Hadd; destruct (hd true (disk h)); cbn [fst snd]; cbv beta iota;
      rewrite bind_run; unfold when_, logger_error, tell, modify;
      cbv beta iota; cbn [mret M_ret ret]; rewrite emit_run, ?with_trace_app;
      reflexivity. }
  rewrite E. split; [done|].
  unfold exec. erewrite added_appends; [|rewrite E; reflexivity].
  rewrite E, emissions_app, emissions_fanout.
  split.
  { destruct (hd true (disk h)); destruct k; reflexivity. }
  cbn [snd]. unfold with_trace. cbn [adb]. rewrite Hadd. split.
  - intros Hd. rewrite Hd. cbn [snd]. split.
    + rewrite hasMember_value, Hu, Hm. simpl. by rewrite lookup_insert_eq.
    + unfold fanout. simpl. intros Hin.
      apply elem_of_cons in Hin as [?|Hin]; [done|].
      destruct (bool_decide _); [|by apply elem_of_nil in Hin].
      by apply list_elem_of_fmap in Hin as (? & ? & _).
  - intros Hd. rewrite Hd. cbn [snd]. split; [done|]. simpl.
    apply list_elem_of_here.
Qed.

Lemma index_event_is_emitted_whatever_the_write_witness :
  emissions "bid"
    (added (classify sample.chain sample.H1 0
              {| covenant := {| type := types.BID; nameHash := sample.NH |};
                 value := 7 |})
       (sample.server sample.plugin_options fresh))
  = [OutputEvent (Some "foo") sample.o1 7].
Proof.
  apply (index_event_is_emitted_whatever_the_write sample.chain sample.H1 0
           {| covenant := {| type := types.BID; nameHash := sample.NH |};
              value := 7 |}
           (sample.server sample.plugin_options fresh) BID "foo");
    [reflexivity | reflexivity | reflexivity | simpl; lia
    | vm_compute; lia | vm_compute; reflexivity].
Defined.

(** X13.  An output with a covenant whose name state the chain does not
    have is passed over, whatever the covenant type: the handler goes
    on, nothing is emitted, the database is left as it was and the only
    trace is the log line. *)
Theorem output_without_name_state_is_skipped
    (chain : ChainDB) (txid : Buffer) (i : nat) (output : Output) (h : HTTP) :
  type (covenant output) ≠ types.NONE →
  getNameState chain (nameHash (covenant output)) = None →
  fst (classify chain txid i output h) = Ret tt ∧
  adb (exec (classify chain txid i output) h) = adb h ∧
  disk (exec (classify chain txid i output) h) = disk h ∧
  added (classify chain txid i output) h = [Logged "Expected namestate."].
Proof.
  intros Ht Hn.
  assert (classify chain txid i output h
          = (Ret tt, with_trace (λ t, t ++ [Logged "Expected namestate."]) h))
    as E.
  { unfold classify. rewrite Hn. by destruct (type (covenant output)). }
  unfold exec. rewrite E. repeat split.
  apply added_with_trace. by rewrite E.
Qed.

Lemma output_without_name_state_is_skipped_witness :
  added (classify {| getNameState := λ _, None; getCoin := λ _ _, None |}
           sample.H1 0
           {| covenant := {| type := types.OPEN; nameHash := sample.NH |};
              value := 0 |})
    (sample.server sample.plugin_options fresh)
  = [Logged "Expected namestate."].
Proof.
  apply (output_without_name_state_is_skipped
           {| getNameState := λ _, None; getCoin := λ _ _, None |}
           sample.H1 0
           {| covenant := {| type := types.OPEN; nameHash := sample.NH |};
              value := 0 |}
           (sample.server sample.plugin_options fresh));
    [discriminate | reflexivity].
Defined.

(** The REGISTER branch up to the comparison of the counters. *)
Lemma classify_register_counts chain txid i output name b r h :
  type (covenant output) = types.REGISTER →
  getNameState chain (nameHash (covenant output)) = Some name →
  value_of (getBidCount name (adb h)) = Some b →
  value_of (getRevealCount name (adb h)) = Some r →
  classify chain txid i output h
  = match b, r with
    | Some b, Some r =>
        if b =? r then mret tt
        else if r >? b then
          logger_error "Invalid database state: more reveals than bids."
        else
          resolve "adb";;
          bids ← on_adb (getBids name);
          burnLoop chain name (value output) bids
    | _, _ => throw TypeError
    end
      (with_trace (λ t, t ++ fanout "register"
                     (OutputEvent (Some name)
                        {| hash := txid; index := Z.of_nat i |} (value output)) h)
         h).
Proof.
  intros Ht Hn Hb Hr. unfold classify. rewrite Ht, Hn.
  rewrite bind_run, (on_adb_read _ _ _ Hb (getCount_state _ _ _)).
  rewrite bind_run, (on_adb_read _ _ _ Hr (getCount_state _ _ _)).
  by rewrite bind_run, emit_run.
Qed.

(** X14.  A REGISTER output for a name whose recorded reveals are at
    least its recorded bids emits 'register' once and goes on without
    touching the database: with equal counters nothing else happens, with
    more reveals than bids the inconsistency is logged. *)
Theorem register_with_no_open_bid
    (chain : ChainDB) (txid : Buffer) (i : nat) (output : Output) (h : HTTP)
    (name : string) (b r : Z) :
  type (covenant output) = types.REGISTER →
  getNameState chain (nameHash (covenant output)) = Some name →
  value_of (getBidCount name (adb h)) = Some (Some b) →
  value_of (getRevealCount name (adb h)) = Some (Some r) →
  b <= r →
  fst (classify chain txid i output h) = Ret tt ∧
  adb (exec (classify chain txid i output) h) = adb h ∧
  added (classify chain txid i output) h
  = fanout "register"
      (OutputEvent (Some name) {| hash := txid; index := Z.of_nat i |}
         (value output)) h
    ++ (if b =? r then []
        else [Logged "Invalid database state: more reveals than bids."]).
Proof.
  intros Ht Hn Hb Hr Hle.
  pose proof (classify_register_counts chain txid i output name _ _ h
                Ht Hn Hb Hr) as E.
  unfold exec, added, exec. rewrite E. clear E.
  destruct (b =? r) eqn:E1.
  - simpl. rewrite app_nil_r. repeat split. by rewrite drop_app_length.
  - destruct (r >? b) eqn:E2; [|lia].
    unfold logger_error, tell, modify. rewrite with_trace_app.
    simpl. repeat split. by rewrite drop_app_length.
Qed.

Lemma register_with_no_open_bid_witness :
  fst (classify sample.chain sample.H3 0
         {| covenant := {| type := types.REGISTER; nameHash := sample.NH |};
            value := 7 |}
         (sample.server sample.plugin_options
            (run [CallAdd REVEAL true "foo" sample.o3]
               sample.two_bids_one_reveal)))
  = Ret tt.
Proof.

  apply (register_with_no_open_bid sample.chain sample.H3 0
           {| covenant := {| type := types.REGISTER; nameHash := sample.NH |};
              value := 7 |}
           (sample.server sample.plugin_options
              (run [CallAdd REVEAL true "foo" sample.o3]
                 sample.two_bids_one_reveal)) "foo" 2 2);
    [reflexivity | reflexivity | vm_compute; reflexivity
    | vm_compute; reflexivity | lia].
Defined.

(** X15.  A REGISTER output for a name that lacks a bid counter or a
    reveal counter, as every name the database has not seen, ends the
    handler with a TypeError: the comparison is a method call on, or
    with, [null].  The 'register' event was emitted before it. *)
Theorem register_of_unseen_name_faults
    (chain : ChainDB) (txid : Buffer) (i : nat) (output : Output) (h : HTTP)
    (name : string) (b r : option Z) :
  type (covenant output) = types.REGISTER →
  getNameState chain (nameHash (covenant output)) = Some name →
  value_of (getBidCount name (adb h)) = Some b →
  value_of (getRevealCount name (adb h)) = Some r →
  b = None ∨ r = None →
  fst (classify chain txid i output h) = Throw TypeError ∧
  added (classify chain txid i output) h
  = fanout "register"
      (OutputEvent (Some name) {| hash := txid; index := Z.of_nat i |}
         (value output)) h.
Proof.
  intros Ht Hn Hb Hr Hnone.
  pose proof (classify_register_counts chain txid i output name _ _ h
                Ht Hn Hb Hr) as E.
  assert (classify chain txid i output h
          = (Throw TypeError,
             with_trace (λ t, t ++ fanout "register"
                           (OutputEvent (Some name)
                              {| hash := txid; index := Z.of_nat i |}
                              (value output)) h) h)) as E'.
  { rewrite E. destruct Hnone as [-> | ->]; [done|]. by destruct b. }
  split; [by rewrite E'|]. apply added_with_trace. by rewrite E'.
Qed.

Lemma register_of_unseen_name_faults_witness :
  fst (classify sample.chain sample.H3 0
         {| covenant := {| type := types.REGISTER; nameHash := sample.NH |};
            value := 7 |}
         (sample.server sample.plugin_options fresh))
  = Throw TypeError.
Proof.
  apply (register_of_unseen_name_faults sample.chain sample.H3 0
           {| covenant := {| type := types.REGISTER; nameHash := sample.NH |};
              value := 7 |}
           (sample.server sample.plugin_options fresh) "foo" None None);
    [reflexivity | reflexivity | vm_compute; reflexivity
    | vm_compute; reflexivity | by left].
Defined.

(** ** What a block adds to the trace *)

Ltac known_name :=
  first [ by apply (bool_decide_unpack _)
        | split; by apply (bool_decide_unpack _)
        | let H := fresh in
          intros H; apply (bool_decide_pack _) in H; by vm_compute in H ].

Lemma classify_from_classifier chain txid i output :
  appends trace from_classifier (classify chain txid i output).
Proof.
  unfold classify.
  destruct (type (covenant output));
    repeat first
      [ rewrite resolve_adb, throw_bind
      | apply on_adb_trace
      | apply next_io_trace
      | apply emit_trace; [known_name | first [known_name | intros _ ?; known_name]]
      | apply tell_trace; by repeat constructor
      | appends_step ].
Qed.

(** The trace of a block: the effects of the classifier, then the
    'block stats' event when the handler got that far. *)
Lemma connect_shape chain block h :
  ∃ t, Forall from_classifier t ∧
       added (connect chain block) h
       = t ++ match fst (connect chain block h) with
              | Ret _ => [Emitted "block stats" (StatsEvent 0 0 0 0)]
              | Throw _ => []
              end.
Proof.
  unfold connect.
  set (loop := forM_ _ (txs block)).
  assert (appends trace from_classifier loop) as Hloop.
  { apply appends_forM. intros tx. apply appends_for_entries. intros j o.
    apply classify_from_classifier. }
  set (h2 := snd (on_adb (putTip (hd true (disk h)) (block_hash block))
                    (snd (next_io h)))).
  assert (trace h2 = trace h) as Ht2.
  { unfold h2. rewrite next_io_run, on_adb_run. reflexivity. }
  destruct (Hloop h2) as (t & E & F).
  exists t. split; [done|].
  assert (∀ r, (io ← next_io;
            on_adb (putTip io (block_hash block));;
            loop;; emit "block stats" (StatsEvent 0 0 0 0)) h = r →
          loop h2 = loop h2 →
          r = match loop h2 with
              | (Ret _, h3) => emit "block stats" (StatsEvent 0 0 0 0) h3
              | (Throw e, h3) => (Throw e, h3)
              end) as Hrun.
  { intros r <- _. rewrite bind_run, next_io_run, bind_run, on_adb_run.
    unfold putTip at 1. unfold h2. rewrite next_io_run, on_adb_run.
    destruct (hd true (disk h)); cbn [fst snd]; by rewrite bind_run. }
  rewrite (Hrun _ eq_refl eq_refl).
  apply added_appends. unfold exec. rewrite (Hrun _ eq_refl eq_refl).
  destruct (loop h2) as [[[]|e] h3]; simpl in E.
  - rewrite emit_run. simpl. rewrite E, Ht2, <- app_assoc. reflexivity.
  - simpl. by rewrite E, Ht2, app_nil_r.
Qed.

Lemma emissions_from_classifier ev (t : list effect) :
  ev ∉ classifier_events → Forall from_classifier t → emissions ev t = [].
Proof.
  intros Hev. induction 1 as [|e t He _ IH]; [done|].
  change (e :: t) with ([e] ++ t). rewrite emissions_app, IH, app_nil_r.
  destruct e as [ev' d| |]; [|done..]. simpl in He.
  unfold emissions. simpl.
  destruct (String.eqb ev' ev) eqn:E; [|done].
  apply String.eqb_eq in E. by subst.
Qed.

(** X16.  Whatever the block, the state of the server and the outcome of
    the writes, the 'connect' handler emits under no name but 'big
    spend', 'bid', 'reveal', 'register', 'revoke' and 'block stats', and
    fires on sockets nothing but the first four of these; in particular
    'open' and 'bid burned', which have a forwarding listener, are never
    emitted and never reach a socket. *)
Theorem handler_events_are_known (chain : ChainDB) (block : Block) (h : HTTP) :
  Forall (λ e, from_classifier e
               ∨ e = Emitted "block stats" (StatsEvent 0 0 0 0))
    (added (connect chain block) h) ∧
  emissions "open" (added (connect chain block) h) = [] ∧
  (∀ s ev d, Delivered s ev d ∈ added (connect chain block) h →
     ev ∈ ["big spend"; "bid"; "reveal"; "register"]).
Proof.
  destruct (connect_shape chain block h) as (t & F & E).
  assert (Forall (λ e, from_classifier e
                       ∨ e = Emitted "block stats" (StatsEvent 0 0 0 0))
            (added (connect chain block) h)) as Hall.
  { rewrite E. apply Forall_app. split.
    - eapply Forall_impl; [exact F|]. intros e He. by left.
    - destruct (fst _); [|constructor].
      constructor; [by right | constructor]. }
  split; [exact Hall|]. split.
  - rewrite E, emissions_app, (emissions_from_classifier "open" t); [|known_name|done].
    by destruct (fst _).
  - intros s ev d Hin. rewrite Forall_forall in Hall.
    destruct (Hall _ Hin) as [[Hc He]|?]; [|done].
    unfold classifier_events in Hc. unfold events in He.
    rewrite !elem_of_cons in Hc. rewrite !elem_of_cons in He.
    rewrite !elem_of_cons.
    destruct Hc as [->|[->|[->|[->|[->|Hc]]]]]; auto.
    destruct He as [He|[He|[He|[He|[He|[He|He]]]]]]; try discriminate He.
    by apply elem_of_nil in He.
Qed.

(** X17.  'block stats' is emitted once, with all four numbers zero,
    when the handler runs to its end, and not at all when an output
    ended it with a fault. *)
Theorem block_stats_close_a_completed_block
    (chain : ChainDB) (block : Block) (h : HTTP) :
  emissions "block stats" (added (connect chain block) h)
  = match fst (connect chain block h) with
    | Ret _ => [StatsEvent 0 0 0 0]
    | Throw _ => []
    end.
Proof.
  destruct (connect_shape chain block h) as (t & F & E).
  rewrite E, emissions_app,
    (emissions_from_classifier "block stats" t); [|known_name|done].
  by destruct (fst _).
Qed.

(** ** What a block sends to one socket *)

Lemma forwarded_app (a b : list effect) :
  forwarded (a ++ b) = forwarded a ++ forwarded b.
Proof. unfold forwarded. apply omap_app. Qed.

Lemma forwarded_delivered ev d (l : list nat) :
  forwarded (fmap (λ s, Delivered s ev d) l) = [].
Proof. induction l as [|s l IH]; [done|]. by rewrite fmap_cons. Qed.

Lemma forwarded_fanout ev d h :
  forwarded (fanout ev d h) = if bool_decide (ev ∈ events) then [(ev, d)] else [].
Proof.
  unfold fanout. change (Emitted ev d :: ?l) with ([Emitted ev d] ++ l).
  rewrite forwarded_app. unfold forwarded at 1. simpl.
  destruct (bool_decide (ev ∈ events)); [|done].
  by rewrite forwarded_delivered.
Qed.

Lemma filter_eq_NoDup (s : nat) (l : list nat) :
  NoDup l → filter (λ x, x = s) l = if bool_decide (s ∈ l) then [s] else [].
Proof.
  induction 1 as [|x l Hx _ IH]; [done|].
  rewrite filter_cons. destruct (decide (x = s)) as [->|Hne].
  - rewrite IH, bool_decide_eq_false_2 by done.
    rewrite bool_decide_eq_true_2; [done | apply list_elem_of_here].
  - rewrite IH. destruct (bool_decide (s ∈ l)) eqn:B.
    + apply bool_decide_eq_true_1 in B.
      rewrite bool_decide_eq_true_2; [done | by apply elem_of_cons; right].
    + apply bool_decide_eq_false_1 in B.
      rewrite bool_decide_eq_false_2; [done|].
      intros [?|?]%elem_of_cons; [by subst | done].
Qed.

Section Relays.
Context (s : nat).

Lemma relays_silent {A} (m : M HTTP A) :
  (∀ h, channels (snd (m h)) = channels h ∧ trace (snd (m h)) = trace h) →
  relays s m.
Proof.
  intros H h _. destruct (H h) as [Hc Ht]. split; [done|].
  exists []. rewrite Ht, app_nil_r. split; [done|]. by destruct (bool_decide _).
Qed.

Lemma relays_ret {A} (a : A) : relays s (mret a).
Proof. by apply relays_silent. Qed.

Lemma relays_throw {A} (e : error) : relays s (throw e : M HTTP A).
Proof. by apply relays_silent. Qed.

Lemma relays_gets {A} (f : HTTP -> A) : relays s (gets f).
Proof. by apply relays_silent. Qed.

Lemma relays_on_adb {A} (m : M AuctionDB A) : relays s (on_adb m).
Proof. apply relays_silent. intros h. by rewrite on_adb_run. Qed.

Lemma relays_next_io : relays s next_io.
Proof. apply relays_silent. intros h. by rewrite next_io_run. Qed.

Lemma relays_log msg : relays s (logger_error msg).
Proof.
  intros h _. split; [done|]. exists [Logged msg]. split; [done|].
  by destruct (bool_decide _).
Qed.

Lemma relays_emit ev d : relays s (emit ev d).
Proof.
  intros h Hnd. rewrite emit_run. split; [done|].
  exists (fanout ev d h). split; [done|].
  rewrite deliveries_fanout, forwarded_fanout.
  destruct (bool_decide (ev ∈ events)).
  - rewrite (filter_eq_NoDup s _ Hnd). by destruct (bool_decide _).
  - by destruct (bool_decide _).
Qed.

Lemma relays_bind {A B} (m : M HTTP A) (f : A -> M HTTP B) :
  relays s m → (∀ a, relays s (f a)) → relays s (m ≫= f).
Proof.
  intros Hm Hf h Hnd. rewrite bind_run.
  destruct (Hm h Hnd) as (C1 & t1 & E1 & D1).
  destruct (m h) as [[a|e] h1]; simpl in *.
  - assert (subscribers h1 = subscribers h) as Hs
      by (unfold subscribers; by rewrite C1).
    destruct (Hf a h1) as (C2 & t2 & E2 & D2); [by rewrite Hs|].
    split; [by rewrite C2|].
    exists (t1 ++ t2). rewrite E2, E1, app_assoc. split; [done|].
    rewrite deliveries_app, forwarded_app, D1, D2, Hs.
    by destruct (bool_decide _).
  - split; [done|]. by exists t1.
Qed.

Lemma relays_when (c : bool) (m : M HTTP unit) :
  relays s m → relays s (when_ c m).
Proof. destruct c; [done | intros _; apply relays_ret]. Qed.

Lemma relays_forM {A} (body : A -> M HTTP unit) (l : list A) :
  (∀ x, relays s (body x)) → relays s (forM_ body l).
Proof.
  intros Hb. induction l as [|x l IH]; simpl.
  - apply (relays_ret tt).
  - apply relays_bind; [apply Hb | intros _; exact IH].
Qed.

Lemma relays_for_entries {A} (body : nat -> A -> M HTTP unit) (l : list A) :
  (∀ i x, relays s (body i x)) → ∀ i, relays s (for_entries body i l).
Proof.
  intros Hb. induction l as [|x l IH]; intros i; simpl.
  - apply (relays_ret tt).
  - apply relays_bind; [apply Hb | intros _; apply IH].
Qed.

End Relays.

Ltac relays_step :=
  lazymatch goal with
  | |- relays _ (mbind _ _) => apply relays_bind; [| intros ?]
  | |- relays _ (mret _) => apply relays_ret
  | |- relays _ (throw _) => apply relays_throw
  | |- relays _ (gets _) => apply relays_gets
  | |- relays _ (on_adb _) => apply relays_on_adb
  | |- relays _ next_io => apply relays_next_io
  | |- relays _ (logger_error _) => apply relays_log
  | |- relays _ (emit _ _) => apply relays_emit
  | |- relays _ (when_ _ _) => apply relays_when
  | |- relays _ (forM_ _ _) => apply relays_forM; intros ?
  | |- relays _ (for_entries _ _ _) => apply relays_for_entries; intros ? ?
  | |- relays _ (burnLoop _ _ _ _) => unfold burnLoop
  | |- relays _ (resolve _) => unfold resolve
  | |- relays _ (match ?x with _ => _ end) => destruct x
  | |- relays _ (if ?x then _ else _) => destruct x
  end.

Lemma classify_relays s chain txid i output :
  relays s (classify chain txid i output).
Proof. unfold classify. repeat relays_step. Qed.

Lemma connect_relays s chain block : relays s (connect chain block).
Proof.
  unfold connect. repeat first [apply classify_relays | relays_step].
Qed.

(** X18.  While a block is handled, a socket watching the channel (the
    channel holding it once) is sent every emission that has a
    forwarding listener, under its event name and with its payload, once
    each and in the order of emission; a socket that is not watching is
    sent nothing.  The handler itself changes no subscription. *)
Theorem block_reaches_watching_sockets
    (chain : ChainDB) (block : Block) (h : HTTP) (s : nat) :
  NoDup (subscribers h) →
  subscribers (exec (connect chain block) h) = subscribers h ∧
  (s ∈ subscribers h →
     deliveries s (added (connect chain block) h)
     = forwarded (added (connect chain block) h)) ∧
  (s ∉ subscribers h → deliveries s (added (connect chain block) h) = []).
Proof.
  intros Hnd.
  destruct (connect_relays s chain block h Hnd) as (C & t & E & D).
  rewrite (added_appends _ _ _ E).
  split; [unfold subscribers, exec; by rewrite C|].
  split; intros Hs.
  - by rewrite D, bool_decide_eq_true_2.
  - by rewrite D, bool_decide_eq_false_2.
Qed.

Lemma block_reaches_watching_sockets_witness :
  deliveries 1
    (added (connect sample.chain sample.bid_block)
       (sample.server sample.plugin_options fresh))
  = forwarded
      (added (connect sample.chain sample.bid_block)
         (sample.server sample.plugin_options fresh)).
Proof.
  apply (block_reaches_watching_sockets sample.chain sample.bid_block
           (sample.server sample.plugin_options fresh) 1%nat).
  - vm_compute. repeat constructor. apply not_elem_of_nil.
  - vm_compute. apply list_elem_of_here.
Defined.

(** * Further properties of the options *)

Section Hoare.
Context {St : Type}.

Lemma hoare_bind {A B} (P R Q : St -> Prop) (m : M St A) (f : A -> M St B) :
  hoare P m R → (∀ a, hoare R (f a) Q) → hoare P (m ≫= f) Q.
Proof.
  intros Hm Hf s Hs. rewrite bind_run. specialize (Hm s Hs).
  destruct (m s) as [[a|e] s1]; [by apply Hf | done].
Qed.

Lemma hoare_preserves {A} (I : St -> Prop) (m : M St A) :
  preserves I m → hoare I m I.
Proof.
  intros H s Hs. specialize (H s Hs). by destruct (m s) as [[a|e] s1].
Qed.

Lemma hoare_weaken {A} (P Q Q' : St -> Prop) (m : M St A) :
  hoare P m Q → (∀ s, Q s → Q' s) → hoare P m Q'.
Proof.
  intros H HQ s Hs. specialize (H s Hs).
  destruct (m s) as [[a|e] s1]; [by apply HQ | done].
Qed.

Lemma hoare_assert {B} (P Q : St -> Prop) (b : bool) (f : unit -> M St B) :
  (b = true → hoare P (f tt) Q) → hoare P (assert b ≫= f) Q.
Proof.
  intros H s Hs. destruct b; [by apply (H eq_refl) | done].
Qed.

Lemma hoare_lift {A B} (P Q : St -> Prop) (o : outcome A) (f : A -> M St B) :
  (∀ a, o = Ret a → hoare P (f a) Q) → hoare P (lift (λ _, o) ≫= f) Q.
Proof.
  intros H s Hs. destruct o as [a|e]; [by apply (H a eq_refl) | done].
Qed.

Lemma hoare_when (P Q : St -> Prop) (c : bool) (m : M St unit) :
  (c = true → hoare P m Q) → (c = false → ∀ s, P s → Q s) →
  hoare P (when_ c m) Q.
Proof.
  intros Hm Hs. destruct c; [by apply Hm|].
  intros s HP. by apply Hs.
Qed.

End Hoare.

Lemma hoare_opt {B} (P Q : object -> Prop) props p (f : jsval -> M object B) :
  hoare P (f (assoc p props)) Q → hoare P (opt (JObj props) p ≫= f) Q.
Proof. intros H s Hs. exact (H s Hs). Qed.

Lemma field_insert (this : object) p q v :
  field (<[p := v]> this) q = if decide (p = q) then v else field this q.
Proof.
  unfold field. destruct (decide (p = q)) as [->|Hne].
  - by rewrite lookup_insert_eq.
  - by rewrite lookup_insert_ne.
Qed.

Lemma hoare_set {B} (P Q : object -> Prop) p v (f : unit -> M object B) :
  hoare (λ this, ∃ this0, P this0 ∧ this = <[p := v]> this0) (f tt) Q →
  hoare P (set p v ≫= f) Q.
Proof. intros H s Hs. apply (H (<[p := v]> s)). by exists s. Qed.

Lemma set_keeps_field p q v (c : jsval) :
  p ≠ q → preserves (λ this : object, field this q = c) (set p v).
Proof.
  intros Hne this H. unfold set, modify. simpl.
  rewrite field_insert. by destruct (decide (p = q)).
Qed.

Lemma preserves_and {St A} (P Q : St -> Prop) (m : M St A) :
  preserves P m → preserves Q m → preserves (λ s, P s ∧ Q s) m.
Proof. intros HP HQ s [? ?]. split; [by apply HP | by apply HQ]. Qed.

Lemma preserves_const {St A} (P : Prop) (m : M St A) : preserves (λ _, P) m.
Proof. by intros s H. Qed.

Ltac keeps :=
  repeat first
    [ apply preserves_const
    | lazymatch goal with
      | |- preserves (λ _, _ ∧ _) _ => apply preserves_and
      | |- preserves _ (set _ _) => apply set_keeps_field; discriminate
      | |- _ => preserves_step
      end ].

(** One statement that leaves the current assertion alone. *)
Ltac hframe :=
  lazymatch goal with
  | |- hoare _ (mbind _ (opt (JObj _) _)) _ => apply hoare_opt
  | |- hoare _ (mbind _ _) _ =>
      eapply hoare_bind; [apply hoare_preserves; solve [keeps] | intros ?]
  end.

Lemma HTTPOptions_run env user_options :
  HTTPOptions env user_options ∅ = fromOptions env user_options (defaults env).
Proof. reflexivity. Qed.

Lemma new_HTTPOptions_hoare env user_options this (Q : object -> Prop) :
  hoare (λ this0, this0 = defaults env) (fromOptions env user_options) Q →
  new_HTTPOptions env user_options = Ret this → Q this.
Proof.
  unfold new_HTTPOptions. rewrite HTTPOptions_run. intros H E.
  specialize (H (defaults env) eq_refl).
  destruct (fromOptions env user_options (defaults env)) as [[u|e] this'];
    [|done].
  by injection E as <-.
Qed.

(** X19.  The constructor of the server refuses, with an assertion
    error, any [options] in which [node] or [adb] is not an object; when
    it returns, the two are the caller's. *)
Theorem server_requires_node_and_adb (env : Env) (options : jsval) :
  (has_object options "node" && has_object options "adb" = false →
   new_HTTPOptions env options = Throw AssertionError) ∧
  (∀ this, new_HTTPOptions env options = Ret this →
     has_object options "node" && has_object options "adb" = true ∧
     prop options "node" = Ret (field this "node") ∧
     prop options "adb" = Ret (field this "adb")).
Proof.
  split.
  - unfold new_HTTPOptions. rewrite HTTPOptions_run. intros H.
    destruct options as [| |b|n|s|b|props]; try reflexivity.
    + destruct b; reflexivity.
    + unfold fromOptions, truthy. rewrite bind_run.
      destruct (n =? 0); reflexivity.
    + unfold fromOptions, truthy. rewrite bind_run.
      destruct (String.eqb s ""); reflexivity.
    + unfold has_object in H. unfold fromOptions.
      rewrite bind_run. simpl assert. cbv beta iota.
      change ((ret tt : M object unit) (defaults env))
        with (Ret tt, defaults env). cbv beta iota.
      change (opt (JObj props) "node" ≫= ?f) with (f (assoc "node" props)).
      cbv beta. rewrite bind_run.
      destruct (truthy (assoc "node" props) && has_type (assoc "node" props) "object");
        [|reflexivity].
      change (assert true (defaults env)) with (Ret tt, defaults env).
      cbv beta iota.
      change (opt (JObj props) "adb" ≫= ?f) with (f (assoc "adb" props)).
      cbv beta. rewrite bind_run. simpl in H. rewrite H. reflexivity.
  - intros this E. pattern this.
    eapply new_HTTPOptions_hoare; [clear this E | exact E].
    unfold fromOptions.
    apply hoare_assert. intros Ho.
    destruct options as [| |b|n|s|b|props]; simpl in Ho; try discriminate Ho.
    1-4: unfold opt at 1; apply hoare_lift; intros a Ha; vm_compute in Ha;
         injection Ha as <-; apply hoare_assert; intros [=].
    apply hoare_opt, hoare_assert. intros Hn.
    apply hoare_opt, hoare_assert. intros Ha.
    eapply hoare_weaken with
      (Q := λ this, field this "node" = assoc "node" props
                    ∧ field this "adb" = assoc "adb" props).
    2:{ intros s [-> ->]. unfold has_object. by rewrite Hn, Ha. }
    apply hoare_set.
    eapply hoare_bind with
      (R := λ this, field this "node" = assoc "node" props
                    ∧ field this "adb" = assoc "adb" props).
    { intros s (s0 & _ & ->). unfold set, modify. simpl.
      by rewrite !field_insert. }
    intros _. repeat hframe.
    apply hoare_preserves. keeps.
Qed.

Lemma server_requires_node_and_adb_witness :
  new_HTTPOptions sample.env (JObj (PCons "node" sample.node PNil))
  = Throw AssertionError.
Proof.
  apply (proj1 (server_requires_node_and_adb sample.env
                  (JObj (PCons "node" sample.node PNil)))).
  reflexivity.
Defined.

Lemma hoare_strengthen {St A} (P P' Q : St -> Prop) (m : M St A) :
  (∀ s, P s → P' s) → hoare P' m Q → hoare P m Q.
Proof. intros HP H s Hs. apply H. by apply HP. Qed.

(** The last statement, when it leaves the current assertion alone. *)
Ltac hfinish :=
  eapply hoare_weaken; [apply hoare_preserves; solve [keeps] |].

Lemma new_HTTPOptions_key env props this :
  new_HTTPOptions env (JObj props) = Ret this →
  let key := chosen_key env (assoc "apiKey" props) in
  field this "apiKey" = JStr key ∧
  field this "apiHash" = JBuf (sha256_digest env (ascii_buffer key)) ∧
  (not_nullish (assoc "apiKey" props) = true →
     assoc "apiKey" props = JStr key ∧ (String.length key <= 255)%nat).
Proof.
  intros E key. pattern this.
  eapply new_HTTPOptions_hoare; [clear this E | exact E].
  unfold fromOptions.
  set (K := assoc "apiKey" props) in *.
  apply hoare_strengthen with
    (P' := λ this, field this "apiKey" = JStr (random_key env)
                   ∧ field this "apiHash"
                     = JBuf (sha256_digest env (ascii_buffer (random_key env)))).
  { by intros s ->. }
  repeat hframe. fold K.
  eapply hoare_bind with
    (R := λ this,
       (field this "apiKey" = JStr key
        ∧ field this "apiHash" = JBuf (sha256_digest env (ascii_buffer key)))
       ∧ (not_nullish K = true → K = JStr key ∧ (String.length key <= 255)%nat)).
  - apply hoare_when.
    + intros Hnn. apply hoare_assert. intros Hty.
      destruct K as [| |b|n|k|b|ps] eqn:EK; try discriminate Hty.
      apply hoare_lift. intros len [= <-].
      apply hoare_assert. intros Hge.
      intros s _. simpl. rewrite !field_insert. simpl.
      split; [done|]. intros _. split; [done|].
      unfold js_ge in Hge. simpl in Hge. apply Z.leb_le in Hge.
      unfold key. simpl. lia.
    + intros Hn s [H1 H2]. split; [|intros Hnn; congruence].
      unfold key. by destruct K; try discriminate Hn.
  - intros _. repeat hframe. hfinish.
    intros s [[H1 H2] H3]. done.
Qed.

(** X20.  In the options of a constructed server the API key is the
    caller's when one was given, and then a string of at most 255
    characters, and the random key of the constructor otherwise; and
    [apiHash] is the digest of the ASCII bytes of that very key. *)
Theorem api_hash_is_the_digest_of_the_key
    (env : Env) (props : jsprops) (this : object) :
  new_HTTPOptions env (JObj props) = Ret this →
  field this "apiKey" = JStr (chosen_key env (assoc "apiKey" props)) ∧
  field this "apiHash"
  = JBuf (sha256_digest env
            (ascii_buffer (chosen_key env (assoc "apiKey" props)))) ∧
  (not_nullish (assoc "apiKey" props) = true →
     assoc "apiKey" props = JStr (chosen_key env (assoc "apiKey" props)) ∧
     (String.length (chosen_key env (assoc "apiKey" props)) <= 255)%nat).
Proof. intros E. exact (new_HTTPOptions_key env props this E). Qed.

Lemma api_hash_is_the_digest_of_the_key_witness :
  field (built sample.env
           (JObj (PCons "node" sample.node (PCons "adb" (JObj PNil)
                 (PCons "apiKey" (JStr "secret") PNil))))) "apiHash"
  = JBuf (sha256_digest sample.env (ascii_buffer "secret")).
Proof.
  apply (api_hash_is_the_digest_of_the_key sample.env
           (PCons "node" sample.node (PCons "adb" (JObj PNil)
              (PCons "apiKey" (JStr "secret") PNil)))).
  vm_compute. reflexivity.
Defined.

(** X21.  A constructed server skips authentication exactly when the
    caller passed [noAuth: true], or passed no API key (none, or the empty
    string) and the server listens on 127.0.0.1 or ::1.  In the second
    case an explicit [noAuth: false] of the caller is overridden. *)
Theorem local_server_without_key_skips_auth
    (env : Env) (props : jsprops) (this : object) :
  new_HTTPOptions env (JObj props) = Ret this →
  field this "noAuth"
  = JBool (negb (truthy (assoc "apiKey" props)) && is_local (field this "host")
           || match assoc "noAuth" props with JBool b => b | _ => false end).
Proof.
  intros E. pattern this.
  eapply new_HTTPOptions_hoare; [clear this E | exact E].
  unfold fromOptions.
  set (N := assoc "noAuth" props).
  apply hoare_strengthen with (P' := λ this, field this "noAuth" = JBool false).
  { by intros s ->. }
  repeat hframe. fold N.
  eapply hoare_bind with
    (R := λ this, field this "noAuth"
                  = JBool match N with JBool b => b | _ => false end).
  { apply hoare_when.
    - intros _. apply hoare_assert. intros Hty.
      destruct N; try discriminate Hty.
      intros s _. simpl. by rewrite field_insert.
    - intros Hn s Hs. by destruct N. }
  intros _. repeat hframe.
  intros s Hs. unfold when_.
  destruct (truthy (assoc "apiKey" props)); simpl; [done|].
  rewrite bind_run. unfold gets. cbv beta iota.
  destruct (field s "host") as [| |b|n|h|b|ps] eqn:Eh; simpl;
    rewrite ?Eh; simpl; try done.
  destruct (String.eqb h "127.0.0.1" || String.eqb h "::1") eqn:El; simpl.
  - rewrite !field_insert.
    destruct (decide ("noAuth" = "noAuth")); [|done].
    destruct (decide ("noAuth" = "host")); [done|].
    rewrite Eh. unfold is_local. by rewrite El.
  - rewrite Eh. unfold is_local. by rewrite El.
Qed.

Lemma local_server_without_key_skips_auth_witness :
  field (built sample.env
           (JObj (PCons "node" sample.node (PCons "adb" (JObj PNil)
                 (PCons "noAuth" (JBool false) PNil))))) "noAuth"
  = JBool true.
Proof.
  apply (local_server_without_key_skips_auth sample.env
           (PCons "node" sample.node (PCons "adb" (JObj PNil)
              (PCons "noAuth" (JBool false) PNil)))).
  vm_compute. reflexivity.
Defined.

Lemma is_port_range (v : jsval) :
  is_port v = true → ∃ n, v = JNum n ∧ 0 <= n <= 65535.
Proof.
  destruct v as [| |b|n|s|b|ps]; try discriminate. simpl.
  intros H%Z.eqb_eq. exists n. split; [done|].
  change 65535 with (Z.ones 16) in H. rewrite Z.land_ones in H by lia.
  pose proof (Z.mod_pos_bound n (2 ^ 16)) as Hb. lia.
Qed.

(** X22.  A constructed server listens on the caller's [port] when one
    was given, and then an integer from 0 to 65535, and on the RPC port
    of the node's network otherwise; the 8080 of the constructor never
    survives.  The host is the caller's, or 127.0.0.1. *)
Theorem server_listens_on_given_or_rpc_port
    (env : Env) (props : jsprops) (this : object) :
  new_HTTPOptions env (JObj props) = Ret this →
  ∃ network rpcPort,
    prop (assoc "node" props) "network" = Ret network ∧
    prop network "rpcPort" = Ret rpcPort ∧
    field this "port"
    = (if not_nullish (assoc "port" props) then assoc "port" props
       else rpcPort) ∧
    (not_nullish (assoc "port" props) = true →
       ∃ n, assoc "port" props = JNum n ∧ 0 <= n <= 65535) ∧
    field this "host"
    = (if not_nullish (assoc "host" props) then assoc "host" props
       else JStr "127.0.0.1").
Proof.
  intros E. pattern this.
  eapply new_HTTPOptions_hoare; [clear this E | exact E].
  unfold fromOptions.
  set (P := assoc "port" props). set (H := assoc "host" props).
  apply hoare_strengthen with
    (P' := λ this, field this "host" = JStr "127.0.0.1").
  { by intros s ->. }
  do 7 hframe.
  apply hoare_lift. intros network Hnet. do 3 hframe.
  apply hoare_lift. intros rpcPort Hrpc.
  eapply hoare_bind with
    (R := λ this, field this "host" = JStr "127.0.0.1"
                  ∧ field this "port" = rpcPort).
  { intros s Hs. simpl. by rewrite !field_insert. }
  intros _. repeat hframe. fold H.
  eapply hoare_bind with
    (R := λ this, field this "host" = (if not_nullish H then H
                                       else JStr "127.0.0.1")
                  ∧ field this "port" = rpcPort).
  { apply hoare_when.
    - intros Hnn. apply hoare_assert. intros _.
      intros s [_ Hp]. simpl. rewrite !field_insert. simpl. by rewrite Hnn.
    - intros Hn s Hs. by rewrite Hn. }
  intros _. apply hoare_opt. fold P.
  eapply hoare_bind with
    (R := λ this, (field this "host" = (if not_nullish H then H
                                        else JStr "127.0.0.1")
                   ∧ field this "port" = (if not_nullish P then P else rpcPort))
                  ∧ (not_nullish P = true → is_port P = true)).
  { apply hoare_when.
    - intros Hnn. apply hoare_assert. intros Hport.
      intros s [Hh _]. simpl. rewrite !field_insert. simpl. by rewrite Hnn.
    - intros Hn s Hs. rewrite Hn. split; [done|]. intros [=]. }
  intros _. repeat hframe. hfinish.
  intros s [[Hh Hp] Hr]. exists network, rpcPort.
  split; [done|]. split; [done|]. split; [done|]. split; [|done].
  intros Hnn. by apply is_port_range, Hr.
Qed.

Lemma server_listens_on_given_or_rpc_port_witness :
  ∃ network rpcPort,
    prop (assoc "node" (PCons "node" sample.node (PCons "adb" (JObj PNil) PNil)))
      "network" = Ret network ∧
    prop network "rpcPort" = Ret rpcPort ∧
    field (built sample.env sample.plugin_options) "port" = rpcPort.
Proof.
  destruct (server_listens_on_given_or_rpc_port sample.env
              (PCons "node" sample.node (PCons "adb" (JObj PNil) PNil))
              (built sample.env sample.plugin_options))
    as (network & rpcPort & H1 & H2 & H3 & _);
    [vm_compute; reflexivity|].
  exists network, rpcPort. split; [exact H1|]. split; [exact H2|]. exact H3.
Defined.

(** * The database under the handler *)

Lemma preserves_forM {St A} (Q : St -> Prop) (body : A -> M St unit) (l : list A) :
  (∀ x, preserves Q (body x)) → preserves Q (forM_ body l).
Proof.
  intros Hb. induction l as [|x l IH]; simpl.
  - apply (preserves_ret Q tt).
  - apply preserves_bind; [apply Hb | intros _; exact IH].
Qed.

Lemma preserves_for_entries {St A} (Q : St -> Prop)
    (body : nat -> A -> M St unit) (l : list A) :
  (∀ i x, preserves Q (body i x)) → ∀ i, preserves Q (for_entries body i l).
Proof.
  intros Hb. induction l as [|x l IH]; intros i; simpl.
  - apply (preserves_ret Q tt).
  - apply preserves_bind; [apply Hb | intros _; apply IH].
Qed.

Section UnderHandler.
Context (Q : Store -> Prop) (HQ : kept_by_adds Q).

Lemma preserves_on_adb {A} (m : M AuctionDB A) :
  preserves (λ st, Q (db st)) m → preserves (λ h, Q (db (adb h))) (on_adb m).
Proof. intros H h Hh. rewrite on_adb_run. simpl. by apply H. Qed.

Lemma preserves_same_adb {A} (m : M HTTP A) :
  (∀ h, adb (snd (m h)) = adb h) → preserves (λ h, Q (db (adb h))) m.
Proof. intros H h Hh. by rewrite H. Qed.

Lemma addMember_preserves k io name o :
  preserves (λ st, Q (db st)) (addMember k io name o).
Proof.
  intros st Hst.
  destruct (addMember_cases k io name o st)
    as [(kc & km & Hc & Hm & Hi & Hb & ->)|[_ E]].
  - rewrite (addMember_run k true name o st kc km Hi Hc Hm Hb). simpl.
    by eapply HQ.
  - by rewrite E.
Qed.

Lemma classify_preserves chain txid i output :
  preserves (λ h, Q (db (adb h))) (classify chain txid i output).
Proof.
  unfold classify.
  destruct (type (covenant output));
    repeat lazymatch goal with
           | |- preserves _ (resolve "adb" ≫= _) =>
               rewrite resolve_adb, throw_bind
           | |- preserves _ (on_adb (addBid _ _ _)) =>
               apply preserves_on_adb, addMember_preserves
           | |- preserves _ (on_adb (addReveal _ _ _)) =>
               apply preserves_on_adb, addMember_preserves
           | |- preserves _ (on_adb (getBidCount _)) =>
               apply preserves_on_adb; intros st Hst; unfold getBidCount;
               by rewrite getCount_state
           | |- preserves _ (on_adb (getRevealCount _)) =>
               apply preserves_on_adb; intros st Hst; unfold getRevealCount;
               by rewrite getCount_state
           | |- preserves _ next_io =>
               apply preserves_same_adb; intros h; by rewrite next_io_run
           | |- preserves _ (emit _ _) =>
               apply preserves_same_adb; intros h; by rewrite emit_run
           | |- preserves _ (logger_error _) => by apply preserves_same_adb
           | |- preserves _ (match ?x with _ => _ end) => destruct x
           | |- preserves _ (if ?x then _ else _) => destruct x
           | |- _ => preserves_step
           end.
Qed.

Lemma loop_preserves chain block :
  preserves (λ h, Q (db (adb h)))
    (forM_ (λ tx : TX, for_entries (classify chain (tx_hash tx)) 0 (outputs tx))
       (txs block);;
     emit "block stats" (StatsEvent 0 0 0 0)).
Proof.
  apply preserves_bind.
  - apply preserves_forM. intros tx. apply preserves_for_entries.
    intros j o. apply classify_preserves.
  - intros _. apply preserves_same_adb. intros h. by rewrite emit_run.
Qed.

End UnderHandler.

Lemma connect_run chain block h :
  connect chain block h
  = (forM_ (λ tx : TX, for_entries (classify chain (tx_hash tx)) 0 (outputs tx))
       (txs block);;
     emit "block stats" (StatsEvent 0 0 0 0))
      {| options := options h;
         adb := snd (putTip (hd true (disk h)) (block_hash block) (adb h));
         channels := channels h; disk := tl (disk h); trace := trace h |}.
Proof.
  unfold connect. rewrite bind_run, next_io_run, bind_run, on_adb_run.
  unfold putTip. by destruct (hd true (disk h)).
Qed.

(** X23.  After a block was handled its hash is the tip, provided the
    store took the write of the tip, which comes first; nothing the
    handler does afterwards touches the tip, however it ends.  When the
    store refused the write the tip is the one of before. *)
Theorem handled_block_is_the_tip (chain : ChainDB) (block : Block) (h : HTTP) :
  getTip (adb (exec (connect chain block) h))
  = if hd true (disk h) then Some (block_hash block) else getTip (adb h).
Proof.
  unfold exec. rewrite connect_run.
  set (x := if hd true (disk h) then Some (block_hash block)
            else getTip (adb h)).
  apply (loop_preserves (λ s, s !! layout.T = x)).
  - intros s k name o kc km v Hc Hm Hs.
    rewrite lookup_insert_ne by (apply not_eq_sym; by eapply T_ne_member).
    rewrite lookup_insert_ne; [done|]. apply not_eq_sym. by eapply T_ne_count.
  - unfold x, putTip, getTip. simpl.
    destruct (hd true (disk h)); [|done]. simpl. by rewrite lookup_insert_eq.
Qed.

(** X24.  The handler of 'connect' only ever adds to the store: a record
    that is there before a block is handled is there afterwards, whatever
    the block holds and however the handler ends. *)
Theorem handler_deletes_nothing
    (chain : ChainDB) (block : Block) (h : HTTP) (key : Buffer) :
  is_Some (db (adb h) !! key) →
  is_Some (db (adb (exec (connect chain block) h)) !! key).
Proof.
  intros Hk. unfold exec. rewrite connect_run.
  apply (loop_preserves (λ s, is_Some (s !! key))).
  - intros s k name o kc km v _ _ Hs.
    rewrite !lookup_insert_is_Some'. auto.
  - unfold putTip. simpl. destruct (hd true (disk h)); [|done]. simpl.
    rewrite lookup_insert_is_Some'. auto.
Qed.

Lemma handler_deletes_nothing_witness :
  is_Some (db (adb (exec (connect sample.chain sample.register_block)
                      (sample.server sample.plugin_options
                         sample.two_bids_one_reveal)))
           !! default [] (layout.count BID "foo")).
Proof.
  apply (handler_deletes_nothing sample.chain sample.register_block
           (sample.server sample.plugin_options sample.two_bids_one_reveal)).
  vm_compute. by eexists.
Defined.

(** * Events and outputs *)

Lemma appends_weaken {St X A} (proj : St -> list X) (P P' : X -> Prop)
    (m : M St A) :
  (∀ x, P x → P' x) → appends proj P m → appends proj P' m.
Proof.
  intros HP H s. destruct (H s) as (t & E & F). exists t. split; [done|].
  by eapply Forall_impl.
Qed.

Lemma appends_forM_elem {St X A} (proj : St -> list X) (P : X -> Prop)
    (body : A -> M St unit) (l : list A) :
  (∀ x, x ∈ l → appends proj P (body x)) → appends proj P (forM_ body l).
Proof.
  induction l as [|x l IH]; intros Hb; simpl.
  - apply (appends_ret proj P tt).
  - apply appends_bind.
    + apply Hb, list_elem_of_here.
    + intros _. apply IH. intros y Hy. apply Hb. by apply elem_of_cons; right.
Qed.

Lemma appends_for_entries_lookup {St X A} (proj : St -> list X) (P : X -> Prop)
    (body : nat -> A -> M St unit) (l : list A) (start : nat) :
  (∀ i x, l !! i = Some x → appends proj P (body (start + i)%nat x)) →
  appends proj P (for_entries body start l).
Proof.
  revert start. induction l as [|x l IH]; intros start Hb; simpl.
  - apply (appends_ret proj P tt).
  - apply appends_bind.
    + specialize (Hb 0%nat x eq_refl). by rewrite Nat.add_0_r in Hb.
    + intros _. apply IH. intros i y Hy.
      specialize (Hb (S i) y Hy). by rewrite Nat.add_succ_r in Hb.
Qed.

Lemma classify_from_output chain txid i output :
  appends trace (from_output chain txid i output) (classify chain txid i output).
Proof.
  unfold classify.
  destruct (type (covenant output)) eqn:Et;
    [|destruct (getNameState chain (nameHash (covenant output)))
        as [name|] eqn:En..];
    repeat first
      [ rewrite resolve_adb, throw_bind
      | apply on_adb_trace
      | apply next_io_trace
      | apply emit_trace;
        [ unfold from_output, tells_of; rewrite Et, ?En; by split
        | intros _ ?; unfold from_output, tells_of; rewrite Et, ?En; by split ]
      | apply tell_trace; by repeat constructor
      | appends_step ].
Qed.

(** X25.  The handler announces nothing that is not in the block: every
    event it emits, and every delivery to a socket, is the closing
    'block stats' or tells of an output of a transaction of the block,
    under the event name of the covenant type of that output and with
    its name, its outpoint (the hash of the transaction and the position
    of the output in it) and its value. *)
Theorem events_tell_of_outputs_of_the_block
    (chain : ChainDB) (block : Block) (h : HTTP) :
  Forall (from_block chain block) (added (connect chain block) h).
Proof.
  assert (appends trace (from_block chain block) (connect chain block)) as H.
  { unfold connect.
    apply appends_bind; [apply next_io_trace | intros io].
    apply appends_bind; [apply on_adb_trace | intros _].
    apply appends_bind.
    - apply appends_forM_elem. intros tx Htx.
      apply appends_for_entries_lookup. intros i output Hi. simpl.
      eapply appends_weaken; [|apply classify_from_output].
      intros [ev d|s ev d|msg] He; simpl in *; [| |done];
        right; by exists tx, i, output.
    - intros _. apply emit_trace; [by left | intros _ s; by left]. }
  destruct (H h) as (t & E & F). by rewrite (added_appends _ _ _ E).
Qed.

(** * Where the handler can fault *)

Section Succeeds.
Context {St : Type} (I : St -> Prop).

Lemma succeeds_silent {A} (m : M St A) (a : A) :
  (∀ s, m s = (Ret a, s)) → succeeds I m.
Proof. intros H s Hs. rewrite H. split; [by exists a | done]. Qed.

Lemma succeeds_ret {A} (a : A) : succeeds I (mret a).
Proof. by apply (succeeds_silent _ a). Qed.

Lemma succeeds_gets {A} (f : St -> A) : succeeds I (gets f).
Proof. intros s Hs. split; [by eexists | done]. Qed.

Lemma succeeds_bind {A B} (m : M St A) (f : A -> M St B) :
  succeeds I m → (∀ a, succeeds I (f a)) → succeeds I (m ≫= f).
Proof.
  intros Hm Hf s Hs. rewrite bind_run.
  destruct (Hm s Hs) as [[a Ha] Hi].
  destruct (m s) as [[a'|e] s1]; simpl in *; [|done].
  by apply Hf.
Qed.

Lemma succeeds_when (c : bool) (m : M St unit) :
  succeeds I m → succeeds I (when_ c m).
Proof. destruct c; [done | intros _; apply succeeds_ret]. Qed.

Lemma succeeds_forM_elem {A} (body : A -> M St unit) (l : list A) :
  (∀ x, x ∈ l → succeeds I (body x)) → succeeds I (forM_ body l).
Proof.
  induction l as [|x l IH]; intros Hb; simpl.
  - apply (succeeds_ret tt).
  - apply succeeds_bind.
    + apply Hb, list_elem_of_here.
    + intros _. apply IH. intros y Hy. apply Hb. by apply elem_of_cons; right.
Qed.

Lemma succeeds_for_entries_lookup {A} (body : nat -> A -> M St unit)
    (l : list A) (start : nat) :
  (∀ i x, l !! i = Some x → succeeds I (body (start + i)%nat x)) →
  succeeds I (for_entries body start l).
Proof.
  revert start. induction l as [|x l IH]; intros start Hb; simpl.
  - apply (succeeds_ret tt).
  - apply succeeds_bind.
    + specialize (Hb 0%nat x eq_refl). by rewrite Nat.add_0_r in Hb.
    + intros _. apply IH. intros i y Hy.
      specialize (Hb (S i) y Hy). by rewrite Nat.add_succ_r in Hb.
Qed.

End Succeeds.

Lemma succeeds_same_adb {A} (m : M HTTP A) :
  (∀ h, ∃ a, fst (m h) = Ret a) → (∀ h, adb (snd (m h)) = adb h) →
  succeeds settled m.
Proof.
  intros Hr Ha h Hh. split; [apply Hr|]. unfold settled. by rewrite Ha.
Qed.

Lemma emit_succeeds ev d : succeeds settled (emit ev d).
Proof.
  apply succeeds_same_adb; intros h; rewrite emit_run; [by exists tt | done].
Qed.

Lemma next_io_succeeds : succeeds settled next_io.
Proof.
  apply succeeds_same_adb; intros h; rewrite next_io_run; [by eexists | done].
Qed.

Lemma addMember_succeeds k io name o :
  (length (String.list_byte_of_string name) <= 255)%nat →
  length (hash o) = 32%nat → 0 <= index o < 4294967296 →
  succeeds settled (on_adb (addMember k io name o)).
Proof.
  intros Hlen Hh Hi h Hb. unfold settled in *.
  destruct (keys_of_valid k name o Hlen Hh Hi) as (kc & km & Hc & Hm).
  assert (is_uint32 (index o) = true) as Hu by by apply is_uint32_true.
  rewrite on_adb_run, (addMember_run k io name o (adb h) kc km Hu Hc Hm Hb).
  destruct io; simpl; (split; [by eexists | done]).
Qed.

Lemma classify_succeeds chain txid i output :
  type (covenant output) ≠ types.REGISTER →
  length txid = 32%nat → Z.of_nat i < 4294967296 →
  (∀ name, getNameState chain (nameHash (covenant output)) = Some name →
     (length (String.list_byte_of_string name) <= 255)%nat) →
  succeeds settled (classify chain txid i output).
Proof.
  intros Ht Hh Hi Hn. unfold classify.
  destruct (type (covenant output)) eqn:Et; [| |
    destruct (getNameState chain (nameHash (covenant output)))
      as [name|] eqn:En..]; try done;
    repeat lazymatch goal with
           | |- succeeds _ (mbind _ _) => apply succeeds_bind; [|intros ?]
           | |- succeeds _ (mret _) => apply succeeds_ret
           | |- succeeds _ (gets _) => apply succeeds_gets
           | |- succeeds _ (when_ _ _) => apply succeeds_when
           | |- succeeds _ (emit _ _) => apply emit_succeeds
           | |- succeeds _ next_io => apply next_io_succeeds
           | |- succeeds _ (logger_error _) =>
               apply succeeds_same_adb; intros h; [by exists tt | done]
           | |- succeeds _ (on_adb (addBid _ _ _)) =>
               apply addMember_succeeds; [by apply Hn | done | simpl; lia]
           | |- succeeds _ (on_adb (addReveal _ _ _)) =>
               apply addMember_succeeds; [by apply Hn | done | simpl; lia]
           | |- succeeds _ (match ?x with _ => _ end) => destruct x
           end.
Qed.

(** X26.  The handler of 'connect' can fault on a REGISTER output only:
    with no batch left open, a block of well-formed transactions none of
    whose outputs is a REGISTER is handled to the end, whatever the store
    answers to the writes, and no batch is left open after it. *)
Theorem handler_faults_on_register_only
    (chain : ChainDB) (block : Block) (h : HTTP) :
  settled h →
  (∀ tx, tx ∈ txs block →
     well_formed chain tx ∧
     ∀ output, output ∈ outputs tx → type (covenant output) ≠ types.REGISTER) →
  fst (connect chain block h) = Ret tt ∧
  settled (exec (connect chain block) h).
Proof.
  intros Hs Hblock.
  assert (succeeds settled (connect chain block)) as H.
  { unfold connect.
    apply succeeds_bind; [apply next_io_succeeds | intros io].
    apply succeeds_bind.
    { intros h' Hh'. rewrite on_adb_run. unfold settled, putTip in *.
      destruct io; simpl; (split; [by eexists | done]). }
    intros _. apply succeeds_bind; [|intros _; apply emit_succeeds].
    apply succeeds_forM_elem. intros tx Htx.
    destruct (Hblock tx Htx) as [(Hh & Hlen & Hnames) Hreg].
    apply succeeds_for_entries_lookup. intros i output Hi. simpl.
    pose proof (lookup_lt_Some _ _ _ Hi) as Hlt.
    assert (output ∈ outputs tx) as Hin by by eapply list_elem_of_lookup_2.
    apply classify_succeeds; [by apply Hreg | done | lia |].
    intros name. by apply Hnames. }
  destruct (H h Hs) as [[[] E] Hb]. by split.
Qed.

Lemma handler_faults_on_register_only_witness :
  fst (connect sample.chain sample.bid_block
         (sample.server sample.plugin_options fresh)) = Ret tt.
Proof.
  apply (handler_faults_on_register_only sample.chain sample.bid_block
           (sample.server sample.plugin_options fresh)).
  - reflexivity.
  - intros tx ->%list_elem_of_singleton. split.
    + split; [reflexivity|]. split; [simpl; lia|].
      intros output name _ [= <-]. vm_compute. lia.
    + intros output ->%list_elem_of_singleton. discriminate.
Defined.

(** * Properties of the sockets *)

Lemma members_join name' s name h :
  members name' (snd (join s name h))
  = if decide (name = name')
    then (if decide (s ∈ members name h) then members name h
          else members name h ++ [s])
    else members name' h.
Proof.
  unfold members, join, modify, with_channels. simpl.
  destruct (decide (s ∈ default [] (channels h !! name))) as [Hin|Hin].
  - by destruct (decide (name = name')) as [->|].
  - destruct (decide (name = name')) as [->|Hne].
    + by rewrite lookup_insert_eq.
    + by rewrite lookup_insert_ne.
Qed.

Lemma members_leave name' s name h :
  members name' (snd (leave s name h))
  = if decide (name = name')
    then filter (λ x, x ≠ s) (members name h)
    else members name' h.
Proof.
  unfold members, leave, modify, with_channels. simpl.
  destruct (channels h !! name) as [l|] eqn:E.
  - destruct (filter (λ x, x ≠ s) l) as [|y l'] eqn:F.
    + destruct (decide (name = name')) as [->|Hne].
      * rewrite lookup_delete_eq. simpl. by rewrite F.
      * by rewrite lookup_delete_ne.
    + destruct (decide (name = name')) as [->|Hne].
      * rewrite lookup_insert_eq. simpl. by rewrite F.
      * by rewrite lookup_insert_ne.
  - destruct (decide (name = name')) as [->|Hne]; [|done].
    by rewrite E.
Qed.

Lemma subscribers_members h : subscribers h = members "auction-notify" h.
Proof. reflexivity. Qed.

Lemma subscribers_watch s h :
  subscribers (snd (join s "auction-notify" h))
  = if decide (s ∈ subscribers h) then subscribers h else subscribers h ++ [s].
Proof. rewrite !subscribers_members, members_join. reflexivity. Qed.

Lemma authed_watch s h :
  members "auth" (snd (join s "auction-notify" h)) = members "auth" h.
Proof. rewrite members_join. reflexivity. Qed.

Lemma subscribers_auth s h :
  subscribers (snd (join s "auth" h)) = subscribers h.
Proof. rewrite !subscribers_members, members_join. reflexivity. Qed.

Lemma authed_auth s h :
  members "auth" (snd (join s "auth" h))
  = if decide (s ∈ members "auth" h) then members "auth" h
    else members "auth" h ++ [s].
Proof. rewrite members_join. reflexivity. Qed.

Lemma subscribers_unwatch s h :
  subscribers (snd (leave s "auction-notify" h))
  = filter (λ x, x ≠ s) (subscribers h).
Proof. rewrite !subscribers_members, members_leave. reflexivity. Qed.

Lemma authed_unwatch s h :
  members "auth" (snd (leave s "auction-notify" h)) = members "auth" h.
Proof. rewrite members_leave. reflexivity. Qed.

Lemma options_join s name h : options (snd (join s name h)) = options h.
Proof. reflexivity. Qed.

Lemma options_leave s name h : options (snd (leave s name h)) = options h.
Proof. reflexivity. Qed.

Lemma check_key_options env args h h' :
  options h = options h' → check_key env args h = check_key env args h'.
Proof. unfold check_key. by intros ->. Qed.

Lemma hook_http s ev f io : http (snd (hook s ev f io)) = http io.
Proof. unfold hook. by destruct (bool_decide _). Qed.

(** A hook bound on [s] shows up on [s] only, under its own name. *)
Lemma hook_lookup s ev f io s' bound ev' f' :
  hooks (snd (hook s ev f io)) !! s' = Some bound → bound !! ev' = Some f' →
  (∃ bound0, hooks io !! s' = Some bound0 ∧ bound0 !! ev' = Some f')
  ∨ (s' = s ∧ ev' = ev ∧ f' = f).
Proof.
  unfold hook. destruct (bool_decide _); simpl.
  { intros H1 H2. left. by exists bound. }
  destruct (decide (s = s')) as [->|Hne].
  - rewrite lookup_insert_eq. intros [= <-].
    destruct (decide (ev = ev')) as [->|Hev].
    + rewrite lookup_insert_eq. intros [= <-]. by right.
    + rewrite lookup_insert_ne by done. intros H2. left.
      destruct (hooks io !! s') as [b0|] eqn:E; simpl in H2.
      * by exists b0.
      * by rewrite lookup_empty in H2.
  - rewrite lookup_insert_ne by done. intros H1 H2. left. by exists bound.
Qed.

Lemma handleAuth_http s io : http (snd (handleAuth s io)) = http io.
Proof.
  unfold handleAuth.
  pose proof (hook_http s "watch auction-notify" WatchHook io) as H1.
  destruct (hook s "watch auction-notify" WatchHook io) as [[] io1];
    simpl in *; [|done].
  by rewrite hook_http.
Qed.

Lemma handleAuth_lookup s io s' bound ev f :
  hooks (snd (handleAuth s io)) !! s' = Some bound → bound !! ev = Some f →
  (∃ bound0, hooks io !! s' = Some bound0 ∧ bound0 !! ev = Some f) ∨ s' = s.
Proof.
  unfold handleAuth.
  pose proof (hook_lookup s "watch auction-notify" WatchHook io) as H1.
  destruct (hook s "watch auction-notify" WatchHook io) as [[] io1];
    simpl in *.
  - intros Hb Hev.
    destruct (hook_lookup _ _ _ _ _ _ _ _ Hb Hev)
      as [(b0 & Hb0 & Hev0)|(-> & _)]; [|by right].
    destruct (H1 _ _ _ _ Hb0 Hev0) as [?|(-> & _)]; [by left | by right].
  - intros Hb Hev. destruct (H1 _ _ _ _ Hb Hev) as [?|(-> & _)];
      [by left | by right].
Qed.

Lemma tidy_listening h : channels h = ∅ → tidy (listening h).
Proof.
  intros Hc. unfold tidy, subscribers, members, listening. simpl.
  rewrite Hc, lookup_empty. simpl. split; [constructor|].
  split; [intros s Hs; by apply elem_of_nil in Hs|].
  intros s bound ev f Hb. by rewrite lookup_empty in Hb.
Qed.

(** The state after the 'auth' hook let the socket in. *)
Lemma auth_hook_pass env s args io :
  socket_channel s "auth" (http io) = false →
  check_key env args (http io) = None →
  ∃ r io', auth_hook env s args io = (r, io')
           ∧ http io' = snd (join s "auth" (http io))
           ∧ (∀ s' bound ev f,
                hooks io' !! s' = Some bound → bound !! ev = Some f →
                (∃ bound0, hooks io !! s' = Some bound0 ∧ bound0 !! ev = Some f)
                ∨ s' = s).
Proof.
  intros Hc Hk. unfold auth_hook. rewrite Hc, Hk.
  set (io1 := {| http := snd (join s "auth" (http io)); hooks := hooks io |}).
  pose proof (handleAuth_http s io1) as Hh.
  pose proof (handleAuth_lookup s io1) as Hl.
  destruct (handleAuth s io1) as [ok io2]. simpl in *.
  exists (if ok then Null else Refused), io2. split; [done|]. split; [done|].
  exact Hl.
Qed.

Lemma auth_hook_fail env s args io :
  socket_channel s "auth" (http io) = true
  ∨ check_key env args (http io) ≠ None →
  snd (auth_hook env s args io) = io.
Proof.
  unfold auth_hook. intros [Hc|Hk].
  - by rewrite Hc.
  - destruct (socket_channel s "auth" (http io)); [done|].
    by destruct (check_key env args (http io)).
Qed.

Lemma serve_tidy env r io : tidy io → tidy (snd (serve env r io)).
Proof.
  intros (Hnd & Hsub & Hhooks). destruct r as [s|s ev args]; simpl.
  - (* a new connection *)
    unfold handleSocket.
    pose proof (hook_http s "auth" AuthHook io) as Hh.
    pose proof (hook_lookup s "auth" AuthHook io) as Hl.
    destruct (hook s "auth" AuthHook io) as [ok io']. simpl in *.
    unfold tidy. rewrite Hh. split; [done|]. split; [done|].
    intros s' bound ev f Hb Hev Hf.
    destruct (Hl _ _ _ _ Hb Hev) as [(b0 & Hb0 & Hev0)|(_ & _ & ->)]; [|done].
    by eapply Hhooks.
  - (* a call *)
    unfold call_hook.
    destruct (default ∅ (hooks io !! s) !! ev) as [[| |]|] eqn:E;
      [| | |done].
    + (* auth *)
      destruct (socket_channel s "auth" (http io)) eqn:Hc.
      { rewrite auth_hook_fail; [done | by left]. }
      destruct (check_key env args (http io)) eqn:Hk.
      { rewrite auth_hook_fail; [done | right; congruence]. }
      destruct (auth_hook_pass env s args io Hc Hk) as (r & io' & -> & Hh & Hl).
      cbn [snd]. unfold tidy. rewrite Hh, subscribers_auth, authed_auth.
      split; [done|].
      assert (∀ x, x ∈ members "auth" (http io) ∨ x = s →
                   x ∈ (if decide (s ∈ members "auth" (http io))
                        then members "auth" (http io)
                        else members "auth" (http io) ++ [s])) as Hin.
      { intros x [Hx| ->]; destruct (decide _); try done.
        - apply elem_of_app. by left.
        - apply elem_of_app. right. apply list_elem_of_here. }
      split.
      * intros x Hx. apply Hin. left. by apply Hsub.
      * intros s' bound ev' f Hb Hev Hf. apply Hin.
        destruct (Hl _ _ _ _ Hb Hev) as [(b0 & Hb0 & Hev0)| ->]; [|by right].
        left. by eapply Hhooks.
    + (* watch *)
      assert (s ∈ members "auth" (http io)) as Hs.
      { destruct (hooks io !! s) as [b|] eqn:Eb; simpl in E.
        - by eapply (Hhooks s b ev WatchHook).
        - by rewrite lookup_empty in E. }
      cbn [snd]. unfold tidy, watch_auction_notify. cbn [http hooks].
      rewrite subscribers_watch, authed_watch.
      split; [|split].
      * destruct (decide _) as [|Hn]; [done|].
        apply NoDup_app. split; [done|]. split; [|apply NoDup_singleton].
        intros x Hx ->%list_elem_of_singleton. done.
      * intros x Hx. destruct (decide _); [by apply Hsub|].
        apply elem_of_app in Hx as [Hx| ->%list_elem_of_singleton];
          [by apply Hsub | done].
      * intros s' bound ev' f Hb Hev Hf. by eapply Hhooks.
    + (* unwatch *)
      cbn [snd]. unfold tidy, unwatch_auction_notify. cbn [http hooks].
      rewrite subscribers_unwatch, authed_unwatch.
      split; [|split].
      * by apply NoDup_filter.
      * intros x Hx%list_elem_of_filter. apply Hsub, Hx.
      * intros s' bound ev' f Hb Hev Hf. by eapply Hhooks.
Qed.

Lemma serve_all_tidy env rs io : tidy io → tidy (serve_all env rs io).
Proof.
  revert io. induction rs as [|r rs IH]; intros io H; [done|].
  simpl. apply IH. by apply serve_tidy.
Qed.

Lemma serve_options env r io :
  options (http (snd (serve env r io))) = options (http io).
Proof.
  destruct r as [s|s ev args]; simpl.
  - unfold handleSocket. pose proof (hook_http s "auth" AuthHook io) as Hh.
    destruct (hook s "auth" AuthHook io) as [ok io']. simpl in *. by rewrite Hh.
  - unfold call_hook.
    destruct (default ∅ (hooks io !! s) !! ev) as [[| |]|]; [|done..].
    destruct (socket_channel s "auth" (http io)) eqn:Hc.
    { rewrite auth_hook_fail; [done | by left]. }
    destruct (check_key env args (http io)) eqn:Hk.
    { rewrite auth_hook_fail; [done | right; congruence]. }
    destruct (auth_hook_pass env s args io Hc Hk) as (r & io' & -> & Hh & _).
    simpl. by rewrite Hh.
Qed.

(** A request that is not a passing 'auth' of [s] leaves [s] out of the
    'auth' channel. *)
Lemma serve_keeps_out env r io s :
  (∀ args, r = Invoke s "auth" args → check_key env args (http io) ≠ None) →
  (∀ s' bound ev, hooks io !! s' = Some bound →
     bound !! ev = Some AuthHook → ev = "auth") →
  s ∉ members "auth" (http io) →
  s ∉ members "auth" (http (snd (serve env r io))).
Proof.
  intros Hr Hname Hout. destruct r as [s'|s' ev args]; simpl.
  - unfold handleSocket. pose proof (hook_http s' "auth" AuthHook io) as Hh.
    destruct (hook s' "auth" AuthHook io) as [ok io']. simpl in *. by rewrite Hh.
  - unfold call_hook.
    destruct (default ∅ (hooks io !! s') !! ev) as [[| |]|] eqn:E; [| | |done].
    + destruct (socket_channel s' "auth" (http io)) eqn:Hc.
      { rewrite auth_hook_fail; [done | by left]. }
      destruct (check_key env args (http io)) eqn:Hk.
      { rewrite auth_hook_fail; [done | right; congruence]. }
      destruct (auth_hook_pass env s' args io Hc Hk) as (r & io' & -> & Hh & _).
      cbn [snd]. rewrite Hh, authed_auth.
      assert (s' ≠ s) as Hne.
      { intros ->. destruct (hooks io !! s) as [b|] eqn:Eb; simpl in E.
        - pose proof (Hname s b ev Eb E) as ->. by apply (Hr args).
        - by rewrite lookup_empty in E. }
      destruct (decide _); [done|].
      intros [?| ->%list_elem_of_singleton]%elem_of_app; done.
    + cbn [snd http]. unfold watch_auction_notify. by rewrite authed_watch.
    + cbn [snd http]. unfold unwatch_auction_notify. by rewrite authed_unwatch.
Qed.

(** The 'auth' function is bound under the name 'auth' only. *)
Lemma serve_names env r io :
  (∀ s bound ev, hooks io !! s = Some bound →
     bound !! ev = Some AuthHook → ev = "auth") →
  ∀ s bound ev, hooks (snd (serve env r io)) !! s = Some bound →
     bound !! ev = Some AuthHook → ev = "auth".
Proof.
  intros H. destruct r as [s'|s' ev' args]; simpl.
  - unfold handleSocket. pose proof (hook_lookup s' "auth" AuthHook io) as Hl.
    destruct (hook s' "auth" AuthHook io) as [ok io']. simpl in *.
    intros s bound ev Hb Hev.
    destruct (Hl _ _ _ _ Hb Hev) as [(b0 & Hb0 & Hev0)|(_ & -> & _)]; [|done].
    by eapply H.
  - unfold call_hook.
    destruct (default ∅ (hooks io !! s') !! ev') as [[| |]|] eqn:E;
      [|done..].
    destruct (socket_channel s' "auth" (http io)) eqn:Hc.
    { rewrite auth_hook_fail; [done | by left]. }
    destruct (check_key env args (http io)) eqn:Hk.
    { rewrite auth_hook_fail; [done | right; congruence]. }
    unfold auth_hook. rewrite Hc, Hk.
    set (io1 := {| http := snd (join s' "auth" (http io)); hooks := hooks io |}).
    unfold handleAuth.
    pose proof (hook_lookup s' "watch auction-notify" WatchHook io1) as H1.
    destruct (hook s' "watch auction-notify" WatchHook io1) as [[] io2];
      simpl in *.
    + pose proof (hook_lookup s' "unwatch auction-notify" UnwatchHook io2) as H2.
      destruct (hook s' "unwatch auction-notify" UnwatchHook io2) as [ok io3].
      simpl in *. intros s bound ev Hb Hev.
      destruct (H2 _ _ _ _ Hb Hev) as [(b0 & Hb0 & Hev0)|(_ & _ & [=])].
      destruct (H1 _ _ _ _ Hb0 Hev0) as [(b1 & Hb1 & Hev1)|(_ & _ & [=])].
      by eapply H.
    + intros s bound ev Hb Hev.
      destruct (H1 _ _ _ _ Hb Hev) as [(b1 & Hb1 & Hev1)|(_ & _ & [=])].
      by eapply H.
Qed.

(** What holds of the sockets of a server while [s] has not passed the
    test of the key. *)
Lemma serve_all_keeps_out env h0 rs s io :
  tidy io → options (http io) = options h0 →
  (∀ s' bound ev, hooks io !! s' = Some bound →
     bound !! ev = Some AuthHook → ev = "auth") →
  s ∉ members "auth" (http io) →
  (∀ args, Invoke s "auth" args ∈ rs → check_key env args h0 ≠ None) →
  tidy (serve_all env rs io) ∧ s ∉ members "auth" (http (serve_all env rs io)).
Proof.
  revert io. induction rs as [|r rs IH]; intros io Ht Ho Hn Hs Hrs; [done|].
  simpl. apply IH.
  - by apply serve_tidy.
  - by rewrite serve_options.
  - by apply serve_names.
  - apply serve_keeps_out; [|done..].
    intros args ->. rewrite (check_key_options env args (http io) h0 Ho).
    apply Hrs, list_elem_of_here.
  - intros args Hin. apply Hrs. by apply elem_of_cons; right.
Qed.

(** X27.  A socket is subscribed only after it passed the test of the
    key: whatever the sockets of a server ask for, a socket none of whose
    'auth' calls passes the test is left out of the channel, and a block
    handled afterwards sends it nothing. *)
Theorem socket_without_passing_key_receives_nothing
    (env : Env) (h0 : HTTP) (rs : list request) (s : nat)
    (chain : ChainDB) (block : Block) :
  channels h0 = ∅ →
  (∀ args, Invoke s "auth" args ∈ rs → check_key env args h0 ≠ None) →
  (s ∉ subscribers (http (serve_all env rs (listening h0)))) ∧
  deliveries s
    (added (connect chain block) (http (serve_all env rs (listening h0)))) = [].
Proof.
  intros Hc Hrs.
  destruct (serve_all_keeps_out env h0 rs s (listening h0))
    as [(Hnd & Hsub & _) Hout]; [by apply tidy_listening | done | | | done |].
  { intros s' bound ev Hb. simpl in Hb. by rewrite lookup_empty in Hb. }
  { unfold members, listening. simpl. rewrite Hc, lookup_empty.
    apply not_elem_of_nil. }
  assert (s ∉ subscribers (http (serve_all env rs (listening h0)))) as Hs.
  { intros Hin. by apply Hout, Hsub. }
  split; [done|].
  destruct (connect_relays s chain block _ Hnd) as (_ & t & E & D).
  rewrite (added_appends _ _ _ E), D. by rewrite bool_decide_eq_false_2.
Qed.

Lemma socket_without_passing_key_receives_nothing_witness :
  deliveries 2
    (added (connect sample.chain sample.bid_block)
       (http (serve_all sample.env
                [Attach 2; Invoke 2 "auth" [JStr "guess"];
                 Invoke 2 "watch auction-notify" []]
                (listening
                   {| options := built sample.env
                        (JObj (PCons "node" sample.node
                           (PCons "adb" (JObj PNil)
                           (PCons "apiKey" (JStr "secret") PNil))));
                      adb := fresh; channels := ∅; disk := []; trace := [] |}))))
  = [].
Proof.
  apply (socket_without_passing_key_receives_nothing sample.env
           {| options := built sample.env
                (JObj (PCons "node" sample.node
                   (PCons "adb" (JObj PNil)
                   (PCons "apiKey" (JStr "secret") PNil))));
              adb := fresh; channels := ∅; disk := []; trace := [] |}
           [Attach 2; Invoke 2 "auth" [JStr "guess"];
            Invoke 2 "watch auction-notify" []] 2%nat).
  - reflexivity.
  - intros args Hin.
    apply elem_of_cons in Hin as [[=]|Hin].
    apply elem_of_cons in Hin as [[= ->]|Hin]; [vm_compute; discriminate|].
    apply elem_of_cons in Hin as [[=]|Hin].
    by apply elem_of_nil in Hin.
Defined.

(** X28.  Whatever the sockets of a server ask for, in whatever order,
    no socket is subscribed twice and every subscribed socket is
    authenticated. *)
Theorem subscribers_are_authenticated_once
    (env : Env) (h0 : HTTP) (rs : list request) :
  channels h0 = ∅ →
  NoDup (subscribers (http (serve_all env rs (listening h0)))) ∧
  (∀ s, s ∈ subscribers (http (serve_all env rs (listening h0))) →
     socket_channel s "auth" (http (serve_all env rs (listening h0))) = true).
Proof.
  intros Hc.
  destruct (serve_all_tidy env rs (listening h0)) as (Hnd & Hsub & _);
    [by apply tidy_listening|].
  split; [done|]. intros s Hs. apply bool_decide_eq_true_2. by apply Hsub.
Qed.

Lemma subscribers_are_authenticated_once_witness :
  NoDup (subscribers
           (http (serve_all sample.env
                    [Attach 1; Invoke 1 "auth" [];
                     Invoke 1 "watch auction-notify" [];
                     Invoke 1 "watch auction-notify" []]
                    (listening
                       {| options := built sample.env sample.plugin_options;
                          adb := fresh; channels := ∅; disk := [];
                          trace := [] |})))).
Proof.
  apply (subscribers_are_authenticated_once sample.env
           {| options := built sample.env sample.plugin_options;
              adb := fresh; channels := ∅; disk := []; trace := [] |}).
  reflexivity.
Defined.

Ltac look :=
  repeat first
    [ rewrite lookup_insert_eq
    | rewrite lookup_singleton_eq
    | rewrite lookup_insert_ne by done
    | rewrite lookup_singleton_ne by done
    | rewrite lookup_empty ].

Lemma hook_fresh s ev f io bound :
  hooks io !! s = bound → default ∅ bound !! ev = None →
  hook s ev f io
  = (true, {| http := http io;
              hooks := <[s := <[ev := f]> (default ∅ bound)]> (hooks io) |}).
Proof.
  intros <- Hev. unfold hook. rewrite Hev.
  by rewrite bool_decide_eq_false_2 by (by intros [? [=]]).
Qed.

(** X29.  A socket that connects, passes the test of the key and calls
    'watch auction-notify' is subscribed.  Before the 'auth' call the
    watch hook is not bound; after it a second 'auth' is refused as
    'Already authed.' and changes nothing. *)
Theorem passing_key_then_watch_subscribes
    (env : Env) (io : Sockets) (s : nat) (args args' : list jsval) :
  hooks io !! s = None →
  socket_channel s "auth" (http io) = false →
  check_key env args (http io) = None →
  fst (serve env (Invoke s "watch auction-notify" args')
         (serve_all env [Attach s] io)) = NotBound ∧
  fst (serve env (Invoke s "auth" args) (serve_all env [Attach s] io)) = Null ∧
  fst (serve env (Invoke s "watch auction-notify" args')
         (serve_all env [Attach s; Invoke s "auth" args] io)) = Null ∧
  s ∈ subscribers
        (http (serve_all env
                 [Attach s; Invoke s "auth" args;
                  Invoke s "watch auction-notify" args'] io)) ∧
  serve env (Invoke s "auth" args)
    (serve_all env [Attach s; Invoke s "auth" args] io)
  = (Failed "Already authed.",
     serve_all env [Attach s; Invoke s "auth" args] io).
Proof.
  intros Hh Hc Hk.
  set (b1 := <["auth" := AuthHook]> (∅ : gmap string handler)).
  set (io1 := {| http := http io; hooks := <[s := b1]> (hooks io) |}).
  assert (serve_all env [Attach s] io = io1) as E1.
  { unfold serve_all. simpl. unfold handleSocket.
    by rewrite (hook_fresh s "auth" AuthHook io None Hh). }
  set (b2 := <["watch auction-notify" := WatchHook]> b1).
  set (b3 := <["unwatch auction-notify" := UnwatchHook]> b2).
  set (h2 := snd (join s "auth" (http io))).
  set (io2 := {| http := h2; hooks := <[s := b3]> (<[s := b2]> (hooks io1)) |}).
  assert (b1 !! "auth" = Some AuthHook) as Hb1 by (unfold b1; by look).
  assert (b3 !! "auth" = Some AuthHook) as Hb3 by (unfold b3, b2, b1; by look).
  assert (b3 !! "watch auction-notify" = Some WatchHook) as Hw3
    by (unfold b3, b2, b1; by look).
  assert (serve env (Invoke s "auth" args) io1 = (Null, io2)) as E2.
  { simpl. unfold call_hook. unfold io1 at 1. cbn [hooks]. look.
    cbn [default]. rewrite ?Hb1.
    unfold auth_hook. cbn [http io1]. rewrite Hc, Hk. fold h2.
    unfold handleAuth.
    rewrite (hook_fresh s "watch auction-notify" WatchHook _ (Some b1));
      [|unfold io1; cbn [hooks]; by look | unfold b1; cbn [default]; by look].
    rewrite (hook_fresh s "unwatch auction-notify" UnwatchHook _ (Some b2));
      [|cbn [hooks]; by look | unfold b2, b1; cbn [default]; by look].
    reflexivity. }
  assert (serve_all env [Attach s; Invoke s "auth" args] io = io2) as E12.
  { change (serve_all env [Attach s; Invoke s "auth" args] io)
      with (snd (serve env (Invoke s "auth" args) (serve_all env [Attach s] io))).
    by rewrite E1, E2. }
  assert (s ∈ members "auth" h2) as Hin.
  { unfold h2. rewrite authed_auth.
    destruct (decide _); [done|]. apply elem_of_app. right.
    apply list_elem_of_here. }
  assert (hooks io2 !! s = Some b3) as Hio2 by (unfold io2; cbn [hooks]; by look).
  rewrite E12, E1, E2.
  split; [|split; [done|split; [|split]]].
  - cbn [serve]. unfold call_hook, io1. cbn [hooks]. look. cbn [default].
    unfold b1. by look.
  - cbn [serve]. unfold call_hook. rewrite Hio2.
    change (default ∅ (Some b3)) with b3. by rewrite Hw3.
  - change (serve_all env [Attach s; Invoke s "auth" args;
                           Invoke s "watch auction-notify" args'] io)
      with (snd (serve env (Invoke s "watch auction-notify" args')
                   (serve_all env [Attach s; Invoke s "auth" args] io))).
    rewrite E12. cbn [serve]. unfold call_hook. rewrite Hio2.
    change (default ∅ (Some b3)) with b3.
    rewrite Hw3. cbn [snd http]. unfold watch_auction_notify.
    rewrite subscribers_watch.
    destruct (decide _); [done|]. apply elem_of_app. right.
    apply list_elem_of_here.
  - cbn [serve]. unfold call_hook. rewrite Hio2.
    change (default ∅ (Some b3)) with b3. rewrite Hb3.
    unfold auth_hook, socket_channel. cbn [http io2].
    by rewrite bool_decide_eq_true_2.
Qed.

Lemma passing_key_then_watch_subscribes_witness :
  1%nat ∈ subscribers
    (http (serve_all sample.env
             [Attach 1; Invoke 1 "auth" [JStr "secret"];
              Invoke 1 "watch auction-notify" []]
             (listening
                {| options := built sample.env
                     (JObj (PCons "node" sample.node
                        (PCons "adb" (JObj PNil)
                        (PCons "apiKey" (JStr "secret") PNil))));
                   adb := fresh; channels := ∅; disk := []; trace := [] |}))).
Proof.
  apply (passing_key_then_watch_subscribes sample.env
           (listening
              {| options := built sample.env
                   (JObj (PCons "node" sample.node
                      (PCons "adb" (JObj PNil)
                      (PCons "apiKey" (JStr "secret") PNil))));
                 adb := fresh; channels := ∅; disk := []; trace := [] |})
           1%nat [JStr "secret"] []);
    [reflexivity | reflexivity | vm_compute; reflexivity].
Defined.

(** X30.  The key of a constructed server opens its sockets: the key the
    options end up with, the caller's or the random one, passes the test
    of the 'auth' hook. *)
Theorem configured_key_passes_the_check
    (env : Env) (props : jsprops) (adb0 : AuctionDB) (h : HTTP) :
  new_HTTP env (JObj props) adb0 = Ret h →
  (String.length (random_key env) <= 255)%nat →
  check_key env [JStr (chosen_key env (assoc "apiKey" props))] h = None.
Proof.
  unfold new_HTTP. intros E Hrk.
  destruct (new_HTTPOptions env (JObj props)) as [this|e] eqn:Eo; [|done].
  injection E as <-.
  destruct (new_HTTPOptions_key env props this Eo) as (Hk & Hh & Hlen).
  unfold check_key. cbn [options str0].
  destruct (truthy (field this "noAuth")); [done|].
  assert (String.length (chosen_key env (assoc "apiKey" props)) <= 255)%nat
    as Hle.
  { destruct (not_nullish (assoc "apiKey" props)) eqn:Hn.
    - by apply Hlen.
    - by destruct (assoc "apiKey" props). }
  destruct (255 <? _)%nat eqn:E; [apply Nat.ltb_lt in E; lia|].
  rewrite Hh. by rewrite bool_decide_eq_true_2.
Qed.

Lemma configured_key_passes_the_check_witness :
  check_key sample.env [JStr "secret"]
    {| options := built sample.env
         (JObj (PCons "node" sample.node (PCons "adb" (JObj PNil)
               (PCons "apiKey" (JStr "secret") PNil))));
       adb := fresh; channels := ∅; disk := []; trace := [] |}
  = None.
Proof.
  apply (configured_key_passes_the_check sample.env
           (PCons "node" sample.node (PCons "adb" (JObj PNil)
              (PCons "apiKey" (JStr "secret") PNil))) fresh).
  - vm_compute. reflexivity.
  - vm_compute. lia.
Defined.
